(** * media-browser: path resolution, image scanning and seeded slideshow order

    A shallow embedding of the server-side logic of the media browser:

    - [app/utils/photo-path.ts]   ([resolvePhotoPath]),
    - [app/utils/auth.server.ts]  ([isAuthenticated]),
    - [routes/api.photos.tsx] and [routes/api.thumbnails.tsx] (the two
      file-serving loaders),
    - [routes/slideshow.tsx]      ([getAllImages], [mulberry32] and the
      seeded Fisher-Yates loop of the loader).

    JavaScript numbers are modelled by [Z] with every 32-bit conversion and
    every binary64 rounding written out; a string is a [string] holding the
    UTF-8 bytes of the JavaScript string, and where JavaScript compares
    strings ([sort]) the UTF-16 code units are recovered from the bytes; the
    filesystem is a finite tree of directory entries without symbolic
    links; [async] code that may throw is written in a small
    state-and-exception monad that also records each filesystem call it
    makes. *)

From stdpp Require Import base tactics option list sorting strings.
From Stdlib Require Import ZArith QArith Qround Lia Ascii String.

Set Default Proof Using "Type".
Set Warnings "-register-all".

(* ================================================================== *)
(** ** JavaScript number operations used by the generator *)
(* ================================================================== *)

Module JSNumber.
Local Open Scope Z_scope.

Definition two32 : Z := 4294967296.

(** [ToUint32] and [ToInt32] of an integer-valued number. *)
Definition toUint32 (x : Z) : Z := x mod two32.
Definition toInt32 (x : Z) : Z := (x + 2147483648) mod two32 - 2147483648.

(** [x ^ y] and [x | y]: both operands go through [ToInt32]; the result is
    an int32.  [Z.lxor] and [Z.lor] act on the two's-complement expansion. *)
Definition bxor (x y : Z) : Z := Z.lxor (toInt32 x) (toInt32 y).
Definition bor (x y : Z) : Z := Z.lor (toInt32 x) (toInt32 y).

(** [x >>> n]: [ToUint32] of the left operand, shift count taken mod 32. *)
Definition ushr (x n : Z) : Z := Z.shiftr (toUint32 x) (n mod 32).

(** [Math.imul(x, y)]: the low 32 bits of the product, as an int32. *)
Definition imul (x y : Z) : Z := toInt32 (toInt32 x * toInt32 y).

(** Rounding of an integer to the nearest binary64 value (53 significant
    bits, ties to even).  Every number the shuffle adds or multiplies is an
    integer multiple of [2^-32] far inside the normal exponent range, so
    binary64 rounding of the scaled integer is binary64 rounding of the
    number itself. *)
Definition round53 (m : Z) : Z :=
  let n := Z.abs m in
  let s := Z.log2 n - 52 in
  if s <=? 0 then m
  else
    let q := Z.shiftr n s in
    let r := Z.land n (Z.ones s) in
    let half := Z.shiftl 1 (s - 1) in
    let q' := if r <? half then q
              else if half <? r then q + 1
              else if Z.even q then q else q + 1 in
    Z.sgn m * Z.shiftl q' s.

(** [x + y] on integer-valued numbers. *)
Definition fadd (x y : Z) : Z := round53 (x + y).

(** A number [k / 4294967296] with [k] a uint32: the quotient is exact in
    binary64, so the number is the rational [k # 2^32]. *)
Definition unit_fraction (k : Z) : Q := k # 4294967296.

(** [Math.floor(x * n)] for [x = k / 4294967296] and an integer [n]: the
    binary64 product is the rounding of [k * n] scaled by [2^-32], and
    [Math.floor] is exact. *)
Definition floor_mul (k n : Z) : Z := round53 (k * n) / two32.

End JSNumber.

(* ================================================================== *)
(** ** JavaScript string comparison *)
(* ================================================================== *)

Module JSString.
Local Open Scope Z_scope.

(** The state of the UTF-8 decoder between two bytes: the number of
    continuation bytes still needed, the code point collected so far and
    the range the next byte has to lie in. *)
Record decoder : Type := {
  needed : nat;
  code_point : Z;
  lower : Z;
  upper : Z;
}.

Definition idle : decoder :=
  {| needed := 0%nat; code_point := 0; lower := 128; upper := 191 |}.

(** A byte read when no continuation byte is needed: the state it leads
    to and the code points it completes.  A byte that cannot start a
    sequence gives U+FFFD. *)
Definition lead (b : Z) : decoder * list Z :=
  if b <=? 127 then (idle, [b])
  else if (194 <=? b) && (b <=? 223) then
    ({| needed := 1%nat; code_point := Z.land b 31; lower := 128; upper := 191 |}, [])
  else if (224 <=? b) && (b <=? 239) then
    ({| needed := 2%nat; code_point := Z.land b 15;
        lower := if b =? 224 then 160 else 128;
        upper := if b =? 237 then 159 else 191 |}, [])
  else if (240 <=? b) && (b <=? 244) then
    ({| needed := 3%nat; code_point := Z.land b 7;
        lower := if b =? 240 then 144 else 128;
        upper := if b =? 244 then 143 else 191 |}, [])
  else (idle, [65533]).

(** The code points of a byte sequence read as UTF-8: an ill-formed
    sequence gives U+FFFD for its longest prefix that could start a
    well-formed one, and decoding goes on with the byte that broke it. *)
Fixpoint decode (d : decoder) (bytes : list Z) : list Z :=
  match bytes with
  | [] => match needed d with
          | O => []
          | S _ => [65533]
          end
  | b :: rest =>
      match needed d with
      | O => let '(d', out) := lead b in (out ++ decode d' rest)%list
      | S n =>
          if (lower d <=? b) && (b <=? upper d) then
            let cp := Z.lor (Z.shiftl (code_point d) 6) (Z.land b 63) in
            match n with
            | O => cp :: decode idle rest
            | S _ => decode {| needed := n; code_point := cp;
                               lower := 128; upper := 191 |} rest
            end
          else let '(d', out) := lead b in (65533 :: out ++ decode d' rest)%list
      end
  end.

(** The UTF-16 code units of a code point: itself, or a surrogate pair. *)
Definition utf16 (cp : Z) : list Z :=
  if cp <? 65536 then [cp]
  else [55296 + Z.shiftr (cp - 65536) 10; 56320 + Z.land (cp - 65536) 1023].

(** The code units of the JavaScript string whose UTF-8 bytes are [s]. *)
Definition code_units (s : string) : list Z :=
  flat_map utf16
    (decode idle (map (λ c, Z.of_N (N_of_ascii c)) (list_ascii_of_string s))).

(** [x < y] on sequences of code units: at the first position where they
    differ the smaller code unit decides; a proper prefix comes first. *)
Fixpoint units_lt (x y : list Z) : bool :=
  match x, y with
  | _, [] => false
  | [], _ :: _ => true
  | a :: x', b :: y' =>
      if a <? b then true
      else if b <? a then false
      else units_lt x' y'
  end.

(** [x < y] on strings. *)
Definition lt (x y : string) : bool := units_lt (code_units x) (code_units y).

(** The default comparator of [sort] does not put [y] before [x]. *)
Definition le (x y : string) : Prop := lt y x = false.

#[global] Instance le_dec : RelDecision le.
Proof. intros x y. unfold le. apply _. Defined.

End JSString.

(* ================================================================== *)
(** ** Strings and Node's [path] module (POSIX flavour) *)
(* ================================================================== *)

Module NodePath.
Local Open Scope string_scope.

Definition slash : ascii := "/"%char.

(** [s.split(c)] for a one-character separator: never the empty array. *)
Fixpoint split_on (c : ascii) (s : string) : list string :=
  match s with
  | EmptyString => [EmptyString]
  | String x s' =>
      if Ascii.eqb x c then EmptyString :: split_on c s'
      else match split_on c s' with
           | [] => [String x EmptyString]
           | w :: ws => String x w :: ws
           end
  end.

(** [parts.join("/")]. *)
Definition join_with (sep : string) (parts : list string) : string :=
  String.concat sep parts.

Fixpoint drop_leading (c : ascii) (s : string) : string :=
  match s with
  | String x s' => if Ascii.eqb x c then drop_leading c s' else s
  | EmptyString => EmptyString
  end.

Fixpoint drop_trailing (c : ascii) (s : string) : string :=
  match s with
  | EmptyString => EmptyString
  | String x s' =>
      match drop_trailing c s' with
      | EmptyString => if Ascii.eqb x c then EmptyString else String x EmptyString
      | r => String x r
      end
  end.

(** [s.replace(/^\/+|\/+$/g, "")]. *)
Definition strip_slashes (s : string) : string :=
  drop_trailing slash (drop_leading slash s).

(** [s.replace(/\/$/, "")]: at most one trailing slash goes. *)
Fixpoint strip_one_trailing_slash (s : string) : string :=
  match s with
  | EmptyString => EmptyString
  | String x EmptyString => if Ascii.eqb x slash then EmptyString else s
  | String x s' => String x (strip_one_trailing_slash s')
  end.

Fixpoint no_slash (s : string) : bool :=
  match s with
  | EmptyString => true
  | String x s' => negb (Ascii.eqb x slash) && no_slash s'
  end.

Definition starts_with_slash (s : string) : bool :=
  match s with
  | String x _ => Ascii.eqb x slash
  | EmptyString => false
  end.

Fixpoint ends_with_slash (s : string) : bool :=
  match s with
  | EmptyString => false
  | String x EmptyString => Ascii.eqb x slash
  | String _ s' => ends_with_slash s'
  end.

(** One step of [normalizeString]: [stack] holds the segments kept so far,
    last one first.  Empty segments and ["."] are skipped; [".."] removes
    the last kept segment unless that is itself [".."] or nothing is kept,
    in which case it is kept only when [allowAboveRoot]. *)
Definition normalize_step (allowAboveRoot : bool) (stack : list string)
    (seg : string) : list string :=
  if decide (seg = "" ∨ seg = ".") then stack
  else if decide (seg = "..") then
    match stack with
    | top :: rest =>
        if decide (top = "..") then
          (if allowAboveRoot then seg :: stack else stack)
        else rest
    | [] => if allowAboveRoot then [seg] else []
    end
  else seg :: stack.

Definition normalize_segments (allowAboveRoot : bool) (segs : list string)
    : list string :=
  rev (fold_left (normalize_step allowAboveRoot) segs []).

(** [path.normalize(p)]. *)
Definition normalize (p : string) : string :=
  if decide (p = "") then "."
  else
    let isAbsolute := starts_with_slash p in
    let trailingSeparator := ends_with_slash p in
    let res := join_with "/" (normalize_segments (negb isAbsolute) (split_on slash p)) in
    if decide (res = "") then
      (if isAbsolute then "/" else if trailingSeparator then "./" else ".")
    else
      let res := if trailingSeparator then res ++ "/" else res in
      if isAbsolute then "/" ++ res else res.

(** [path.join(a, b)]: the non-empty arguments joined by ["/"], normalized. *)
Definition join (a b : string) : string :=
  match a, b with
  | EmptyString, EmptyString => "."
  | EmptyString, _ => normalize b
  | _, EmptyString => normalize a
  | _, _ => normalize (a ++ "/" ++ b)
  end.

(** [path.basename(p)]: the last non-empty segment, [""] if there is none. *)
Definition basename (p : string) : string :=
  List.last (List.filter (λ seg, negb (String.eqb seg "")) (split_on slash p)) "".

(** The canonical (lexically resolved) form of a path: whether it is
    absolute, and its normalized segments. *)
Definition canonical (p : string) : bool * list string :=
  let isAbsolute := starts_with_slash p in
  (isAbsolute, normalize_segments (negb isAbsolute) (split_on slash p)).

Fixpoint is_prefix (xs ys : list string) : bool :=
  match xs, ys with
  | [], _ => true
  | x :: xs', y :: ys' => String.eqb x y && is_prefix xs' ys'
  | _ :: _, [] => false
  end.

(** [p], once canonicalized, lies in the directory [root] (or is it). *)
Definition within_root (root p : string) : bool :=
  Bool.eqb (canonical root).1 (canonical p).1
  && is_prefix (canonical root).2 (canonical p).2.

End NodePath.

(* ================================================================== *)
(** ** The filesystem and the effects of [async] code *)
(* ================================================================== *)

Module FS.
Import NodePath.
Local Open Scope string_scope.

(** A directory entry is a regular file, a directory, or something else
    (a socket, a FIFO, a device), for which both [isFile()] and
    [isDirectory()] answer false.  The tree has no symbolic links, so the
    [Dirent] that [readdir] gives for an entry and the [Stats] that [stat]
    gives for its path agree on its kind.  [readable = false] is a
    directory whose [readdir] fails; [LockedFile] is a regular file that
    the process may not open for reading, [File] one that it may. *)
Inductive node : Type :=
| File (mtimeMs : Z) (content : string)
| Dir (readable : bool) (entries : list (string * node))
| Other
| LockedFile (mtimeMs : Z).

(** [entry.isFile()] *)
Definition is_regular (n : node) : bool :=
  match n with
  | File _ _ | LockedFile _ => true
  | _ => false
  end.

Record filesystem : Type := { fs_root : node; fs_cwd : string }.

Fixpoint lookup_entry (name : string) (entries : list (string * node))
    : option node :=
  match entries with
  | [] => None
  | (n, child) :: rest =>
      if String.eqb n name then Some child else lookup_entry name rest
  end.

Fixpoint walk (n : node) (segs : list string) : option node :=
  match segs with
  | [] => Some n
  | seg :: rest =>
      match n with
      | Dir _ entries =>
          match lookup_entry seg entries with
          | Some child => walk child rest
          | None => None
          end
      | _ => None
      end
  end.

(** The node a path names: relative paths start at the working directory;
    the empty path names nothing. *)
Definition locate (fs : filesystem) (p : string) : option node :=
  if decide (p = "") then None
  else
    let abs := if starts_with_slash p then p else fs_cwd fs ++ "/" ++ p in
    walk (fs_root fs) (canonical abs).2.

Inductive fs_call : Type :=
| CallAccess (p : string)
| CallStat (p : string)
| CallReadFile (p : string)
| CallSharp (src dst : string).

Inductive error : Type :=
| ENOENT | ENOTDIR | EISDIR | EACCES | EINVAL | CodecError.

Inductive outcome (A : Type) : Type :=
| Return (a : A)
| Throw (e : error).
Arguments Return {A} a.
Arguments Throw {A} e.

(** The state a request runs in: the filesystem and the filesystem calls
    made so far, oldest first. *)
Record world : Type := { files : filesystem; calls : list fs_call }.

Definition IO (A : Type) : Type := world → outcome A * world.

Definition ret {A} (a : A) : IO A := λ w, (Return a, w).

Definition throw {A} (e : error) : IO A := λ w, (Throw e, w).

Definition bind {A B} (m : IO A) (k : A → IO B) : IO B :=
  λ w, match m w with
       | (Return a, w') => k a w'
       | (Throw e, w') => (Throw e, w')
       end.

(** [try { m } catch (e) { handler e }]. *)
Definition try_catch {A} (m : IO A) (handler : error → IO A) : IO A :=
  λ w, match m w with
       | (Return a, w') => (Return a, w')
       | (Throw e, w') => handler e w'
       end.

Definition record_call (c : fs_call) : IO unit :=
  λ w, (Return tt, {| files := files w; calls := calls w ++ [c] |}).

Definition get_files : IO filesystem := λ w, (Return (files w), w).

Definition put_files (fs : filesystem) : IO unit :=
  λ w, (Return tt, {| files := fs; calls := calls w |}).

Definition of_outcome {A} (o : outcome A) : IO A := λ w, (o, w).

#[global] Instance IO_ret : MRet IO := @ret.
#[global] Instance IO_bind : MBind IO := λ A B k m, bind m k.

Record Stats : Type := { isFile : bool; isDirectory : bool; stat_mtimeMs : Z }.

Definition stats_of (n : node) : Stats :=
  match n with
  | File mtime _ => {| isFile := true; isDirectory := false; stat_mtimeMs := mtime |}
  | Dir _ _ => {| isFile := false; isDirectory := true; stat_mtimeMs := 0 |}
  | Other => {| isFile := false; isDirectory := false; stat_mtimeMs := 0 |}
  | LockedFile mtime =>
      {| isFile := true; isDirectory := false; stat_mtimeMs := mtime |}
  end.

(** [await fs.access(p)] *)
Definition fs_access (p : string) : IO unit :=
  record_call (CallAccess p) ;;
  fs ← get_files;
  match locate fs p with
  | Some _ => ret tt
  | None => throw ENOENT
  end.

(** [await fs.stat(p)] *)
Definition fs_stat (p : string) : IO Stats :=
  record_call (CallStat p) ;;
  fs ← get_files;
  match locate fs p with
  | Some n => ret (stats_of n)
  | None => throw ENOENT
  end.

(** [await fs.readFile(p)]: the bytes of a regular file that may be read.
    Everything else throws; no caller looks at the error code. *)
Definition fs_readFile (p : string) : IO string :=
  record_call (CallReadFile p) ;;
  fs ← get_files;
  match locate fs p with
  | Some (File _ content) => ret content
  | Some (LockedFile _) => throw EACCES
  | Some (Dir _ _) => throw EISDIR
  | Some Other => throw EINVAL
  | None => throw ENOENT
  end.

End FS.

(* ================================================================== *)
(** ** [app/utils/photo-path.ts] *)
(* ================================================================== *)

Module PhotoPath.
Import NodePath FS.
Local Open Scope string_scope.

Inductive ResolveResult : Type :=
| Root (photoDirs : list string)
| Entry (fullPath baseDir relativePath : string).

(** [process.env.PHOTO_DIRS?.split(",") || []] *)
Definition configured_dirs (PHOTO_DIRS : option string) : list string :=
  match PHOTO_DIRS with
  | Some s => split_on "," s
  | None => []
  end.

(** The [for (const dir of photoDirs)] loop: the first directory under
    which the whole path can be accessed. *)
Fixpoint probe (dirs : list string) (cleanUrl : string)
    : IO (option ResolveResult) :=
  match dirs with
  | [] => ret None
  | dir :: rest =>
      let tryPath := join dir cleanUrl in
      try_catch
        (fs_access tryPath ;; ret (Some (Entry tryPath dir cleanUrl)))
        (λ _, probe rest cleanUrl)
  end.

(** The value of [matchedDir] when it passes [if (matchedDir)]: found, and
    not the empty string. *)
Definition truthy (found : option string) : option string :=
  match found with
  | Some EmptyString => None
  | other => other
  end.

(** [null] is [None]. *)
Definition resolvePhotoPath (PHOTO_DIRS : option string) (urlPath : string)
    : IO (option ResolveResult) :=
  let photoDirs := configured_dirs PHOTO_DIRS in
  match photoDirs with
  | [] => ret None
  | firstDir :: _ =>
      let cleanUrl := strip_slashes urlPath in
      if decide (cleanUrl = "") then ret (Some (Root photoDirs))
      else
        let parts := split_on slash cleanUrl in
        let firstSegment := List.hd "" parts in
        let matchedDir :=
          List.find (λ dir, String.eqb (basename dir) firstSegment) photoDirs in
        match truthy matchedDir with
        | Some matchedDir =>
            let relativePath := join_with "/" (List.tl parts) in
            ret (Some (Entry (join matchedDir relativePath) matchedDir relativePath))
        | None =>
            found ← probe photoDirs cleanUrl;
            match found with
            | Some r => ret (Some r)
            | None => ret (Some (Entry (join firstDir cleanUrl) firstDir cleanUrl))
            end
        end
  end.

End PhotoPath.

(* ================================================================== *)
(** ** [app/utils/auth.server.ts] *)
(* ================================================================== *)

Module Auth.
Import FS.
Local Open Scope string_scope.

(** What the loaders look at in a [Request]: its [cookie] header. *)
Record Request : Type := { cookie_header : option string }.

(** The library calls whose results the code only passes along:
    [authCookie.parse] (react-router: the cookie's value, or an exception),
    [crypto]'s md5 digest in hex, [String(n)] on a modification time,
    [Number(s)] on the seed parameter (the integral part of the number, or
    [None] for [NaN]), and [sharp]'s decode-rotate-resize-encode pipeline
    writing [dst] from [src] (the filesystem afterwards, or an exception). *)
Record Platform : Type := {
  cookie_parse : string → outcome (option string);
  md5_hex : string → string;
  number_to_string : Z → string;
  string_to_number : string → option Z;
  sharp_toFile : filesystem → string → string → outcome filesystem;
}.

Definition isAuthenticated (P : Platform) (request : Request) : bool :=
  match cookie_header request with
  | None => false
  | Some EmptyString => false
  | Some cookieHeader =>
      match cookie_parse P cookieHeader with
      | Return val => bool_decide (val = Some "1")
      | Throw _ => false
      end
  end.

End Auth.

(* ================================================================== *)
(** ** [routes/api.photos.tsx] and [routes/api.thumbnails.tsx] *)
(* ================================================================== *)

Module Api.
Import NodePath FS PhotoPath Auth.
Local Open Scope string_scope.

Record Response : Type := {
  status : Z;
  body : string;
  headers : list (string * string);
}.

Record LoaderArgs : Type := { request : Request; splat : string }.

Definition text_response (text : string) (code : Z) : Response :=
  {| status := code; body := text; headers := [] |}.

Definition file_response (content contentType : string) : Response :=
  {| status := 200; body := content;
     headers := [("Content-Type", contentType);
                 ("Cache-Control", "public, max-age=31536000")] |}.

Definition to_lower_char (c : ascii) : ascii :=
  let n := nat_of_ascii c in
  if (65 <=? n)%nat && (n <=? 90)%nat then ascii_of_nat (n + 32) else c.

Fixpoint toLowerCase (s : string) : string :=
  match s with
  | EmptyString => EmptyString
  | String c s' => String (to_lower_char c) (toLowerCase s')
  end.

(** The part of [s] from the last occurrence of [c] on, if [c] occurs. *)
Fixpoint from_last (c : ascii) (s : string) : option string :=
  match s with
  | EmptyString => None
  | String x s' =>
      match from_last c s' with
      | Some r => Some r
      | None => if Ascii.eqb x c then Some s else None
      end
  end.

(** [path.extname(p)]: from the last dot of the base name on; empty when
    there is no dot, when the only dot starts the name, or for [".."]. *)
Definition extname (p : string) : string :=
  let base := basename p in
  match from_last "."%char base with
  | None => ""
  | Some ext =>
      if decide (ext = base ∨ base = "..") then "" else ext
  end.

Definition getMimeType (ext : string) : string :=
  if decide (ext = ".jpg") then "image/jpeg"
  else if decide (ext = ".jpeg") then "image/jpeg"
  else if decide (ext = ".png") then "image/png"
  else if decide (ext = ".gif") then "image/gif"
  else if decide (ext = ".webp") then "image/webp"
  else "application/octet-stream".

Section loaders.
Context (P : Platform).

(** The loaders are called with the request and the route parameters, and
    destructure only [params].  [rr_request] is [globalThis.__RR_REQUEST]
    when that is a [Request] object, and [None] otherwise; [splat] is
    [params["*"] || ""]. *)
Definition photos_loader (rr_request : option Request)
    (PHOTO_DIRS : option string) (args : LoaderArgs) : IO Response :=
  let serve : IO Response :=
    let filePath := splat args in
    resolved ← resolvePhotoPath PHOTO_DIRS filePath;
    let notFound := ret (text_response "File not found" 404) in
    match resolved with
    | Some (Entry fullPath _ _) =>
        try_catch
          (stat ← fs_stat fullPath;
           if isFile stat then
             fileContent ← fs_readFile fullPath;
             let ext := toLowerCase (extname fullPath) in
             let mimeType := getMimeType ext in
             ret (file_response fileContent mimeType)
           else notFound)
          (λ _, notFound)
    | _ => notFound
    end in
  match rr_request with
  | Some req =>
      if isAuthenticated P req then serve
      else ret (text_response "Unauthorized" 401)
  | None => serve
  end.

(** [path.join(process.cwd(), ".cache", "thumbnails")] *)
Definition CACHE_DIR (fs : filesystem) : string :=
  join (join (fs_cwd fs) ".cache") "thumbnails".

Definition thumbnails_loader (rr_request : option Request)
    (PHOTO_DIRS : option string) (args : LoaderArgs) : IO Response :=
  let serve : IO Response :=
    let filePath := splat args in
    resolved ← resolvePhotoPath PHOTO_DIRS filePath;
    match resolved with
    | Some (Entry fullPath _ _) =>
        try_catch
          (stat ← fs_stat fullPath;
           if negb (isFile stat) then ret (text_response "Not a file" 404)
           else
             let hash := md5_hex P (fullPath ++ number_to_string P (stat_mtimeMs stat)) in
             fs ← get_files;
             let cachePath := join (CACHE_DIR fs) (hash ++ ".webp") in
             cached ← try_catch
                        (cachedImage ← fs_readFile cachePath;
                         ret (Some (file_response cachedImage "image/webp")))
                        (λ _, ret None);
             match cached with
             | Some response => ret response
             | None =>
                 record_call (CallSharp fullPath cachePath);;
                 fs' ← of_outcome (sharp_toFile P fs fullPath cachePath);
                 put_files fs';;
                 newThumbnail ← fs_readFile cachePath;
                 ret (file_response newThumbnail "image/webp")
             end)
          (λ _, ret (text_response "Error generating thumbnail" 500))
    | _ => ret (text_response "Not found" 404)
    end in
  match rr_request with
  | Some req =>
      if isAuthenticated P req then serve
      else ret (text_response "Unauthorized" 401)
  | None => serve
  end.

End loaders.
End Api.

(* ================================================================== *)
(** ** [routes/slideshow.tsx] *)
(* ================================================================== *)

Module Slideshow.
Import JSNumber NodePath FS PhotoPath Auth Api.
Local Open Scope string_scope.

Definition image_extensions : list string := ["jpg"; "jpeg"; "png"; "gif"; "webp"].

Definition ends_with (suffix s : string) : bool :=
  let n := String.length s in
  let k := String.length suffix in
  (k <=? n)%nat && String.eqb (String.substring (n - k) k s) suffix.

(** [/\.(jpg|jpeg|png|gif|webp)$/i.test(name)] *)
Definition is_image (name : string) : bool :=
  existsb (λ ext, ends_with ("." ++ ext) (toLowerCase name)) image_extensions.

(** [images.sort()].  Without a comparator the elements are compared as
    strings, by their UTF-16 code units, and the sort is stable: elements
    that compare equal keep their order.  [insert_sorted] puts [x] before
    the first element that does not come before it. *)
Fixpoint insert_sorted (x : string) (sorted : list string) : list string :=
  match sorted with
  | [] => [x]
  | y :: rest =>
      if JSString.lt y x then y :: insert_sorted x rest
      else x :: y :: rest
  end.

Definition sort (images : list string) : list string :=
  foldr insert_sorted [] images.

(** The [for (const entry of entries)] loop of [scanDir]; [scanDir] is the
    function itself, for the recursive call. *)
Fixpoint scan_entries
    (scanDir : node → string → list string → outcome (list string))
    (relativePath : string) (entries : list (string * node))
    (images : list string) : outcome (list string) :=
  match entries with
  | [] => Return images
  | (name, entry) :: rest =>
      let relPath :=
        if decide (relativePath = "") then name
        else join relativePath name in
      match entry with
      | Dir _ _ =>
          match scanDir entry relPath images with
          | Return images => scan_entries scanDir relativePath rest images
          | Throw e => Throw e
          end
      | File _ _ | LockedFile _ =>
          if is_image name
          then scan_entries scanDir relativePath rest (images ++ [relPath])%list
          else scan_entries scanDir relativePath rest images
      | Other => scan_entries scanDir relativePath rest images
      end
  end.

(** [scanDir]: [dir] is the directory at [currentPath], its entry list what
    [fs.readdir(currentPath, { withFileTypes: true })] yields; [images] is
    the array the calls push onto. *)
Fixpoint scanDir (dir : node) (relativePath : string) (images : list string)
    : outcome (list string) :=
  match dir with
  | Dir true entries => scan_entries scanDir relativePath entries images
  | Dir false _ => Throw EACCES
  | _ => Throw ENOTDIR
  end.

Definition getAllImages (dirPath : string) : IO (list string) :=
  fs ← get_files;
  match locate fs dirPath with
  | Some dir =>
      images ← of_outcome (scanDir dir "" []);
      ret (sort images)
  | None => throw ENOENT
  end.

(** The closure [mulberry32(a)] returns is its captured variable [a]. *)
Record generator : Type := { gen_a : Z }.

Definition mulberry32 (a : Z) : generator := {| gen_a := a |}.

(** One call [rand()]: the call returns [k / 4294967296]; the uint32 [k]
    and the generator afterwards are given. *)
Definition rand (g : generator) : Z * generator :=
  let a := fadd (gen_a g) 1831565813 in
  let t := a in
  let t := imul (bxor t (ushr t 15)) (bor t 1) in
  let t := bxor t (fadd t (imul (bxor t (ushr t 7)) (bor t 61))) in
  (ushr (bxor t (ushr t 14)) 0, {| gen_a := a |}).

(** [[images[i], images[j]] = [images[j], images[i]]].  [None] stands for
    an index past the end of the array, where JavaScript would read
    [undefined] and grow the array. *)
Definition swap_elements (i j : nat) (images : list string)
    : option (list string) :=
  xj ← images !! j;
  xi ← images !! i;
  Some (<[j:=xi]> (<[i:=xj]> images)).

(** [for (let i = ...; i > 0; i--)], entered with the value [i]. *)
Fixpoint shuffle_loop (i : nat) (g : generator) (images : list string)
    : option (list string) :=
  match i with
  | O => Some images
  | S i' =>
      let '(k, g) := rand g in
      let j := Z.to_nat (floor_mul k (Z.of_nat i + 1)) in
      images ← swap_elements i j images;
      shuffle_loop i' g images
  end.

(** The body of [if (random && seedParam)] after [seed] is computed. *)
Definition seeded_shuffle (seed : Z) (images : list string)
    : option (list string) :=
  let rand := mulberry32 (ushr seed 0) in
  shuffle_loop (List.length images - 1) rand images.

Inductive LoaderResult : Type :=
| Data (images : list string) (currentPath baseDir : string) (random : bool)
| Redirect (seed : Z).

Section loader.
Context (P : Platform).

(** [randomParam] and [seedParam] are [url.searchParams.get] of ["random"]
    and ["seed"]; [fresh] is the value of
    [Math.floor(Math.random() * 0xffffffff)] should it be evaluated. *)
Definition loader (PHOTO_DIRS : option string) (args : LoaderArgs)
    (randomParam seedParam : option string) (fresh : Z) : IO LoaderResult :=
  let dirPath := strip_one_trailing_slash (splat args) in
  resolved ← resolvePhotoPath PHOTO_DIRS dirPath;
  let '(fullDirPath, baseDir) :=
    match resolved with
    | Some (Entry fullPath baseDir _) => (fullPath, baseDir)
    | Some (Root (first :: _)) => (first, first)
    | _ => ("", "")
    end in
  if decide (fullDirPath = "") then ret (Data [] dirPath "" false)
  else
    try_catch
      (images ← getAllImages fullDirPath;
       let random := bool_decide (randomParam = Some "true") in
       let seedGiven := match seedParam with
                        | Some (String _ _) => true
                        | _ => false
                        end in
       if random && negb seedGiven then ret (Redirect fresh)
       else if random && seedGiven then
         let seed := default 0%Z (seedParam ≫= string_to_number P) in
         ret (Data (default images (seeded_shuffle seed images)) dirPath baseDir random)
       else ret (Data images dirPath baseDir random))
      (λ _, ret (Data [] dirPath baseDir false)).

End loader.
End Slideshow.

(* ================================================================== *)
(** ** The notions the specification is worded in *)
(* ================================================================== *)

Module Spec.
Import JSNumber NodePath FS PhotoPath Auth Api Slideshow.
Local Open Scope string_scope.

(** *** Seeded Fisher-Yates *)

(** The generator the shuffle is specified with is mulberry32 on 32-bit
    unsigned words, seeded with the 32-bit seed: each call adds [0x6D2B79F5]
    to the state word and scrambles the new state,
    [z = (z ^ (z >> 15)) * (z | 1); z ^= z + (z ^ (z >> 7)) * (z | 61);
     return z ^ (z >> 14)], every operation modulo [2^32]. *)
Definition word (x : Z) : Z := (x mod 4294967296)%Z.

Definition increment : Z := 1831565813.

Definition mulberry32_output (z : Z) : Z :=
  let z := word (Z.lxor z (Z.shiftr z 15) * Z.lor z 1) in
  let z := Z.lxor z (word (z + word (Z.lxor z (Z.shiftr z 7) * Z.lor z 61))) in
  Z.lxor z (Z.shiftr z 14).

(** The state word after [n] calls, and the uint32 behind the value that
    call number [n] (counting from 0) returns: functions of the seed
    alone. *)
Definition state_word (seed32 : Z) (n : nat) : Z :=
  word (seed32 + Z.of_nat n * increment).

Definition draw (seed32 : Z) (n : nat) : Z :=
  mulberry32_output (state_word seed32 (S n)).

Definition draw_value (seed32 : Z) (n : nat) : Q := unit_fraction (draw seed32 n).

(** In JavaScript the state is a number, not a word: the additions are
    binary64 additions, exact as long as the sum stays below [2^53], and
    only the scrambling reduces it to 32 bits. *)
Definition accumulated (seed32 : Z) (n : nat) : Z :=
  Nat.iter n (λ a, fadd a increment) seed32.

Definition draw_binary64 (seed32 : Z) (n : nat) : Z :=
  mulberry32_output (word (accumulated seed32 (S n))).

Definition swap {A} (i j : nat) (l : list A) : list A :=
  match l !! i, l !! j with
  | Some x, Some y => <[j:=x]> (<[i:=y]> l)
  | _, _ => l
  end.

(** Fisher-Yates from index [i] down to 1; the step at index [i] swaps
    positions [i] and [pick n i], [n] counting the steps made so far. *)
Fixpoint fisher_yates_from {A} (pick : nat → nat → nat) (n i : nat)
    (l : list A) : list A :=
  match i with
  | O => l
  | S i' => fisher_yates_from pick (S n) i' (swap i (pick n i) l)
  end.

Definition fisher_yates {A} (pick : nat → nat → nat) (l : list A) : list A :=
  fisher_yates_from pick 0 (List.length l - 1) l.

(** [floor(draw * (index + 1))], state and product taken in binary64 ... *)
Definition pick_binary64 (seed32 : Z) (n i : nat) : nat :=
  Z.to_nat (floor_mul (draw_binary64 seed32 n) (Z.of_nat i + 1)).

(** ... and with the state a 32-bit word and the product the exact
    rational. *)
Definition pick_exact (seed32 : Z) (n i : nat) : nat :=
  Z.to_nat (Qfloor (draw_value seed32 n * inject_Z (Z.of_nat i + 1))).

(** [l] without the item [x]. *)
Definition remove_item (x : string) (l : list string) : list string :=
  List.filter (λ y, negb (String.eqb y x)) l.

(** *** Paths *)

(** The first segment of a logical path, and the remaining segments joined
    again. *)
Definition first_segment (logicalPath : string) : string :=
  List.hd "" (split_on slash logicalPath).

Definition remaining_segments (logicalPath : string) : string :=
  join_with "/" (List.tl (split_on slash logicalPath)).

(** The alias of a library is the base name of its root. *)
Definition alias (root : string) : string := basename root.

(** A segment that normalization keeps as it is. *)
Definition plain (seg : string) : Prop := seg ≠ "" ∧ seg ≠ "." ∧ seg ≠ "..".

(** [k] times [".."]. *)
Definition dotdots (k : nat) : list string := replicate k "..".

(** A relative path normalized on its own: some [".."], one for each
    level it climbs above the directory it starts from, then plain
    segments. *)
Definition normal_form (rel : string) : list string :=
  normalize_segments true (split_on slash rel).

(** What the normalization stack always looks like: some plain segments
    on top of some [".."], the latter only when going above the root is
    allowed. *)
Definition normal_stack (allow : bool) (stack : list string) : Prop :=
  ∃ top k, stack = (top ++ dotdots k)%list ∧ Forall plain top
           ∧ (allow = false → k = 0%nat).

(** *** Directory trees *)

(** A name a directory entry can have. *)
Definition valid_name (name : string) : bool :=
  negb (String.eqb name "") && negb (String.eqb name ".")
  && negb (String.eqb name "..") && no_slash name.

(** Every entry of the tree has a valid name, and no directory lists a name
    twice. *)
Fixpoint wellformed (n : node) : bool :=
  match n with
  | Dir _ entries =>
      forallb (λ e, valid_name e.1 && wellformed e.2) entries
      && bool_decide (NoDup (entries.*1))
  | _ => true
  end.

(** Every directory of the tree can be read. *)
Fixpoint all_readable (n : node) : bool :=
  match n with
  | Dir readable entries =>
      readable && forallb (λ e, all_readable e.2) entries
  | _ => true
  end.

(** Some directory strictly below the top directory cannot be read. *)
Inductive unreadable_below : node → Prop :=
| ub_child readable entries name entries' :
    (name, Dir false entries') ∈ entries →
    unreadable_below (Dir readable entries)
| ub_deeper readable entries name entries' :
    (name, Dir true entries') ∈ entries →
    unreadable_below (Dir true entries') →
    unreadable_below (Dir readable entries).

(** The name ends in a dot and an extension of the allow-list, letter case
    ignored. *)
Definition has_image_extension (name : string) : Prop :=
  ∃ stem ext, ext ∈ image_extensions ∧ toLowerCase name = stem ++ "." ++ ext.

(** [segments] is the path, relative to the directory, of a regular file
    with an image extension somewhere in the tree. *)
Inductive image_at : node → list string → Prop :=
| image_here readable entries name entry :
    (name, entry) ∈ entries →
    is_regular entry = true →
    has_image_extension name →
    image_at (Dir readable entries) [name]
| image_below readable entries name readable' entries' segments :
    (name, Dir readable' entries') ∈ entries →
    image_at (Dir readable' entries') segments →
    image_at (Dir readable entries) (name :: segments).

(** The paths of all image files of a tree, directory by directory in
    listing order. *)
Fixpoint image_paths (n : node) : list (list string) :=
  match n with
  | Dir _ entries =>
      flat_map (λ e, match e.2 with
                     | Dir _ _ => map (cons e.1) (image_paths e.2)
                     | File _ _ | LockedFile _ =>
                         if is_image e.1 then [[e.1]] else []
                     | Other => []
                     end) entries
  | _ => []
  end.

(** What one directory entry contributes to [image_paths]. *)
Definition entry_paths (e : string * node) : list (list string) :=
  match e.2 with
  | Dir _ _ => map (cons e.1) (image_paths e.2)
  | File _ _ | LockedFile _ => if is_image e.1 then [[e.1]] else []
  | Other => []
  end.

(** The string of a path below the directory at [pre]. *)
Definition render (pre segments : list string) : string :=
  join_with "/" (pre ++ segments).

(** The scan of a readable, well-formed directory appends the strings of
    its [image_paths] to the array. *)
Definition scan_correct (n : node) : Prop :=
  ∀ pre images,
    Forall (λ seg, valid_name seg = true) pre →
    wellformed n = true → all_readable n = true →
    match n with
    | Dir _ _ =>
        scanDir n (join_with "/" pre) images
        = Return (images ++ map (render pre) (image_paths n))%list
    | _ => True
    end.

End Spec.

(* ================================================================== *)
(** ** A small installation used in the examples *)
(* ================================================================== *)

Module Examples.
Import NodePath FS PhotoPath Auth Api Slideshow.
Local Open Scope string_scope.

(** [/photos] holds the images of the specification's listing example,
    [/album] an image next to a folder that cannot be read, [/etc/passwd]
    is a file outside every library. *)
Definition example_tree : node :=
  Dir true
    [("photos",
      Dir true [("b.png", File 1700000000000 "png bytes");
                ("a.JPG", File 1700000000001 "jpeg bytes");
                ("sub", Dir true [("c.webp", File 1700000000002 "webp bytes")]);
                ("notes.txt", File 1700000000003 "text")]);
     ("album",
      Dir true [("a.jpg", File 1700000000004 "jpeg bytes");
                ("locked", Dir false [("hidden.jpg", File 1700000000005 "jpeg bytes")])]);
     ("etc", Dir true [("passwd", File 0 "root:x:0:0")])].

Definition example_fs : filesystem :=
  {| fs_root := example_tree; fs_cwd := "/srv/app" |}.

Definition example_world : world := {| files := example_fs; calls := [] |}.

(** A platform whose cookie parser accepts every header as its value and
    whose image pipeline always fails. *)
Definition example_platform : Platform :=
  {| cookie_parse := λ header, Return (Some header);
     md5_hex := λ _, "d41d8cd98f00b204e9800998ecf8427e";
     number_to_string := λ _, "0";
     string_to_number := λ _, Some 0%Z;
     sharp_toFile := λ _ _ _, Throw CodecError |}.

(** A request without a cookie. *)
Definition anonymous : Request := {| cookie_header := None |}.

Definition request_for (path : string) : LoaderArgs :=
  {| request := anonymous; splat := path |}.

End Examples.

Import JSNumber NodePath FS PhotoPath Auth Api Slideshow Spec Examples.

(* ================================================================== *)
(** ** More of Node's [path] and [fs], and of JavaScript's arrays *)
(* ================================================================== *)

Module NodeMore.
Import NodePath FS.
Local Open Scope string_scope.

(** The loop of [path.dirname]: [chars] are the characters at the indices
    [i], [i - 1], ..., 1, in this order; the answer is the index [end]. *)
Fixpoint dirname_end (chars : list ascii) (i : nat) (matchedSlash : bool)
    : option nat :=
  match chars with
  | [] => None
  | c :: rest =>
      if Ascii.eqb c slash then
        (if matchedSlash then dirname_end rest (i - 1) true else Some i)
      else dirname_end rest (i - 1) false
  end.

(** [path.dirname(p)] *)
Definition dirname (p : string) : string :=
  match p with
  | EmptyString => "."
  | String first rest =>
      let hasRoot := Ascii.eqb first slash in
      match dirname_end (rev (list_ascii_of_string rest)) (String.length rest) true with
      | None => if hasRoot then "/" else "."
      | Some e =>
          if hasRoot && (e =? 1)%nat then "//" else String.substring 0 e p
      end
  end.

(** [await fs.readdir(p, { withFileTypes: true })]; like the scan's
    [readdir], it leaves no entry in the call log. *)
Definition fs_readdir (p : string) : IO (list (string * node)) :=
  fs ← get_files;
  match locate fs p with
  | Some (Dir true entries) => ret entries
  | Some (Dir false _) => throw EACCES
  | Some _ => throw ENOTDIR
  | None => throw ENOENT
  end.

(** Removing the entry [name] from a directory, as [unlink] does: a
    directory is refused. *)
Fixpoint remove_entry (name : string) (entries : list (string * node))
    : outcome (list (string * node)) :=
  match entries with
  | [] => Throw ENOENT
  | (n, child) :: rest =>
      if String.eqb n name then
        match child with
        | Dir _ _ => Throw EISDIR
        | _ => Return rest
        end
      else
        match remove_entry name rest with
        | Return rest' => Return ((n, child) :: rest')
        | Throw e => Throw e
        end
  end.

Fixpoint replace_entry (name : string) (child' : node)
    (entries : list (string * node)) : list (string * node) :=
  match entries with
  | [] => []
  | (n, child) :: rest =>
      if String.eqb n name then (n, child') :: rest
      else (n, child) :: replace_entry name child' rest
  end.

(** The tree without the file at [segs]. *)
Fixpoint unlink_at (segs : list string) (n : node) : outcome node :=
  match n with
  | Dir readable entries =>
      match segs with
      | [] => Throw EISDIR
      | [name] =>
          match remove_entry name entries with
          | Return entries' => Return (Dir readable entries')
          | Throw e => Throw e
          end
      | name :: rest =>
          match lookup_entry name entries with
          | Some child =>
              match unlink_at rest child with
              | Return child' => Return (Dir readable (replace_entry name child' entries))
              | Throw e => Throw e
              end
          | None => Throw ENOENT
          end
      end
  | _ => Throw ENOTDIR
  end.

(** [await fs.unlink(p)]; not among the logged calls. *)
Definition fs_unlink (p : string) : IO unit :=
  fs ← get_files;
  if decide (p = "") then throw ENOENT
  else
    let abs := if starts_with_slash p then p else fs_cwd fs ++ "/" ++ p in
    match unlink_at (canonical abs).2 (fs_root fs) with
    | Return root' => put_files {| fs_root := root'; fs_cwd := fs_cwd fs |}
    | Throw e => throw e
    end.

(** [array[index]] for an integer index: [undefined] is [None]. *)
Definition js_index {A} (array : list A) (index : Z) : option A :=
  if (index <? 0)%Z then None else array !! Z.to_nat index.

(** [array.indexOf(x)] *)
Fixpoint indexOf (x : string) (array : list string) : Z :=
  match array with
  | [] => -1
  | y :: rest =>
      if String.eqb y x then 0
      else match indexOf x rest with
           | Z.neg _ => -1
           | k => k + 1
           end
  end%Z.

(** A value spliced into a template string. *)
Definition spliced (value : option string) : string := default "undefined" value.

(** [s.substring(0, s.lastIndexOf("/")) || ""]: what precedes the last
    slash, empty when there is no slash. *)
Fixpoint before_last_slash (s : string) : string :=
  match s with
  | EmptyString => EmptyString
  | String x s' =>
      if no_slash s' then EmptyString
      else String x (before_last_slash s')
  end.

(** The segments, from the root of the tree, of the node a path names. *)
Definition segments_of (fs : filesystem) (p : string) : list string :=
  (canonical (if starts_with_slash p then p else fs_cwd fs ++ "/" ++ p)).2.

Definition is_directory (n : node) : bool :=
  match n with
  | Dir _ _ => true
  | _ => false
  end.

End NodeMore.

(* ================================================================== *)
(** ** [routes/photos.tsx]: the folder view *)
(* ================================================================== *)

Module Browse.
Import NodePath FS PhotoPath Api Slideshow NodeMore.
Local Open Scope string_scope.

Inductive ItemType : Type := ItemDir | ItemFile.

Record Item : Type := { item_name : string; item_type : ItemType }.

(** [isRoot] is [None] where the returned object has no such property. *)
Record BrowseData : Type := {
  items : list Item;
  currentPath : string;
  baseDir : string;
  isRoot : option bool;
}.

(** The [for (const entry of entries)] loop with its two arrays. *)
Fixpoint classify (entries : list (string * node)) (dirs files : list string)
    : list string * list string :=
  match entries with
  | [] => (dirs, files)
  | (name, entry) :: rest =>
      match entry with
      | Dir _ _ => classify rest (dirs ++ [name])%list files
      | File _ _ | LockedFile _ =>
          if is_image name then classify rest dirs (files ++ [name])%list
          else classify rest dirs files
      | Other => classify rest dirs files
      end
  end.

Definition loader (PHOTO_DIRS : option string) (args : LoaderArgs)
    : IO BrowseData :=
  let currentPath := strip_one_trailing_slash (splat args) in
  resolved ← resolvePhotoPath PHOTO_DIRS currentPath;
  match resolved with
  | Some (Entry fullPath baseDir _) =>
      try_catch
        (entries ← fs_readdir fullPath;
         let '(dirs, files) := classify entries [] [] in
         ret {| items := (map (λ name, {| item_name := name; item_type := ItemDir |}) dirs
                          ++ map (λ name, {| item_name := name; item_type := ItemFile |}) files)%list;
                currentPath := currentPath; baseDir := baseDir; isRoot := None |})
        (λ _, ret {| items := []; currentPath := currentPath;
                     baseDir := baseDir; isRoot := None |})
  | _ =>
      let photoDirs := configured_dirs PHOTO_DIRS in
      ret {| items := map (λ dir, {| item_name := basename dir; item_type := ItemDir |}) photoDirs;
             currentPath := ""; baseDir := ""; isRoot := Some true |}
  end.

End Browse.

(* ================================================================== *)
(** ** [routes/photo-view.tsx]: the single-image view *)
(* ================================================================== *)

Module PhotoView.
Import NodePath FS PhotoPath Api Slideshow NodeMore.
Local Open Scope string_scope.

Record ViewData : Type := {
  images : list string;
  currentIndex : Z;
  currentPath : string;
  baseDir : string;
}.

(** The names of the regular files with an image extension, in listing
    order: [entries.filter(...).map((entry) => entry.name)]. *)
Definition image_names (entries : list (string * node)) : list string :=
  map fst
    (List.filter (λ e, is_regular e.2 && is_image e.1) entries).

Definition loader (PHOTO_DIRS : option string) (args : LoaderArgs)
    : IO ViewData :=
  let filePath := splat args in
  resolved ← resolvePhotoPath PHOTO_DIRS filePath;
  match resolved with
  | Some (Entry fullPath baseDir _) =>
      let dirPath := dirname fullPath in
      let fileName := basename fullPath in
      try_catch
        (entries ← fs_readdir dirPath;
         let images := sort (image_names entries) in
         let currentIndex := indexOf fileName images in
         ret {| images := images; currentIndex := currentIndex;
                currentPath := filePath; baseDir := baseDir |})
        (λ _, ret {| images := []; currentIndex := -1;
                     currentPath := filePath; baseDir := baseDir |})
  | _ => ret {| images := []; currentIndex := -1;
                currentPath := filePath; baseDir := "" |}
  end.

(** What an action returns: [null], [{ ok: true }],
    [{ error: "Delete failed" }], or a redirect. *)
Inductive ActionResult : Type :=
| ActionNull
| ActionOk
| ActionError (message : string)
| ActionRedirect (url : string).

(** [intent] and [nextUrl] are [formData.get] of these fields, [None] for
    [null]. *)
Definition action (PHOTO_DIRS : option string) (args : LoaderArgs)
    (intent nextUrl : option string) : IO ActionResult :=
  if decide (intent = Some "delete") then
    let filePath := splat args in
    resolved ← resolvePhotoPath PHOTO_DIRS filePath;
    match resolved with
    | Some (Entry fullPath _ _) =>
        try_catch
          (fs_unlink fullPath;;
           match nextUrl with
           | Some (String c url) => ret (ActionRedirect (String c url))
           | _ => ret ActionOk
           end)
          (λ _, ret (ActionError "Delete failed"))
    | _ => ret ActionNull
    end
  else ret ActionNull.

(** The component's navigation, from the loader's data. *)
Definition prevIndex (currentIndex length : Z) : Z :=
  if (currentIndex >? 0)%Z then (currentIndex - 1)%Z else (length - 1)%Z.

Definition nextIndex (currentIndex length : Z) : Z :=
  if (currentIndex <? length - 1)%Z then (currentIndex + 1)%Z else 0%Z.

Definition dirPath (currentPath : string) : string :=
  before_last_slash currentPath.

(** [`/photos/view/${dirPath ? `${dirPath}/${image}` : image}`] *)
Definition viewUrl (currentPath : string) (image : option string) : string :=
  let dir := dirPath currentPath in
  "/photos/view/"
  ++ (if decide (dir = "") then spliced image else dir ++ "/" ++ spliced image).

Definition prevUrl (data : ViewData) : string :=
  viewUrl (currentPath data)
    (js_index (images data)
       (prevIndex (currentIndex data) (Z.of_nat (List.length (images data))))).

Definition nextUrl (data : ViewData) : string :=
  viewUrl (currentPath data)
    (js_index (images data)
       (nextIndex (currentIndex data) (Z.of_nat (List.length (images data))))).

Definition closeUrl (data : ViewData) : string :=
  "/photos/" ++ dirPath (currentPath data).

(** The [nextUrl] field [handleDelete] submits. *)
Definition deleteNextUrl (data : ViewData) : string :=
  if (Z.of_nat (List.length (images data)) >? 1)%Z then nextUrl data
  else closeUrl data.

End PhotoView.

(* ================================================================== *)
(** ** [routes/slideshow.tsx]: the action and the component's index *)
(* ================================================================== *)

Module SlideshowView.
Import NodePath FS PhotoPath Api Slideshow NodeMore.
Local Open Scope string_scope.

(** [intent] and [filePath] are [formData.get] of these fields. *)
Definition action (PHOTO_DIRS : option string) (intent filePath : option string)
    : IO PhotoView.ActionResult :=
  match filePath with
  | Some (String c rest) =>
      if decide (intent = Some "delete") then
        resolved ← resolvePhotoPath PHOTO_DIRS (String c rest);
        match resolved with
        | Some (Entry fullPath _ _) =>
            try_catch
              (fs_unlink fullPath;; ret PhotoView.ActionOk)
              (λ _, ret (PhotoView.ActionError "Delete failed"))
        | _ => ret PhotoView.ActionNull
        end
      else ret PhotoView.ActionNull
  | _ => ret PhotoView.ActionNull
  end.

(** The updates of [currentIndex]: the arrow keys and buttons, the timer,
    [Home] and [End], and the effect that runs when the list changes. *)
Definition onPrev (prev length : Z) : Z :=
  if (prev >? 0)%Z then (prev - 1)%Z else (length - 1)%Z.

Definition onNext (prev length : Z) : Z :=
  if (prev <? length - 1)%Z then (prev + 1)%Z else 0%Z.

Definition onHome : Z := 0.

Definition onEnd (length : Z) : Z := (length - 1)%Z.

Definition clampIndex (currentIndex length : Z) : Z :=
  if (currentIndex >=? length)%Z && (length >? 0)%Z
  then Z.max 0 (length - 1)
  else currentIndex.

(** The [filePath] field [handleDelete] submits. *)
Definition deletePath (currentPath : string) (currentImage : option string)
    : string :=
  if decide (currentPath = "") then spliced currentImage
  else currentPath ++ "/" ++ spliced currentImage.

End SlideshowView.

(* ================================================================== *)
(** ** [routes/login.tsx] *)
(* ================================================================== *)

Module Login.
Import FS Auth.
Local Open Scope string_scope.

Inductive LoginResult : Type :=
| LoginNull
| LoginError (message : string)
| LoginRedirect (setCookie : option string).

(** [redirect("/")] when the cookie already parses to ["1"]. *)
Definition loader (P : Platform) (request : Request) : LoginResult :=
  let cookie := default "" (cookie_header request) in
  match cookie_parse P cookie with
  | Return val =>
      if decide (val = Some "1") then LoginRedirect None else LoginNull
  | Throw _ => LoginNull
  end.

(** [password] is [form.get("password")], [SITE_PASSWORD] the environment
    variable, [serialize] the library's [authCookie.serialize]. *)
Definition action (serialize : string → string)
    (SITE_PASSWORD password : option string) : LoginResult :=
  let expected := default "" SITE_PASSWORD in
  if decide (expected = "") then LoginError "No password configured on server"
  else if decide (password = Some expected)
  then LoginRedirect (Some (serialize "1"))
  else LoginError "Invalid password".

End Login.

(* ================================================================== *)
(** ** The file loader without the authentication test *)
(* ================================================================== *)

Module OpenApi.
Import NodePath FS PhotoPath Api.
Local Open Scope string_scope.

Definition loader (PHOTO_DIRS : option string) (args : LoaderArgs)
    : IO Response :=
  let filePath := splat args in
  resolved ← resolvePhotoPath PHOTO_DIRS filePath;
  let notFound := ret (text_response "File not found" 404) in
  match resolved with
  | Some (Entry fullPath _ _) =>
      try_catch
        (stat ← fs_stat fullPath;
         if isFile stat then
           fileContent ← fs_readFile fullPath;
           let ext := toLowerCase (extname fullPath) in
           let mimeType := getMimeType ext in
           ret (file_response fileContent mimeType)
         else notFound)
        (λ _, notFound)
  | _ => notFound
  end.

End OpenApi.

(* ================================================================== *)
(** ** An installation with a thumbnail in its cache *)
(* ================================================================== *)

Module MoreExamples.
Import NodePath FS PhotoPath Auth Api Slideshow Examples.
Local Open Scope string_scope.

Definition thumbnail_name : string := "d41d8cd98f00b204e9800998ecf8427e.webp".

(** The example tree with [/srv/app/.cache/thumbnails] holding one
    thumbnail. *)
Definition cached_tree : node :=
  match example_tree with
  | Dir readable entries =>
      Dir readable
        (entries ++
         [("srv", Dir true [("app", Dir true [(".cache", Dir true
            [("thumbnails", Dir true
               [(thumbnail_name, File 1700000000009 "thumbnail bytes")])])])])])
  | other => other
  end.

Definition cached_fs : filesystem :=
  {| fs_root := cached_tree; fs_cwd := "/srv/app" |}.

Definition cached_world : world := {| files := cached_fs; calls := [] |}.

(** A platform whose image pipeline leaves the thumbnail above behind. *)
Definition generating_platform : Platform :=
  {| cookie_parse := cookie_parse example_platform;
     md5_hex := md5_hex example_platform;
     number_to_string := number_to_string example_platform;
     string_to_number := string_to_number example_platform;
     sharp_toFile := λ _ _ _, Return cached_fs |}.

End MoreExamples.

(* ================================================================== *)
(** ** Facts about the number operations *)
(* ================================================================== *)

Section number_facts.
Local Open Scope Z_scope.

Lemma toUint32_range x : 0 ≤ toUint32 x < two32.
Proof. unfold toUint32, two32. apply Z.mod_pos_bound. lia. Qed.

Lemma ushr_0 x : ushr x 0 = toUint32 x.
Proof. unfold ushr. rewrite Z.mod_0_l by lia. apply Z.shiftr_0_r. Qed.

Lemma ushr_range x n : 0 ≤ ushr x n < two32.
Proof.
  unfold ushr.
  pose proof (toUint32_range x) as Hx.
  assert (0 ≤ n mod 32) as Hn by (apply Z.mod_pos_bound; lia).
  rewrite Z.shiftr_div_pow2 by done.
  assert (0 < 2 ^ (n mod 32)) as Hp by (apply Z.pow_pos_nonneg; lia).
  split.
  - apply Z.div_pos; lia.
  - apply Z.div_lt_upper_bound; [done|]. nia.
Qed.

Lemma round53_small m : Z.abs m < 2 ^ 53 → round53 m = m.
Proof.
  intros Hm. unfold round53.
  destruct (Z.leb_spec (Z.log2 (Z.abs m) - 52) 0) as [|Hs]; [done|].
  exfalso.
  assert (0 < Z.abs m) as Hpos.
  { destruct (Z.eq_dec (Z.abs m) 0) as [E|]; [rewrite E in Hs; cbn in Hs; lia|lia]. }
  pose proof (Z.log2_lt_pow2 (Z.abs m) 53 Hpos) as [Hlt _].
  specialize (Hlt Hm). lia.
Qed.

Lemma round53_bounds m :
  0 ≤ m → 0 ≤ round53 m ∧ 2 ^ 53 * round53 m ≤ (2 ^ 53 + 1) * m.
Proof.
  intros Hm. unfold round53.
  rewrite (Z.abs_eq m) by done.
  destruct (Z.leb_spec (Z.log2 m - 52) 0) as [|Hs]; [lia|].
  set (s := Z.log2 m - 52) in *.
  assert (0 < m) as Hpos.
  { destruct (Z.eq_dec m 0) as [E|]; [subst m; subst s; cbn in Hs; lia|lia]. }
  rewrite (Z.sgn_pos m) by done.
  rewrite Z.mul_1_l.
  pose proof (Z.log2_spec m Hpos) as [Hlo Hhi].
  replace (Z.log2 m) with (s + 52) in Hlo by lia.
  rewrite Z.pow_add_r in Hlo by lia.
  rewrite Z.shiftr_div_pow2, Z.land_ones, !Z.shiftl_mul_pow2 by lia.
  assert (0 < 2 ^ s) as Hps by (apply Z.pow_pos_nonneg; lia).
  assert (2 ^ s = 2 * 2 ^ (s - 1)) as Hhalf.
  { replace s with (1 + (s - 1)) at 1 by lia. rewrite Z.pow_add_r by lia. done. }
  pose proof (Z.div_mod m (2 ^ s) ltac:(lia)) as Hdm.
  pose proof (Z.mod_pos_bound m (2 ^ s) Hps) as Hr.
  assert (0 ≤ m / 2 ^ s) as Hq by (apply Z.div_pos; lia).
  set (q := m / 2 ^ s) in *. set (r := m mod 2 ^ s) in *.
  set (h := 2 ^ (s - 1)) in *.
  assert (2 ^ 52 * (2 * h) ≤ m) as Hlo' by lia.
  change (2 ^ 52) with 4503599627370496 in *.
  change (2 ^ 53) with 9007199254740992.
  rewrite Z.mul_1_l.
  repeat case_match; split; try nia.
  all: repeat match goal with
       | H : (_ <? _) = false |- _ => apply Z.ltb_ge in H
       | H : (_ <? _) = true |- _ => apply Z.ltb_lt in H
       end; nia.
Qed.

Lemma floor_mul_range k n : 0 ≤ k < two32 → 0 < n → 0 ≤ floor_mul k n < n.
Proof.
  intros Hk Hn. unfold floor_mul, two32 in *.
  destruct (round53_bounds (k * n)) as [H0 Hup]; [nia|].
  change (2 ^ 53) with 9007199254740992 in Hup.
  split.
  - apply Z.div_pos; lia.
  - apply Z.div_lt_upper_bound; [lia|]. nia.
Qed.

Lemma floor_mul_exact k n :
  0 ≤ k * n < 2 ^ 53 →
  floor_mul k n = Qfloor (unit_fraction k * inject_Z n).
Proof.
  intros Hkn. unfold floor_mul. rewrite round53_small by lia.
  unfold unit_fraction, inject_Z, Qmult, Qfloor. simpl Qnum. simpl Qden.
  rewrite Pos.mul_1_r. done.
Qed.
End number_facts.

(* ================================================================== *)
(** ** The seeded shuffle *)
(* ================================================================== *)

Section word_facts.
Local Open Scope Z_scope.

Lemma word_land x : word x = Z.land x (Z.ones 32).
Proof. unfold word. change 4294967296 with (2 ^ 32). by rewrite Z.land_ones. Qed.

Lemma word_range x : 0 ≤ word x < two32.
Proof. unfold word, two32. apply Z.mod_pos_bound. lia. Qed.

Lemma word_small x : 0 ≤ x < two32 → word x = x.
Proof. unfold word, two32. intros Hx. by apply Z.mod_small. Qed.

Lemma word_idemp x : word (word x) = word x.
Proof. apply word_small, word_range. Qed.

Lemma word_lxor u v : word (Z.lxor u v) = Z.lxor (word u) (word v).
Proof.
  rewrite !word_land. apply Z.bits_inj'. intros n _.
  rewrite !Z.land_spec, !Z.lxor_spec, !Z.land_spec.
  by destruct (Z.testbit (Z.ones 32) n), (Z.testbit u n), (Z.testbit v n).
Qed.

Lemma word_lor u v : word (Z.lor u v) = Z.lor (word u) (word v).
Proof.
  rewrite !word_land. apply Z.bits_inj'. intros n _.
  rewrite !Z.land_spec, !Z.lor_spec, !Z.land_spec.
  by destruct (Z.testbit (Z.ones 32) n), (Z.testbit u n), (Z.testbit v n).
Qed.

Lemma word_mul u v : word (u * v) = word (word u * word v).
Proof. unfold word. by rewrite Z.mul_mod by lia. Qed.

Lemma word_add u v : word (u + v) = word (word u + word v).
Proof. unfold word. by rewrite Z.add_mod by lia. Qed.

Lemma word_toInt32 x : word (toInt32 x) = word x.
Proof.
  unfold word, toInt32, two32.
  rewrite Zminus_mod_idemp_l. f_equal. lia.
Qed.

Lemma toInt32_range x : -2147483648 ≤ toInt32 x < 2147483648.
Proof.
  unfold toInt32, two32.
  pose proof (Z.mod_pos_bound (x + 2147483648) 4294967296). lia.
Qed.

Lemma word_shiftr x k : 0 ≤ k → word (Z.shiftr (word x) k) = Z.shiftr (word x) k.
Proof.
  intros Hk. apply word_small. pose proof (word_range x) as Hx.
  rewrite Z.shiftr_div_pow2 by done. split.
  - apply Z.div_pos; lia.
  - apply Z.le_lt_trans with (word x); [|lia].
    apply Z.div_le_upper_bound; [lia|]. 
    pose proof (Z.pow_pos_nonneg 2 k). nia.
Qed.

(** The JavaScript operations, seen on the low 32 bits. *)
Lemma word_bxor x y : word (bxor x y) = Z.lxor (word x) (word y).
Proof. unfold bxor. by rewrite word_lxor, !word_toInt32. Qed.

Lemma word_bor x y : word (bor x y) = Z.lor (word x) (word y).
Proof. unfold bor. by rewrite word_lor, !word_toInt32. Qed.

Lemma word_imul x y : word (imul x y) = word (word x * word y).
Proof. unfold imul. by rewrite word_toInt32, word_mul, !word_toInt32. Qed.

Lemma ushr_word x k : 0 ≤ k < 32 → ushr x k = Z.shiftr (word x) k.
Proof. intros Hk. unfold ushr. by rewrite Z.mod_small. Qed.

Lemma word_ushr x k : word (ushr x k) = ushr x k.
Proof. apply word_small, ushr_range. Qed.

Lemma imul_range x y : -2147483648 ≤ imul x y < 2147483648.
Proof. apply toInt32_range. Qed.

Lemma fadd_int32 x y :
  -2147483648 ≤ x < 2147483648 → -2147483648 ≤ y < 2147483648 →
  fadd x y = x + y.
Proof.
  intros Hx Hy. unfold fadd. apply round53_small.
  change (2 ^ 53) with 9007199254740992. lia.
Qed.

(** The scrambling of the code, on the low 32 bits of its steps. *)
Lemma scramble_first t :
  word (imul (bxor t (ushr t 15)) (bor t 1))
  = word (Z.lxor (word t) (Z.shiftr (word t) 15) * Z.lor (word t) 1).
Proof.
  rewrite word_imul, word_bxor, word_bor, word_ushr, (ushr_word t 15) by lia.
  reflexivity.
Qed.

Lemma scramble_second t :
  -2147483648 ≤ t < 2147483648 →
  word (bxor t (fadd t (imul (bxor t (ushr t 7)) (bor t 61))))
  = Z.lxor (word t)
      (word (word t + word (Z.lxor (word t) (Z.shiftr (word t) 7) * Z.lor (word t) 61))).
Proof.
  intros Ht. rewrite word_bxor.
  rewrite fadd_int32 by (done || apply imul_range).
  rewrite word_add, word_imul, word_bxor, word_bor, word_ushr,
    (ushr_word t 7) by lia.
  reflexivity.
Qed.

(** One call of the generator returns the output of mulberry32 for the
    low 32 bits of the incremented state. *)
Lemma rand_output a :
  rand {| gen_a := a |}
  = (mulberry32_output (word (fadd a increment)),
     {| gen_a := fadd a increment |}).
Proof.
  unfold rand. cbn [gen_a]. change 1831565813 with increment.
  generalize (fadd a increment). clear a. intros a. f_equal.
  rewrite ushr_0. change (toUint32 ?x) with (word x).
  rewrite word_bxor, word_ushr, (ushr_word _ 14) by lia.
  rewrite scramble_second by apply imul_range.
  rewrite scramble_first. reflexivity.
Qed.

Lemma mulberry32_output_range z : 0 ≤ mulberry32_output z < two32.
Proof.
  unfold mulberry32_output.
  set (z1 := word _). set (z2 := Z.lxor z1 _).
  assert (word z2 = z2) as Hz2.
  { unfold z2, z1. rewrite word_lxor, !word_idemp. reflexivity. }
  assert (word (Z.lxor z2 (Z.shiftr z2 14)) = Z.lxor z2 (Z.shiftr z2 14)) as <-.
  { rewrite word_lxor, Hz2. f_equal. rewrite <- Hz2. apply word_shiftr. lia. }
  apply word_range.
Qed.

Lemma accumulated_succ seed32 n :
  accumulated seed32 (S n) = fadd (accumulated seed32 n) increment.
Proof. reflexivity. Qed.

(** Up to [2^21] calls the additions are exact. *)
Lemma accumulated_exact seed32 n :
  0 ≤ seed32 < two32 → Z.of_nat n ≤ 2 ^ 21 →
  accumulated seed32 n = seed32 + Z.of_nat n * increment.
Proof.
  intros Hseed. unfold two32 in Hseed. change (2 ^ 21) with 2097152.
  induction n as [|n IH]; intros Hn.
  - change (accumulated seed32 0) with seed32. lia.
  - rewrite accumulated_succ, IH by lia. unfold fadd, increment.
    rewrite round53_small; [lia|].
    change (2 ^ 53) with 9007199254740992. lia.
Qed.

Lemma draw_binary64_exact seed32 n :
  0 ≤ seed32 < two32 → Z.of_nat n < 2 ^ 21 →
  draw_binary64 seed32 n = draw seed32 n.
Proof.
  intros Hseed Hn. unfold draw_binary64, draw, state_word.
  by rewrite accumulated_exact by (done || lia).
Qed.
End word_facts.

Section shuffle_facts.
Local Open Scope Z_scope.

Lemma rand_range g : 0 ≤ (rand g).1 < two32.
Proof. unfold rand. cbn [fst]. apply ushr_range. Qed.

Lemma unit_fraction_range k :
  0 ≤ k < two32 → (0 <= unit_fraction k)%Q ∧ (unit_fraction k < 1)%Q.
Proof.
  intros Hk. unfold unit_fraction, Qle, Qlt, two32 in *. cbn. lia.
Qed.

Lemma swap_index_range g (i : nat) :
  0 ≤ floor_mul (rand g).1 (Z.of_nat i + 1) ≤ Z.of_nat i.
Proof.
  pose proof (floor_mul_range (rand g).1 (Z.of_nat i + 1) (rand_range g)). lia.
Qed.

Lemma rand_accumulated seed32 n :
  rand {| gen_a := accumulated seed32 n |}
  = (draw_binary64 seed32 n, {| gen_a := accumulated seed32 (S n) |}).
Proof. by rewrite rand_output. Qed.

Lemma pick_binary64_le seed32 n i : (pick_binary64 seed32 n i ≤ i)%nat.
Proof.
  unfold pick_binary64.
  pose proof (floor_mul_range (draw_binary64 seed32 n) (Z.of_nat i + 1)
                (mulberry32_output_range _)). lia.
Qed.

Lemma swap_elements_in_range (i j : nat) (images : list string) :
  (i < List.length images)%nat → (j < List.length images)%nat →
  swap_elements i j images = Some (swap i j images).
Proof.
  intros Hi Hj. unfold swap_elements, swap.
  destruct (lookup_lt_is_Some_2 images i Hi) as [xi ->].
  destruct (lookup_lt_is_Some_2 images j Hj) as [xj ->].
  done.
Qed.

Lemma length_swap {A} (i j : nat) (l : list A) :
  List.length (swap i j l) = List.length l.
Proof. unfold swap. repeat case_match; by rewrite ?length_insert. Qed.

Lemma shuffle_loop_fisher_yates seed32 (i n : nat) (images : list string) :
  (i < List.length images ∨ i = 0)%nat →
  shuffle_loop i {| gen_a := accumulated seed32 n |} images
  = Some (fisher_yates_from (pick_binary64 seed32) n i images).
Proof.
  revert n images. induction i as [|i IH]; intros n images Hi; [reflexivity|].
  destruct Hi as [Hi|Hi]; [|discriminate Hi].
  cbn [shuffle_loop fisher_yates_from].
  rewrite rand_accumulated.
  pose proof (pick_binary64_le seed32 n (S i)) as Hj.
  set (j := Z.to_nat _).
  assert (j = pick_binary64 seed32 n (S i)) as -> by (unfold pick_binary64; reflexivity).
  rewrite swap_elements_in_range by lia.
  cbn [mbind option_bind].
  apply IH. rewrite length_swap. lia.
Qed.

Lemma pick_binary64_exact seed32 n i :
  0 ≤ seed32 < two32 → Z.of_nat n < 2 ^ 21 → Z.of_nat i + 1 ≤ 2 ^ 21 →
  pick_binary64 seed32 n i = pick_exact seed32 n i.
Proof.
  intros Hseed Hn Hi. unfold pick_binary64, pick_exact, draw_value.
  rewrite draw_binary64_exact by done.
  rewrite floor_mul_exact; [reflexivity|].
  pose proof (mulberry32_output_range (state_word seed32 (S n))) as Hk.
  unfold draw.
  set (k := mulberry32_output _) in *. clearbody k.
  unfold two32 in Hk. change (2 ^ 21) with 2097152 in Hi.
  change (2 ^ 53) with 9007199254740992.
  nia.
Qed.

Lemma fisher_yates_from_ext {A} (pick pick' : nat → nat → nat) n i (l : list A) :
  (∀ n' i', (i' ≤ i)%nat → (n' + i' = n + i)%nat → pick n' i' = pick' n' i') →
  fisher_yates_from pick n i l = fisher_yates_from pick' n i l.
Proof.
  revert n l. induction i as [|i IH]; intros n l Hp; [done|].
  cbn [fisher_yates_from]. rewrite Hp by lia. apply IH.
  intros n' i' Hi' Hsum. apply Hp; lia.
Qed.

Lemma seeded_shuffle_fisher_yates seed images :
  seeded_shuffle seed images
  = Some (fisher_yates (pick_binary64 (toUint32 seed)) images).
Proof.
  unfold seeded_shuffle, fisher_yates, mulberry32. rewrite ushr_0.
  apply (shuffle_loop_fisher_yates (toUint32 seed) _ 0%nat). lia.
Qed.

End shuffle_facts.

(** C10.  Whatever the state of the generator, the value a call of
    [rand] returns lies in [0, 1), and the index [Math.floor(rand() * (i + 1))]
    lies between 0 and [i]; hence the seeded shuffle never reads or writes
    past the end of the array, for any seed and any list. *)
Theorem shuffle_never_leaves_the_array (g : generator) (i : nat) :
  ((0 <= unit_fraction (rand g).1)%Q ∧ (unit_fraction (rand g).1 < 1)%Q)
  ∧ (0 ≤ floor_mul (rand g).1 (Z.of_nat i + 1) ≤ Z.of_nat i)%Z
  ∧ ∀ seed images, is_Some (seeded_shuffle seed images).
Proof.
  split; [apply unit_fraction_range, rand_range|].
  split; [apply swap_index_range|].
  intros seed images. rewrite seeded_shuffle_fisher_yates. eauto.
Qed.

(** C3.  For every seed and every list the loader's shuffle is the
    Fisher-Yates pass from the last index down to index 1 whose step
    number [n] swaps the current index [i] with [floor(draw * (i + 1))],
    [draw] being the value number [n] of mulberry32 seeded with
    [seed >>> 0]: the generator is the published one on 32-bit words, with
    the state kept as a JavaScript number and the product taken in
    binary64.  Every draw lies in [0, 1).  For lists of at most [2^21] items
    the state additions and the product are exact, so the order is the one
    of the generator on words and of the floor of the rational product.
    Two seeds with the same 32-bit value give the same order. *)
Theorem seeded_shuffle_is_fisher_yates (seed : Z) (images : list string) :
  let seed32 := toUint32 seed in
  seeded_shuffle seed images = Some (fisher_yates (pick_binary64 seed32) images)
  ∧ (∀ n, (0 <= draw_value seed32 n)%Q ∧ (draw_value seed32 n < 1)%Q)
  ∧ (∀ n, (0 <= unit_fraction (draw_binary64 seed32 n))%Q
          ∧ (unit_fraction (draw_binary64 seed32 n) < 1)%Q)
  ∧ ((Z.of_nat (List.length images) ≤ 2 ^ 21)%Z →
     seeded_shuffle seed images = Some (fisher_yates (pick_exact seed32) images))
  ∧ (∀ seed', toUint32 seed' = seed32 →
     seeded_shuffle seed' images = seeded_shuffle seed images).
Proof.
  intros seed32. split; [apply seeded_shuffle_fisher_yates|].
  split; [intros n; apply unit_fraction_range, mulberry32_output_range|].
  split; [intros n; apply unit_fraction_range, mulberry32_output_range|].
  split.
  - intros Hlen. rewrite seeded_shuffle_fisher_yates. f_equal.
    apply fisher_yates_from_ext. intros n i Hi Hsum.
    apply pick_binary64_exact; [apply toUint32_range|lia..].
  - intros seed' Heq. rewrite !seeded_shuffle_fisher_yates. by rewrite Heq.
Qed.

Local Open Scope string_scope.
(** C2.  With seed 1 the images [a.jpg], [b.jpg], [c.jpg] are shown in the
    order [c.jpg], [a.jpg], [b.jpg]; once [b.jpg] is deleted the same seed
    shows [a.jpg] before [c.jpg]: the relative order of the remaining items
    is not kept. *)
Theorem deleting_an_item_reorders_the_rest :
  let images := ["a.jpg"; "b.jpg"; "c.jpg"] in
  seeded_shuffle 1 images = Some ["c.jpg"; "a.jpg"; "b.jpg"]
  ∧ seeded_shuffle 1 (remove_item "b.jpg" images) = Some ["a.jpg"; "c.jpg"]
  ∧ remove_item "b.jpg" <$> seeded_shuffle 1 images
    ≠ seeded_shuffle 1 (remove_item "b.jpg" images).
Proof. vm_compute. repeat split; congruence. Qed.

Lemma seeded_shuffle_is_fisher_yates_witness :
  seeded_shuffle 4294967303 ["a.jpg"; "b.jpg"; "c.jpg"]
  = Some (fisher_yates (pick_exact 7) ["a.jpg"; "b.jpg"; "c.jpg"]).
Proof.
  destruct (seeded_shuffle_is_fisher_yates 4294967303 ["a.jpg"; "b.jpg"; "c.jpg"])
    as (_ & _ & _ & Hexact & _).
  apply Hexact. vm_compute. discriminate.
Defined.

(* ================================================================== *)
(** ** Splitting, joining and normalizing paths *)
(* ================================================================== *)

Section path_facts.
Local Open Scope string_scope.
Implicit Types (s p : string) (segs stack : list string) (c : ascii).

Lemma append_cons x s1 s2 : String x s1 ++ s2 = String x (s1 ++ s2).
Proof. reflexivity. Qed.

Lemma append_empty_l s : "" ++ s = s.
Proof. reflexivity. Qed.

Lemma split_on_nonempty c s : split_on c s ≠ [].
Proof.
  destruct s as [|x s]; cbn [split_on]; [done|].
  destruct (Ascii.eqb x c); [done|]. by destruct (split_on c s).
Qed.

Lemma split_on_app c s1 s2 :
  split_on c (s1 ++ String c s2) = (split_on c s1 ++ split_on c s2)%list.
Proof.
  induction s1 as [|x s1 IH].
  - rewrite append_empty_l. cbn [split_on]. by rewrite Ascii.eqb_refl.
  - rewrite append_cons. cbn [split_on]. rewrite IH. destruct (Ascii.eqb x c); [done|].
    pose proof (split_on_nonempty c s1). by destruct (split_on c s1).
Qed.

Lemma split_on_no_slash s : no_slash s = true → split_on slash s = [s].
Proof.
  induction s as [|x s IH]; cbn [split_on no_slash]; [done|].
  intros [Hx Hs]%andb_prop. apply negb_true_iff in Hx. rewrite Hx.
  by rewrite IH.
Qed.

Lemma join_with_cons sep seg segs :
  segs ≠ [] → join_with sep (seg :: segs) = seg ++ sep ++ join_with sep segs.
Proof. by destruct segs. Qed.

Lemma split_on_join segs :
  segs ≠ [] → Forall (λ seg, no_slash seg = true) segs →
  split_on slash (join_with "/" segs) = segs.
Proof.
  induction segs as [|seg segs IH]; [done|].
  intros _ Hall. apply Forall_cons in Hall as [Hseg Hall].
  destruct segs as [|seg' segs].
  - by apply split_on_no_slash.
  - rewrite join_with_cons by done.
    change (seg ++ "/" ++ ?t) with (seg ++ String slash t).
    rewrite split_on_app, split_on_no_slash, IH by done. done.
Qed.

Lemma append_empty_r s : s ++ "" = s.
Proof.
  induction s as [|x s IH]; [done|]. by rewrite append_cons, IH.
Qed.

Lemma append_assoc s1 s2 s3 : (s1 ++ s2) ++ s3 = s1 ++ (s2 ++ s3).
Proof.
  induction s1 as [|x s1 IH]; [done|]. by rewrite !append_cons, IH.
Qed.

Lemma join_with_snoc segs seg :
  segs ≠ [] → join_with "/" (segs ++ [seg]) = join_with "/" segs ++ "/" ++ seg.
Proof.
  induction segs as [|x segs IH]; [done|]. intros _.
  destruct segs as [|y segs]; [done|].
  change ((x :: y :: segs) ++ [seg])%list with (x :: (y :: segs) ++ [seg])%list.
  rewrite !join_with_cons by (try done; by destruct segs).
  rewrite IH by done. by rewrite !append_assoc.
Qed.

(** *** [normalize_step] *)

Lemma normalize_step_skip allow stack seg :
  seg = "" ∨ seg = "." → normalize_step allow stack seg = stack.
Proof. intros H. unfold normalize_step. by rewrite decide_True. Qed.

Lemma normalize_step_plain allow stack seg :
  plain seg → normalize_step allow stack seg = seg :: stack.
Proof.
  intros (H1 & H2 & H3). unfold normalize_step.
  rewrite decide_False by (intros [?|?]; done). by rewrite decide_False.
Qed.

Lemma normalize_step_dotdot allow k :
  normalize_step allow (dotdots k) ".."
  = if allow then dotdots (S k) else dotdots k.
Proof.
  unfold normalize_step. rewrite decide_False by (intros [?|?]; done).
  rewrite decide_True by done.
  destruct k as [|k]; cbn [dotdots replicate]; [by destruct allow|].
  by rewrite decide_True.
Qed.

Lemma normalize_step_pop allow seg stack :
  plain seg → normalize_step allow (seg :: stack) ".." = stack.
Proof.
  intros (H1 & H2 & H3). unfold normalize_step.
  rewrite decide_False by (intros [?|?]; done).
  rewrite decide_True by done. by rewrite decide_False.
Qed.

Lemma segment_cases seg : seg = "" ∨ seg = "." ∨ seg = ".." ∨ plain seg.
Proof.
  unfold plain.
  destruct (decide (seg = "")); [by left|].
  destruct (decide (seg = ".")); [by right; left|].
  destruct (decide (seg = "..")); [by right; right; left|].
  by right; right; right.
Qed.


Lemma dotdots_snoc k : (dotdots k ++ [".."])%list = dotdots (S k).
Proof.
  unfold dotdots. induction k as [|k IH]; [done|].
  cbn [replicate app]. by rewrite IH.
Qed.

Lemma rev_dotdots k : rev (dotdots k) = dotdots k.
Proof.
  induction k as [|k IH]; [done|].
  change (dotdots (S k)) with (".." :: dotdots k) at 1.
  cbn [rev]. by rewrite IH, dotdots_snoc.
Qed.

Lemma fold_step_plain allow segs stack :
  Forall plain segs →
  fold_left (normalize_step allow) segs stack = (rev segs ++ stack)%list.
Proof.
  intros Hall. revert stack.
  induction Hall as [|seg segs Hseg _ IH]; intros stack; [done|].
  cbn [fold_left rev]. rewrite normalize_step_plain by done.
  by rewrite IH, <- app_assoc.
Qed.

Lemma fold_step_dotdots k j :
  fold_left (normalize_step true) (dotdots k) (dotdots j) = dotdots (k + j).
Proof.
  revert j. induction k as [|k IH]; intros j; [done|].
  change (dotdots (S k)) with (".." :: dotdots k).
  cbn [fold_left]. rewrite normalize_step_dotdot, IH. f_equal. lia.
Qed.

Lemma normal_stack_nil allow : normal_stack allow [].
Proof. exists [], 0%nat. by repeat split. Qed.

Lemma normal_stack_step allow stack seg :
  normal_stack allow stack → normal_stack allow (normalize_step allow stack seg).
Proof.
  intros (top & k & -> & Htop & Hk).
  destruct (segment_cases seg) as [H|[H|[->|H]]].
  - rewrite normalize_step_skip by auto. by exists top, k.
  - rewrite normalize_step_skip by auto. by exists top, k.
  - destruct top as [|seg top].
    + cbn [app]. rewrite normalize_step_dotdot.
      destruct allow; [|by exists [], k].
      exists [], (S k). by repeat split.
    + apply Forall_cons in Htop as [Hseg Htop].
      change ((seg :: top) ++ dotdots k)%list with (seg :: (top ++ dotdots k))%list.
      rewrite normalize_step_pop by done. by exists top, k.
  - rewrite normalize_step_plain by done.
    exists (seg :: top), k. repeat split; [|done]. by constructor.
Qed.

Lemma normal_stack_fold allow segs stack :
  normal_stack allow stack →
  normal_stack allow (fold_left (normalize_step allow) segs stack).
Proof.
  revert stack. induction segs as [|seg segs IH]; intros stack Hst; [done|].
  cbn [fold_left]. by apply IH, normal_stack_step.
Qed.

Lemma normalize_step_Forall (P : string → Prop) allow stack seg :
  P seg → Forall P stack → Forall P (normalize_step allow stack seg).
Proof.
  intros Hseg Hst. unfold normalize_step.
  repeat case_decide; try done; try by constructor.
  - destruct stack as [|top rest]; [destruct allow; by repeat constructor|].
    case_decide; [destruct allow; [by constructor|done]|].
    by apply Forall_cons in Hst as [_ ?].
Qed.

Lemma fold_step_Forall (P : string → Prop) allow segs stack :
  Forall P segs → Forall P stack →
  Forall P (fold_left (normalize_step allow) segs stack).
Proof.
  intros Hall. revert stack.
  induction Hall as [|seg segs Hseg _ IH]; intros stack Hst; [done|].
  cbn [fold_left]. by apply IH, normalize_step_Forall.
Qed.

Lemma fold_step_no_dotdot allow segs stack :
  ".." ∉ segs →
  ∃ extra, fold_left (normalize_step allow) segs stack = (extra ++ stack)%list.
Proof.
  revert stack. induction segs as [|seg segs IH]; intros stack Hno.
  - by exists [].
  - apply not_elem_of_cons in Hno as [Hseg Hno]. cbn [fold_left].
    destruct (segment_cases seg) as [H|[H|[->|H]]]; [| |done|].
    + rewrite normalize_step_skip by auto. by apply IH.
    + rewrite normalize_step_skip by auto. by apply IH.
    + rewrite normalize_step_plain by done.
      destruct (IH (seg :: stack) Hno) as [extra ->].
      exists (extra ++ [seg])%list. by rewrite <- app_assoc.
Qed.

Lemma split_on_all_no_slash s :
  Forall (λ seg, no_slash seg = true) (split_on slash s).
Proof.
  induction s as [|x s IH]; cbn [split_on]; [by repeat constructor|].
  destruct (Ascii.eqb x slash) eqn:Hx; [by constructor|].
  pose proof (split_on_nonempty slash s) as Hne.
  destruct (split_on slash s) as [|w ws]; [done|].
  apply Forall_cons in IH as [Hw Hws]. constructor; [|done].
  cbn [no_slash]. by rewrite Hx, Hw.
Qed.

(** The normalized segments: any [".."] come first (and only for relative
    paths), every other segment is plain and free of slashes. *)
Lemma normalize_segments_shape allow segs :
  Forall (λ seg, no_slash seg = true) segs →
  ∃ k rest, normalize_segments allow segs = (dotdots k ++ rest)%list
            ∧ Forall plain rest ∧ (allow = false → k = 0%nat)
            ∧ Forall (λ seg, no_slash seg = true) (dotdots k ++ rest).
Proof.
  intros Hns. unfold normalize_segments.
  destruct (normal_stack_fold allow segs [] (normal_stack_nil allow))
    as (top & k & Heq & Htop & Hk).
  pose proof (fold_step_Forall _ allow segs [] Hns (Forall_nil_2 _)) as Hall.
  rewrite Heq in Hall |- *. rewrite rev_app_distr, rev_dotdots.
  exists k, (rev top). repeat split; [|done|].
  - apply Forall_forall. intros x Hx%list_elem_of_In%in_rev%list_elem_of_In.
    by eapply Forall_forall in Htop.
  - apply Forall_app in Hall as [H1 H2]. apply Forall_app. split; [done|].
    apply Forall_forall. intros x Hx%list_elem_of_In%in_rev%list_elem_of_In.
    by eapply Forall_forall in H1.
Qed.

(** Normalizing a list that is already in that shape changes nothing, also
    with empty segments in front and behind. *)
Lemma normalize_segments_fixed allow k rest (front back : bool) :
  Forall plain rest → (allow = false → k = 0%nat) →
  normalize_segments allow
    ((if front then [""] else []) ++ (dotdots k ++ rest)
     ++ (if back then [""] else []))%list
  = (dotdots k ++ rest)%list.
Proof.
  intros Hrest Hk. unfold normalize_segments.
  assert (fold_left (normalize_step allow) (dotdots k ++ rest) []
          = (rev rest ++ dotdots k)%list) as Hmid.
  { rewrite fold_left_app.
    assert (fold_left (normalize_step allow) (dotdots k) [] = dotdots k) as ->.
    { destruct allow.
      - change [] with (dotdots 0) at 1.
        rewrite (fold_step_dotdots k 0). f_equal. lia.
      - by rewrite Hk. }
    by apply fold_step_plain. }
  rewrite fold_left_app.
  assert (fold_left (normalize_step allow) (if front then [""] else []) [] = [])
    as -> by (by destruct front).
  rewrite fold_left_app, Hmid.
  assert (∀ st, fold_left (normalize_step allow) (if back then [""] else []) st = st)
    as -> by (intros st; by destruct back).
  by rewrite rev_app_distr, rev_dotdots, rev_involutive.
Qed.

Lemma starts_with_slash_app s t :
  s ≠ "" → starts_with_slash (s ++ t) = starts_with_slash s.
Proof. by destruct s. Qed.

Lemma no_slash_starts s : no_slash s = true → starts_with_slash s = false.
Proof.
  destruct s as [|x s]; [done|]. cbn [no_slash starts_with_slash].
  intros [Hx _]%andb_prop. by apply negb_true_iff.
Qed.

Lemma join_with_head seg segs :
  seg ≠ "" → ∃ t, join_with "/" (seg :: segs) = seg ++ t.
Proof.
  intros _. destruct segs as [|seg' segs].
  - exists "". by rewrite append_empty_r.
  - eexists. by rewrite join_with_cons.
Qed.

Lemma append_nonempty s t : s ≠ "" → s ++ t ≠ "".
Proof. by destruct s. Qed.

Lemma dotdots_app_head k rest seg segs :
  (dotdots k ++ rest)%list = seg :: segs → Forall plain rest → seg ≠ "".
Proof.
  destruct k as [|k].
  - cbn [dotdots replicate app]. intros -> [[? _] _]%Forall_cons. done.
  - cbn [dotdots replicate app]. intros [= <- _] _. done.
Qed.

(** Splitting what [normalize] prints gives the segments back, between an
    empty first segment for an absolute path and an empty last one for a
    trailing slash. *)
Lemma split_on_rendered (abs trailing : bool) segs :
  segs ≠ [] → Forall (λ seg, no_slash seg = true) segs →
  let res := join_with "/" segs in
  let res := if trailing then res ++ "/" else res in
  split_on slash (if abs then "/" ++ res else res)
  = ((if abs then [""] else []) ++ segs ++ (if trailing then [""] else []))%list.
Proof.
  intros Hne Hns. cbn zeta.
  assert (split_on slash (if trailing then join_with "/" segs ++ "/"
                          else join_with "/" segs)
          = (segs ++ (if trailing then [""] else []))%list) as Hres.
  { destruct trailing.
    - change "/" with (String slash "").
      by rewrite split_on_app, split_on_join.
    - by rewrite split_on_join, app_nil_r. }
  destruct abs; [|done].
  change ("/" ++ ?t) with (String slash t). cbn [split_on].
  rewrite Ascii.eqb_refl, Hres. done.
Qed.

Lemma starts_with_slash_rendered (abs trailing : bool) seg segs :
  seg ≠ "" → no_slash seg = true →
  let res := join_with "/" (seg :: segs) in
  let res := if trailing then res ++ "/" else res in
  starts_with_slash (if abs then "/" ++ res else res) = abs.
Proof.
  intros Hseg Hns. cbn zeta. destruct abs; [done|].
  destruct (join_with_head seg segs Hseg) as [t ->].
  destruct trailing.
  - rewrite append_assoc, starts_with_slash_app by done. by apply no_slash_starts.
  - rewrite starts_with_slash_app by done. by apply no_slash_starts.
Qed.

(** Normalizing is idempotent on the canonical form. *)
Lemma canonical_normalize p : canonical (normalize p) = canonical p.
Proof.
  destruct (decide (p = "")) as [->|Hp]; [done|].
  unfold normalize. rewrite decide_False by done.
  unfold canonical at 2.
  set (abs := starts_with_slash p). set (trailing := ends_with_slash p).
  destruct (normalize_segments_shape (negb abs) (split_on slash p)
              (split_on_all_no_slash p)) as (k & rest & Hseg & Hrest & Hk & Hns).
  rewrite Hseg.
  destruct (dotdots k ++ rest)%list as [|seg segs] eqn:Hsegs.
  - cbn [join_with concat]. rewrite decide_True by done.
    by destruct abs, trailing.
  - pose proof (dotdots_app_head _ _ _ _ Hsegs Hrest) as Hne.
    destruct (join_with_head seg segs Hne) as [t Ht].
    rewrite decide_False by (rewrite Ht; by apply append_nonempty).
    unfold canonical.
    apply Forall_cons in Hns as Hns'. destruct Hns' as [Hns1 _].
    rewrite (starts_with_slash_rendered abs trailing seg segs Hne Hns1).
    f_equal.
    rewrite (split_on_rendered abs trailing (seg :: segs)) by done.
    rewrite <- Hsegs. by apply normalize_segments_fixed.
Qed.

Lemma is_prefix_app segs extra : is_prefix segs (segs ++ extra) = true.
Proof.
  induction segs as [|seg segs IH]; [done|].
  cbn [is_prefix app]. by rewrite String.eqb_refl, IH.
Qed.

Lemma within_root_self p : within_root p p = true.
Proof.
  unfold within_root. rewrite eqb_reflx.
  rewrite <- (app_nil_r (canonical p).2) at 2. by rewrite is_prefix_app.
Qed.

(** Normalizing a path first and folding it onto a stack then, or folding
    it onto the stack at once: the same. *)
Lemma fold_normalized_aux segs :
  Forall (λ seg, ¬ (seg = "" ∨ seg = "."))
    (fold_left (normalize_step true) segs [])
  ∧ ∀ allow stack,
      fold_left (normalize_step allow)
        (rev (fold_left (normalize_step true) segs [])) stack
      = fold_left (normalize_step allow) segs stack.
Proof.
  induction segs as [|seg segs [IHall IH]] using rev_ind; [by split|].
  rewrite fold_left_app. cbn [fold_left].
  set (T := fold_left (normalize_step true) segs []) in *.
  destruct (segment_cases seg) as [Hs|[Hs|[->|Hs]]].
  - rewrite normalize_step_skip by auto. split; [done|].
    intros allow stack. rewrite fold_left_app. cbn [fold_left].
    by rewrite normalize_step_skip, IH by auto.
  - rewrite normalize_step_skip by auto. split; [done|].
    intros allow stack. rewrite fold_left_app. cbn [fold_left].
    by rewrite normalize_step_skip, IH by auto.
  - assert (∀ allow stack,
              fold_left (normalize_step allow) (segs ++ [".."]) stack
              = normalize_step allow
                  (fold_left (normalize_step allow) (rev T) stack) "..") as Hsnoc.
    { intros allow stack. rewrite fold_left_app. cbn [fold_left]. by rewrite IH. }
    destruct T as [|top T'] eqn:HT.
    + split; [by repeat constructor; intros [?|?]|].
      intros allow stack. by rewrite Hsnoc.
    + destruct (decide (top = "..")) as [->|Htop].
      * assert (normalize_step true (".." :: T') ".." = ".." :: ".." :: T') as ->.
        { unfold normalize_step. rewrite decide_False by (intros [?|?]; done).
          by rewrite !decide_True. }
        split; [by constructor; [intros [?|?]|]|].
        intros allow stack. rewrite Hsnoc.
        change (rev (".." :: ".." :: T')) with (rev (".." :: T') ++ [".."])%list.
        rewrite fold_left_app. reflexivity.
      * apply Forall_cons in IHall as [Hplain IHall].
        assert (plain top) as Hp by (unfold plain; tauto).
        rewrite normalize_step_pop by done. split; [done|].
        intros allow stack. rewrite Hsnoc. cbn [rev].
        rewrite fold_left_app. cbn [fold_left].
        rewrite (normalize_step_plain allow _ top) by done.
        by rewrite normalize_step_pop.
  - rewrite normalize_step_plain by done. split.
    + constructor; [|done]. destruct Hs as (? & ? & ?). tauto.
    + intros allow stack. cbn [rev]. rewrite !fold_left_app. cbn [fold_left].
      by rewrite IH.
Qed.

Lemma fold_normalized allow segs stack :
  fold_left (normalize_step allow) (normalize_segments true segs) stack
  = fold_left (normalize_step allow) segs stack.
Proof. apply fold_normalized_aux. Qed.

Lemma normal_form_shape rel :
  ∃ k rest, normal_form rel = (dotdots k ++ rest)%list ∧ Forall plain rest.
Proof.
  destruct (normalize_segments_shape true (split_on slash rel)
              (split_on_all_no_slash rel)) as (k & rest & Heq & Hrest & _).
  by exists k, rest.
Qed.

Lemma normal_form_no_dotdot rel :
  ".." ∉ split_on slash rel → ".." ∉ normal_form rel.
Proof.
  intros Hno. unfold normal_form, normalize_segments.
  assert (Forall (λ seg, seg ≠ "..")
            (fold_left (normalize_step true) (split_on slash rel) [])) as Hall.
  { apply fold_step_Forall; [|done].
    apply Forall_forall. by intros seg Hseg ->. }
  intros Hin%list_elem_of_In%in_rev%list_elem_of_In.
  by eapply Forall_forall in Hall.
Qed.

Lemma normal_form_plain rel :
  ".." ∉ normal_form rel → Forall plain (normal_form rel).
Proof.
  destruct (normal_form_shape rel) as (k & rest & -> & Hrest). intros Hno.
  destruct k as [|k]; [done|]. exfalso. apply Hno.
  cbn [dotdots replicate app]. by left.
Qed.

(** The canonical form of a joined path: the relative path's normal form
    folded onto the canonical segments of the directory. *)
Lemma canonical_join base rel :
  base ≠ "" →
  canonical (join base rel)
  = (starts_with_slash base,
     rev (fold_left (normalize_step (negb (starts_with_slash base)))
            (normal_form rel) (rev (canonical base).2))).
Proof.
  intros Hbase. unfold normal_form. rewrite fold_normalized.
  destruct (decide (rel = "")) as [->|Hr].
  - assert (join base "" = normalize base) as -> by (by destruct base).
    rewrite canonical_normalize. unfold canonical. cbn [fst snd fold_left split_on].
    rewrite normalize_step_skip by auto. by rewrite rev_involutive.
  - assert (join base rel = normalize (base ++ "/" ++ rel)) as ->
      by (by destruct base, rel).
    rewrite canonical_normalize. unfold canonical. cbn [fst snd].
    rewrite starts_with_slash_app by done. f_equal.
    change (base ++ "/" ++ rel) with (base ++ String slash rel).
    rewrite split_on_app. unfold normalize_segments.
    by rewrite fold_left_app, rev_involutive.
Qed.

Lemma fold_dotdots_absolute k stack :
  Forall plain stack →
  fold_left (normalize_step false) (dotdots k) stack = drop k stack.
Proof.
  revert stack. induction k as [|k IH]; intros stack Hstack; [done|].
  change (dotdots (S k)) with (".." :: dotdots k). cbn [fold_left].
  destruct Hstack as [|top stack Htop Hstack].
  - change (normalize_step false [] "..") with (@nil string).
    rewrite IH by done. by destruct k.
  - rewrite normalize_step_pop by done. by rewrite IH.
Qed.

Lemma is_prefix_app_cancel xs ys zs :
  is_prefix (xs ++ ys) (xs ++ zs) = is_prefix ys zs.
Proof.
  induction xs as [|x xs IH]; [done|].
  cbn [is_prefix app]. by rewrite String.eqb_refl.
Qed.

Lemma canonical_plain_absolute base :
  starts_with_slash base = true → Forall plain (canonical base).2.
Proof.
  intros Habs. unfold canonical. cbn [snd]. rewrite Habs. cbn [negb].
  destruct (normalize_segments_shape false (split_on slash base)
              (split_on_all_no_slash base)) as (k & rest & -> & Hrest & Hk & _).
  by rewrite Hk.
Qed.

(** Below an absolute directory each leading [".."] of the relative path
    removes one trailing segment of the directory (none when none is
    left), and the plain segments follow. *)
Lemma canonical_join_absolute base rel k rest :
  starts_with_slash base = true →
  normal_form rel = (dotdots k ++ rest)%list → Forall plain rest →
  canonical (join base rel)
  = (true, (take (List.length (canonical base).2 - k) (canonical base).2
            ++ rest)%list).
Proof.
  intros Habs Hform Hrest.
  assert (base ≠ "") as Hbase by (by intros ->).
  rewrite canonical_join, Hform, Habs by done. cbn [negb]. f_equal.
  pose proof (canonical_plain_absolute base Habs) as Hplain.
  assert (Forall plain (rev (canonical base).2)) as Hrev.
  { apply Forall_forall. intros x Hx%list_elem_of_In%in_rev%list_elem_of_In.
    by eapply Forall_forall in Hplain. }
  rewrite fold_left_app, fold_dotdots_absolute, fold_step_plain by done.
  - rewrite rev_app_distr, rev_involutive. f_equal.
    change (@drop string) with (@skipn string).
    rewrite skipn_rev, rev_involutive. reflexivity.
Qed.

Lemma within_root_join_absolute base rel k rest :
  starts_with_slash base = true →
  normal_form rel = (dotdots k ++ rest)%list → Forall plain rest →
  within_root base (join base rel)
  = is_prefix (drop (List.length (canonical base).2 - k) (canonical base).2) rest.
Proof.
  intros Habs Hform Hrest. unfold within_root.
  rewrite (canonical_join_absolute _ _ _ _ Habs Hform Hrest). cbn [fst snd].
  assert ((canonical base).1 = true) as -> by done. cbn [Bool.eqb andb].
  rewrite <- (take_drop (List.length (canonical base).2 - k) (canonical base).2)
    at 1.
  apply is_prefix_app_cancel.
Qed.

(** A relative path that never climbs above the directory it starts from
    stays within that directory. *)
Lemma within_root_join_normal base rel :
  ".." ∉ normal_form rel →
  (base = "" → starts_with_slash rel = false) →
  within_root base (join base rel) = true.
Proof.
  intros Hno Hrel. unfold within_root.
  destruct (decide (base = "")) as [->|Hbase].
  - destruct rel as [|x rel]; [done|].
    change (join "" (String x rel)) with (normalize (String x rel)).
    rewrite canonical_normalize. unfold canonical at 1 2. cbn [fst snd].
    rewrite Hrel by done. done.
  - rewrite canonical_join by done. cbn [fst snd].
    assert ((canonical base).1 = starts_with_slash base) as -> by done.
    rewrite eqb_reflx. cbn [andb].
    rewrite fold_step_plain by (by apply normal_form_plain).
    rewrite rev_app_distr, !rev_involutive. apply is_prefix_app.
Qed.
End path_facts.

(* ================================================================== *)
(** ** [resolvePhotoPath] *)
(* ================================================================== *)

Section resolve_facts.
Local Open Scope string_scope.
Implicit Types (w : world) (s urlPath : string) (dirs : list string).

Lemma drop_leading_no_slash s : starts_with_slash (drop_leading slash s) = false.
Proof.
  induction s as [|x s IH]; [done|]. cbn [drop_leading].
  destruct (Ascii.eqb x slash) eqn:Hx; [done|]. cbn [starts_with_slash]. done.
Qed.

Lemma drop_trailing_starts s :
  starts_with_slash s = false → starts_with_slash (drop_trailing slash s) = false.
Proof.
  destruct s as [|x s]; [done|]. cbn [starts_with_slash drop_trailing].
  intros Hx. rewrite Hx. destruct (drop_trailing slash s); cbn; done.
Qed.

Lemma strip_slashes_relative urlPath :
  starts_with_slash (strip_slashes urlPath) = false.
Proof. apply drop_trailing_starts, drop_leading_no_slash. Qed.

Lemma first_segment_nonempty s :
  s ≠ "" → starts_with_slash s = false → List.hd "" (split_on slash s) ≠ "".
Proof.
  destruct s as [|x s]; [done|]. intros _. cbn [starts_with_slash split_on].
  intros ->. by destruct (split_on slash s).
Qed.

(** The calls already made stay at the front of the log, and the
    filesystem is not changed. *)
Lemma fs_access_spec p w :
  ∃ o, fs_access p w = (o, {| files := files w; calls := calls w ++ [CallAccess p] |}).
Proof.
  unfold fs_access, mbind, IO_bind, bind, record_call, get_files, ret, throw.
  cbn [files calls]. destruct (locate (files w) p); by eexists.
Qed.

Lemma probe_spec dirs cleanUrl w :
  ∃ found w', probe dirs cleanUrl w = (Return found, w')
    ∧ files w' = files w
    ∧ ∀ r, found = Some r →
        ∃ base, r = Entry (join base cleanUrl) base cleanUrl ∧ base ∈ dirs.
Proof.
  revert w. induction dirs as [|dir dirs IH]; intros w.
  - exists None, w. by repeat split.
  - cbn [probe]. unfold try_catch, mbind, IO_bind, bind.
    destruct (fs_access_spec (join dir cleanUrl) w) as [[[]|e] ->].
    + eexists _, _. repeat split. intros r [= <-].
      exists dir. split; [done|]. by left.
    + destruct (IH {| files := files w;
                      calls := calls w ++ [CallAccess (join dir cleanUrl)] |})
        as (found & w' & -> & Hfiles & Hfound).
      exists found, w'. repeat split; [done|].
      intros r Hr. destruct (Hfound r Hr) as (base & ? & ?).
      exists base. split; [done|]. by right.
Qed.

Lemma find_alias_some dirs seg d :
  List.find (λ dir, String.eqb (basename dir) seg) dirs = Some d →
  d ∈ dirs ∧ basename d = seg.
Proof.
  intros [Hin Heq]%find_some. split; [by apply list_elem_of_In|].
  by apply String.eqb_eq.
Qed.

Lemma truthy_some found d :
  truthy found = Some d → found = Some d ∧ d ≠ "".
Proof. destruct found as [[|x s]|]; cbn; intros [= <-]; done. Qed.

(** Whatever [resolvePhotoPath] returns as an entry is one of the
    configured directories joined with the relative path. *)
Lemma resolvePhotoPath_entry PHOTO_DIRS urlPath w fullPath baseDir relativePath :
  (resolvePhotoPath PHOTO_DIRS urlPath w).1
    = Return (Some (Entry fullPath baseDir relativePath)) →
  baseDir ∈ configured_dirs PHOTO_DIRS
  ∧ fullPath = join baseDir relativePath
  ∧ (baseDir = "" → starts_with_slash relativePath = false).
Proof.
  unfold resolvePhotoPath.
  destruct (configured_dirs PHOTO_DIRS) as [|firstDir dirs] eqn:Hdirs; [done|].
  case_decide as Hclean; [done|].
  destruct (truthy _) as [matched|] eqn:Hmatch.
  - apply truthy_some in Hmatch as [[Hin _]%find_alias_some Hne].
    cbn. intros [= <- <- <-]. done.
  - unfold mbind, IO_bind, bind.
    destruct (probe_spec (firstDir :: dirs) (strip_slashes urlPath) w)
      as (found & w' & -> & _ & Hfound).
    destruct found as [r|]; cbn.
    + intros [= ->]. destruct (Hfound _ eq_refl) as (base & [= -> -> ->] & Hin).
      split; [done|]. split; [done|]. intros _. apply strip_slashes_relative.
    + intros [= <- <- <-]. split; [by left|]. split; [done|].
      intros _. apply strip_slashes_relative.
Qed.

Lemma resolvePhotoPath_unset urlPath w :
  resolvePhotoPath None urlPath w = (Return None, w).
Proof. done. Qed.

Lemma resolvePhotoPath_configured PHOTO_DIRS urlPath w :
  configured_dirs PHOTO_DIRS ≠ [] →
  ∃ r w', resolvePhotoPath PHOTO_DIRS urlPath w = (Return (Some r), w').
Proof.
  intros Hne. unfold resolvePhotoPath.
  destruct (configured_dirs PHOTO_DIRS) as [|firstDir dirs]; [done|].
  case_decide; [by eexists _, _|].
  destruct (truthy _); [by eexists _, _|].
  unfold mbind, IO_bind, bind.
  destruct (probe_spec (firstDir :: dirs) (strip_slashes urlPath) w)
    as (found & w' & -> & _ & _).
  destruct found; by eexists _, _.
Qed.

Lemma configured_dirs_set s : configured_dirs (Some s) ≠ [].
Proof. apply split_on_nonempty. Qed.
End resolve_facts.

(** C7.  When the first segment of the cleaned logical path is the alias of
    a configured library, [resolvePhotoPath] answers, without touching the
    filesystem, with the first configured library that has this alias (the
    library itself when no other shares the alias); the relative path is
    made of the remaining segments and the physical path is the library
    root joined with it. *)
Theorem alias_match_selects_that_library PHOTO_DIRS urlPath w library :
  strip_slashes urlPath ≠ "" →
  library ∈ configured_dirs PHOTO_DIRS →
  alias library = first_segment (strip_slashes urlPath) →
  ∃ selected,
    resolvePhotoPath PHOTO_DIRS urlPath w
    = (Return (Some (Entry (join selected (remaining_segments (strip_slashes urlPath)))
                           selected
                           (remaining_segments (strip_slashes urlPath)))), w)
    ∧ selected ∈ configured_dirs PHOTO_DIRS
    ∧ alias selected = first_segment (strip_slashes urlPath)
    ∧ List.find (λ dir, String.eqb (alias dir) (first_segment (strip_slashes urlPath)))
        (configured_dirs PHOTO_DIRS) = Some selected
    ∧ ((∀ other, other ∈ configured_dirs PHOTO_DIRS →
          alias other = alias library → other = library) →
       selected = library).
Proof.
  intros Hclean Hlib Halias. unfold resolvePhotoPath, alias, first_segment in *.
  destruct (configured_dirs PHOTO_DIRS) as [|firstDir dirs] eqn:Hdirs;
    [by apply elem_of_nil in Hlib|].
  rewrite decide_False by done.
  destruct (List.find _ (firstDir :: dirs)) as [selected|] eqn:Hfind.
  - pose proof Hfind as [Hin Hsel]%find_alias_some.
    assert (selected ≠ "") as Hne.
    { intros ->. symmetry in Hsel.
      by apply first_segment_nonempty in Hsel;
        [|done|apply strip_slashes_relative]. }
    exists selected. destruct selected as [|x sel]; [done|].
    cbn [truthy]. repeat split; try done.
    intros Huniq. apply Huniq; [done|]. by rewrite Halias.
  - exfalso. apply list_elem_of_In in Hlib.
    apply (find_none _ _ Hfind) in Hlib. cbn beta in Hlib.
    by apply String.eqb_neq in Hlib.
Qed.

Lemma alias_match_selects_that_library_witness :
  ∃ selected,
    resolvePhotoPath (Some "/data/photos,/data/pictures") "/pictures/2020/a.jpg/"
      example_world
    = (Return (Some (Entry (join selected "2020/a.jpg") selected "2020/a.jpg")),
       example_world)
    ∧ selected = "/data/pictures".
Proof.
  destruct (alias_match_selects_that_library
              (Some "/data/photos,/data/pictures") "/pictures/2020/a.jpg/"
              example_world "/data/pictures")
    as (selected & Hres & _ & _ & _ & Hsel).
  - vm_compute. discriminate.
  - vm_compute. right. left.
  - vm_compute. reflexivity.
  - exists selected. split; [exact Hres|]. apply Hsel.
    intros other Hin Ha. vm_compute in Hin.
    apply elem_of_cons in Hin as [->|Hin]; [vm_compute in Ha; discriminate|].
    apply elem_of_cons in Hin as [->|Hin]; [reflexivity|].
    by apply elem_of_nil in Hin.
Defined.

(** C6.  With [PHOTO_DIRS] set to the empty string, [split] yields one
    library whose root is the empty path, and resolution answers with an
    entry instead of [null]. *)
Theorem empty_configuration_is_not_unavailable w :
  configured_dirs (Some "") = [""]
  ∧ (resolvePhotoPath (Some "") "a.jpg" w).1
    = Return (Some (Entry "a.jpg" "" "a.jpg")).
Proof.
  split; [done|].
  unfold resolvePhotoPath. cbn [configured_dirs split_on].
  rewrite decide_False by (vm_compute; discriminate).
  change (truthy _) with (@None string). cbn [probe].
  unfold mbind, IO_bind, bind, try_catch.
  destruct (fs_access_spec (join "" (strip_slashes "a.jpg")) w) as [[[]|e] ->];
    reflexivity.
Qed.

(** C1, as stated, fails on each of the three branches: a path with [".."]
    segments resolves to a location outside the library root. *)
Lemma dotdot_segments_escape_the_root :
  (resolvePhotoPath (Some "/photos") "photos/../../etc/passwd" example_world).1
  = Return (Some (Entry "/etc/passwd" "/photos" "../../etc/passwd"))
  ∧ (resolvePhotoPath (Some "/photos") "../etc/passwd" example_world).1
    = Return (Some (Entry "/etc/passwd" "/photos" "../etc/passwd"))
  ∧ (resolvePhotoPath (Some "/photos") "../etc/shadow" example_world).1
    = Return (Some (Entry "/etc/shadow" "/photos" "../etc/shadow"))
  ∧ within_root "/photos" "/etc/passwd" = false
  ∧ within_root "/photos" "/etc/shadow" = false.
Proof. vm_compute. done. Qed.

(** C1, amended.  On every branch and for every logical path the physical
    path is the root of a configured library joined with the relative path;
    nothing checks where it lies.  It lies within that root whenever the
    relative path, normalized on its own, keeps no [".."], that is, never
    climbs above the directory it starts from; a path without any [".."]
    segment is one such.  The normal form is always some [k] times [".."]
    followed by plain segments, and for a root given as an absolute path
    the canonical physical path is the root's canonical segments without
    their last [k], followed by those plain segments: it lies within the
    root exactly when the plain segments begin with the [k] removed ones. *)
Theorem resolved_path_is_root_joined_with_relative_path
    PHOTO_DIRS urlPath w fullPath baseDir relativePath :
  (resolvePhotoPath PHOTO_DIRS urlPath w).1
    = Return (Some (Entry fullPath baseDir relativePath)) →
  baseDir ∈ configured_dirs PHOTO_DIRS
  ∧ fullPath = join baseDir relativePath
  ∧ (".." ∉ normal_form relativePath → within_root baseDir fullPath = true)
  ∧ (".." ∉ split_on slash relativePath → ".." ∉ normal_form relativePath)
  ∧ (∃ k rest, normal_form relativePath = (dotdots k ++ rest)%list
               ∧ Forall plain rest)
  ∧ (starts_with_slash baseDir = true →
     ∀ k rest,
       normal_form relativePath = (dotdots k ++ rest)%list → Forall plain rest →
       let root := (canonical baseDir).2 in
       canonical fullPath
         = (true, (take (List.length root - k) root ++ rest)%list)
       ∧ within_root baseDir fullPath
         = is_prefix (drop (List.length root - k) root) rest).
Proof.
  intros (Hin & -> & Hrel)%resolvePhotoPath_entry.
  split; [done|]. split; [done|].
  split; [intros Hno; by apply within_root_join_normal|].
  split; [apply normal_form_no_dotdot|].
  split; [apply normal_form_shape|].
  intros Habs k rest Hform Hrest root. split.
  - by apply canonical_join_absolute.
  - by apply within_root_join_absolute.
Qed.

Lemma resolved_path_is_root_joined_with_relative_path_witness :
  within_root "/photos" "/photos/b.png" = true
  ∧ within_root "/photos" "/etc/passwd" = false.
Proof.
  split.
  - destruct (resolved_path_is_root_joined_with_relative_path
                (Some "/photos") "photos/sub/../b.png" example_world
                "/photos/b.png" "/photos" "sub/../b.png")
      as (_ & _ & Hwithin & _); [vm_compute; reflexivity|].
    apply Hwithin. vm_compute. intros H.
    repeat (apply elem_of_cons in H as [H|H]; [discriminate H|]).
    by apply elem_of_nil in H.
  - destruct (resolved_path_is_root_joined_with_relative_path
                (Some "/photos") "photos/../../etc/passwd" example_world
                "/etc/passwd" "/photos" "../../etc/passwd")
      as (_ & _ & _ & _ & _ & Hexact); [vm_compute; reflexivity|].
    destruct (Hexact eq_refl 2%nat ["etc"; "passwd"]) as [_ ->].
    + vm_compute. reflexivity.
    + repeat (apply Forall_cons_2; [unfold plain; repeat split; discriminate|]).
      apply Forall_nil_2.
    + vm_compute. reflexivity.
Defined.

(* ================================================================== *)
(** ** The file and thumbnail loaders *)
(* ================================================================== *)

Section api_facts.
Local Open Scope string_scope.
Context (P : Platform).

(** A request without a cookie header is never authenticated. *)
Lemma isAuthenticated_no_cookie : isAuthenticated P {| cookie_header := None |} = false.
Proof. done. Qed.

Lemma photos_loader_rejects req PHOTO_DIRS args w :
  isAuthenticated P req = false →
  photos_loader P (Some req) PHOTO_DIRS args w
  = (Return (text_response "Unauthorized" 401), w).
Proof. intros Hauth. unfold photos_loader. by rewrite Hauth. Qed.

Lemma thumbnails_loader_rejects req PHOTO_DIRS args w :
  isAuthenticated P req = false →
  thumbnails_loader P (Some req) PHOTO_DIRS args w
  = (Return (text_response "Unauthorized" 401), w).
Proof. intros Hauth. unfold thumbnails_loader. by rewrite Hauth. Qed.

Lemma fs_stat_missing p w :
  locate (files w) p = None →
  fs_stat p w = (Throw ENOENT, {| files := files w; calls := calls w ++ [CallStat p] |}).
Proof.
  intros Hp. unfold fs_stat, mbind, IO_bind, bind, record_call, get_files, throw.
  cbn [files calls]. by rewrite Hp.
Qed.

(** When the resolved path names nothing, the thumbnail loader's [stat]
    throws inside the [try] and the [catch] answers 500; the file loader
    answers 404 on the same path. *)
Lemma thumbnails_loader_missing PHOTO_DIRS args w w' fullPath baseDir relativePath :
  resolvePhotoPath PHOTO_DIRS (splat args) w
    = (Return (Some (Entry fullPath baseDir relativePath)), w') →
  locate (files w') fullPath = None →
  (thumbnails_loader P None PHOTO_DIRS args w).1
    = Return (text_response "Error generating thumbnail" 500)
  ∧ (photos_loader P None PHOTO_DIRS args w).1
    = Return (text_response "File not found" 404).
Proof.
  intros Hres Hmiss.
  unfold thumbnails_loader, photos_loader, mbind, IO_bind, bind, try_catch.
  rewrite Hres, (fs_stat_missing _ _ Hmiss). done.
Qed.
End api_facts.

(** C4.  For a path whose file does not exist, inside a library or outside
    every library, the thumbnail loader answers 500, where the file loader
    answers 404. *)
Theorem thumbnail_of_missing_file_is_a_server_error :
  thumbnails_loader example_platform None (Some "/photos")
    (request_for "photos/missing.jpg") example_world
  = (Return (text_response "Error generating thumbnail" 500),
     {| files := example_fs; calls := [CallStat "/photos/missing.jpg"] |})
  ∧ (thumbnails_loader example_platform None (Some "/photos")
       (request_for "elsewhere/x.jpg") example_world).1
    = Return (text_response "Error generating thumbnail" 500)
  ∧ (photos_loader example_platform None (Some "/photos")
       (request_for "photos/missing.jpg") example_world).1
    = Return (text_response "File not found" 404)
  ∧ (thumbnails_loader example_platform None (Some "/photos")
       (request_for "photos/sub") example_world).1
    = Return (text_response "Not a file" 404).
Proof. vm_compute. done. Qed.

(** C5, as stated, fails: when the request object cannot be reached through
    the global, a request that is not authenticated is served, after
    filesystem calls. *)
Lemma unauthenticated_request_is_served_without_global_request :
  isAuthenticated example_platform (request (request_for "photos/a.JPG")) = false
  ∧ photos_loader example_platform None (Some "/photos")
      (request_for "photos/a.JPG") example_world
    = (Return (file_response "jpeg bytes" "image/jpeg"),
       {| files := example_fs;
          calls := [CallStat "/photos/a.JPG"; CallReadFile "/photos/a.JPG"] |})
  ∧ (thumbnails_loader example_platform None (Some "/photos")
       (request_for "photos/a.JPG") example_world).1
    = Return (text_response "Error generating thumbnail" 500)
  ∧ calls (thumbnails_loader example_platform None (Some "/photos")
             (request_for "photos/a.JPG") example_world).2
    = [CallStat "/photos/a.JPG";
       CallReadFile "/srv/app/.cache/thumbnails/d41d8cd98f00b204e9800998ecf8427e.webp";
       CallSharp "/photos/a.JPG"
         "/srv/app/.cache/thumbnails/d41d8cd98f00b204e9800998ecf8427e.webp"].
Proof. vm_compute. done. Qed.

(** C5, amended.  When the request object is reachable through the global
    and is not authenticated, both loaders answer 401 and make no
    filesystem call: the world, with its call log, is unchanged. *)
Theorem unauthenticated_visible_request_is_rejected_first
    (P : Platform) (req : Request) PHOTO_DIRS args w :
  isAuthenticated P req = false →
  photos_loader P (Some req) PHOTO_DIRS args w
    = (Return (text_response "Unauthorized" 401), w)
  ∧ thumbnails_loader P (Some req) PHOTO_DIRS args w
    = (Return (text_response "Unauthorized" 401), w).
Proof.
  intros Hauth. split.
  - by apply photos_loader_rejects.
  - by apply thumbnails_loader_rejects.
Qed.

Lemma unauthenticated_visible_request_is_rejected_first_witness :
  photos_loader example_platform (Some anonymous) (Some "/photos")
    (request_for "photos/a.JPG") example_world
    = (Return (text_response "Unauthorized" 401), example_world)
  ∧ thumbnails_loader example_platform (Some anonymous) (Some "/photos")
      (request_for "photos/a.JPG") example_world
    = (Return (text_response "Unauthorized" 401), example_world).
Proof.
  apply (unauthenticated_visible_request_is_rejected_first
           example_platform anonymous (Some "/photos")
           (request_for "photos/a.JPG") example_world).
  reflexivity.
Defined.

(* ================================================================== *)
(** ** The recursive scan *)
(* ================================================================== *)

Section scan_facts.
Local Open Scope string_scope.
Implicit Types (dir entry : node) (entries : list (string * node))
  (images : list string) (rel name : string).

(** Induction over a tree, with the hypothesis for every entry of a
    directory. *)
Lemma node_tree_ind (Q : node → Prop) :
  (∀ mtime content, Q (File mtime content)) →
  Q Other →
  (∀ mtime, Q (LockedFile mtime)) →
  (∀ readable entries, Forall (λ e, Q e.2) entries → Q (Dir readable entries)) →
  ∀ n, Q n.
Proof.
  intros HFile HOther HLocked HDir. fix IH 1.
  intros [mtime content|readable entries| |mtime].
  - apply HFile.
  - apply HDir. induction entries as [|[name child] entries IHentries].
    + constructor.
    + constructor; [apply IH|apply IHentries].
  - apply HOther.
  - apply HLocked.
Qed.

(** *** Failures propagate *)

Lemma scan_entries_throws rel entries name readable entries' :
  (name, Dir readable entries') ∈ entries →
  (∀ rel' images', ∃ e, scanDir (Dir readable entries') rel' images' = Throw e) →
  ∀ images, ∃ e, scan_entries scanDir rel entries images = Throw e.
Proof.
  intros Hin Hthrow.
  induction entries as [|[name' entry] entries IH]; intros images;
    [by apply elem_of_nil in Hin|].
  apply elem_of_cons in Hin as [[= <- <-]|Hin].
  - cbn [scan_entries].
    destruct (Hthrow (if decide (rel = "") then name else join rel name) images)
      as [e ->]. by exists e.
  - specialize (IH Hin). cbn [scan_entries].
    destruct entry as [mtime content|readable' entries''| |mtime]; [| |done|].
    + by destruct (is_image name').
    + destruct (scanDir _ _ _) as [images'|e]; [done|by exists e].
    + by destruct (is_image name').
Qed.

Lemma scanDir_throws dir :
  unreadable_below dir → ∀ rel images, ∃ e, scanDir dir rel images = Throw e.
Proof.
  induction 1 as [readable entries name entries' Hin
                 |readable entries name entries' Hin _ IH]; intros rel images.
  - destruct readable; [|by exists EACCES]. cbn [scanDir].
    eapply scan_entries_throws; [done|]. intros. by exists EACCES.
  - destruct readable; [|by exists EACCES]. cbn [scanDir].
    by eapply scan_entries_throws.
Qed.

(** A directory that cannot be read, anywhere in the tree, fails the
    scan. *)
Lemma scanDir_unreadable dir :
  all_readable dir = false → ∀ rel images, ∃ e, scanDir dir rel images = Throw e.
Proof.
  induction dir as [mtime content| |mtime|readable entries IH] using node_tree_ind;
    [done..|].
  intros Hread rel images. destruct readable; [|by exists EACCES].
  cbn [all_readable andb] in Hread. cbn [scanDir].
  assert (∃ name child, (name, child) ∈ entries ∧ all_readable child = false)
    as (name & child & Hin & Hchild).
  { clear IH. induction entries as [|[name child] entries IHentries]; [done|].
    cbn [forallb] in Hread. apply andb_false_iff in Hread as [Hread|Hread].
    - exists name, child. split; [by left|done].
    - destruct (IHentries Hread) as (name' & child' & Hin & Hchild).
      exists name', child'. split; [by right|done]. }
  rewrite Forall_forall in IH. pose proof (IH _ Hin Hchild) as Hthrow.
  destruct child as [|readable' entries'| |]; [done| |done..].
  by eapply scan_entries_throws.
Qed.

Lemma getAllImages_unreadable dirPath dir w :
  locate (files w) dirPath = Some dir → all_readable dir = false →
  ∃ e, getAllImages dirPath w = (Throw e, w).
Proof.
  intros Hloc Hread. destruct (scanDir_unreadable dir Hread "" []) as [e He].
  exists e. unfold getAllImages, mbind, IO_bind, bind, get_files, of_outcome.
  by rewrite Hloc, He.
Qed.

Lemma getAllImages_throws dirPath dir w :
  locate (files w) dirPath = Some dir → unreadable_below dir →
  ∃ e, getAllImages dirPath w = (Throw e, w).
Proof.
  intros Hloc Hub. destruct (scanDir_throws dir Hub "" []) as [e He].
  exists e. unfold getAllImages, mbind, IO_bind, bind, get_files, of_outcome.
  by rewrite Hloc, He.
Qed.

Lemma locate_nonempty fs p dir : locate fs p = Some dir → p ≠ "".
Proof. unfold locate. by case_decide. Qed.
End scan_facts.

(** C8, as stated, fails: one unreadable folder below the top level makes
    the scan throw, and the slideshow comes back empty although a readable
    image lies next to the folder. *)
Lemma unreadable_nested_folder_blanks_the_slideshow :
  walk example_tree ["album"; "a.jpg"] = Some (File 1700000000004 "jpeg bytes")
  ∧ is_image "a.jpg" = true
  ∧ walk example_tree ["album"; "locked"]
    = Some (Dir false [("hidden.jpg", File 1700000000005 "jpeg bytes")])
  ∧ getAllImages "/album" example_world = (Throw EACCES, example_world)
  ∧ loader example_platform (Some "/album") (request_for "album") None None 0
      example_world
    = (Return (Data [] "album" "/album" false), example_world).
Proof. vm_compute. done. Qed.

(** C8, amended.  A failure to read a directory below the top level is
    propagated: the scan throws, and the loader's [catch] answers with the
    empty image list. *)
Theorem unreadable_nested_folder_fails_the_scan
    (P : Platform) PHOTO_DIRS args randomParam seedParam fresh w w'
    fullPath baseDir relativePath dir :
  resolvePhotoPath PHOTO_DIRS (strip_one_trailing_slash (splat args)) w
    = (Return (Some (Entry fullPath baseDir relativePath)), w') →
  locate (files w') fullPath = Some dir →
  unreadable_below dir →
  (∃ e, getAllImages fullPath w' = (Throw e, w'))
  ∧ loader P PHOTO_DIRS args randomParam seedParam fresh w
    = (Return (Data [] (strip_one_trailing_slash (splat args)) baseDir false), w').
Proof.
  intros Hres Hloc Hub.
  destruct (getAllImages_throws _ _ _ Hloc Hub) as [e He].
  split; [by exists e|].
  unfold loader, mbind at 1, IO_bind, bind. rewrite Hres.
  rewrite decide_False by (by eapply locate_nonempty).
  unfold try_catch, mbind, IO_bind, bind. by rewrite He.
Qed.

Lemma unreadable_nested_folder_fails_the_scan_witness :
  (∃ e, getAllImages "/album" example_world = (Throw e, example_world))
  ∧ loader example_platform (Some "/album") (request_for "album/")
      (Some "true") (Some "7") 0 example_world
    = (Return (Data [] "album" "/album" false), example_world).
Proof.
  apply (unreadable_nested_folder_fails_the_scan
           example_platform (Some "/album") (request_for "album/")
           (Some "true") (Some "7") 0 example_world example_world
           "/album" "/album" ""
           (Dir true [("a.jpg", File 1700000000004 "jpeg bytes");
                      ("locked", Dir false [("hidden.jpg", File 1700000000005 "jpeg bytes")])])).
  - vm_compute. reflexivity.
  - vm_compute. reflexivity.
  - eapply ub_child. right. left.
Defined.

(* ================================================================== *)
(** ** What the scan lists *)
(* ================================================================== *)

Section listing_facts.
Local Open Scope string_scope.
Implicit Types (dir entry : node) (entries : list (string * node))
  (images : list string) (rel name s t : string) (segs pre : list string).

(** *** The extension test *)

Lemma length_append s t :
  String.length (s ++ t) = (String.length s + String.length t)%nat.
Proof.
  induction s as [|x s IH]; [done|]. rewrite append_cons. cbn [String.length].
  by rewrite IH.
Qed.

Lemma substring_all s : substring 0 (String.length s) s = s.
Proof. induction s as [|x s IH]; [done|]. cbn. by rewrite IH. Qed.

Lemma substring_append s t :
  substring (String.length s) (String.length t) (s ++ t) = t.
Proof.
  induction s as [|x s IH]; [apply substring_all|].
  rewrite append_cons. by cbn [String.length substring].
Qed.

Lemma substring_split (n : nat) s :
  (n ≤ String.length s)%nat →
  s = substring 0 n s ++ substring n (String.length s - n) s.
Proof.
  revert n. induction s as [|x s IH]; intros n Hn.
  - by destruct n.
  - destruct n as [|n].
    + cbn [substring]. rewrite append_empty_l.
      change (String.length (String x s) - 0)%nat with (S (String.length s)).
      cbn [substring]. by rewrite substring_all.
    + cbn [String.length] in Hn.
      cbn [substring String.length Nat.sub]. rewrite append_cons.
      f_equal. apply IH. lia.
Qed.

Lemma ends_with_spec suffix s :
  ends_with suffix s = true ↔ ∃ stem, s = stem ++ suffix.
Proof.
  unfold ends_with. split.
  - intros [Hlen Heq]%andb_prop. apply Nat.leb_le in Hlen.
    apply String.eqb_eq in Heq.
    exists (substring 0 (String.length s - String.length suffix) s).
    pose proof (substring_split (String.length s - String.length suffix) s
                  ltac:(lia)) as Hsplit.
    replace (String.length s - (String.length s - String.length suffix))%nat
      with (String.length suffix) in Hsplit by lia.
    by rewrite Heq in Hsplit.
  - intros [stem ->]. rewrite length_append. apply andb_true_intro. split.
    + apply Nat.leb_le. lia.
    + replace (String.length stem + String.length suffix - String.length suffix)%nat
        with (String.length stem) by lia.
      rewrite substring_append. apply String.eqb_refl.
Qed.

Lemma is_image_spec name : is_image name = true ↔ has_image_extension name.
Proof.
  unfold is_image, has_image_extension. rewrite existsb_exists. split.
  - intros (ext & Hin%list_elem_of_In & [stem Heq]%ends_with_spec). eauto.
  - intros (stem & ext & Hin & Heq). exists ext.
    split; [by apply list_elem_of_In|]. apply ends_with_spec. eauto.
Qed.

(** *** Relative paths of valid names *)

Lemma valid_name_spec name :
  valid_name name = true ↔ plain name ∧ no_slash name = true.
Proof.
  unfold valid_name, plain. rewrite !andb_true_iff, !negb_true_iff, !String.eqb_neq.
  tauto.
Qed.

Lemma Forall_valid_plain segs :
  Forall (λ seg, valid_name seg = true) segs →
  Forall plain segs ∧ Forall (λ seg, no_slash seg = true) segs.
Proof.
  intros H. split; eapply Forall_impl; try exact H;
    intros seg Hs%valid_name_spec; tauto.
Qed.

Lemma ends_with_slash_app s t : t ≠ "" → ends_with_slash (s ++ t) = ends_with_slash t.
Proof.
  intros Ht. induction s as [|x s IH]; [done|]. rewrite append_cons.
  cbn [ends_with_slash]. rewrite IH.
  destruct (s ++ t) eqn:Heq; [|done].
  destruct s; [done|discriminate].
Qed.

Lemma no_slash_ends s : no_slash s = true → ends_with_slash s = false.
Proof.
  induction s as [|x s IH]; [done|]. cbn [no_slash ends_with_slash].
  intros [Hx Hs]%andb_prop. apply negb_true_iff in Hx.
  destruct s; [done|]. by apply IH.
Qed.

Lemma ends_with_slash_join segs :
  Forall (λ seg, valid_name seg = true) segs →
  ends_with_slash (join_with "/" segs) = false.
Proof.
  induction segs as [|seg segs IH] using rev_ind; [done|].
  intros [Hsegs [Hseg _]%Forall_cons]%Forall_app.
  apply valid_name_spec in Hseg as [(Hne & _) Hns].
  destruct segs as [|seg' segs]; [by apply no_slash_ends|].
  rewrite join_with_snoc by done.
  rewrite ends_with_slash_app by (by apply append_nonempty).
  change ("/" ++ seg) with (String slash seg). cbn [ends_with_slash].
  destruct seg; [done|]. by apply no_slash_ends.
Qed.

Lemma join_with_nonempty seg segs :
  valid_name seg = true → join_with "/" (seg :: segs) ≠ "".
Proof.
  intros [(Hne & _) _]%valid_name_spec.
  destruct (join_with_head seg segs Hne) as [t ->]. by apply append_nonempty.
Qed.

(** A path made of valid names is its own normal form. *)
Lemma normalize_valid segs :
  segs ≠ [] → Forall (λ seg, valid_name seg = true) segs →
  normalize (join_with "/" segs) = join_with "/" segs.
Proof.
  intros Hne Hvalid. destruct segs as [|seg segs]; [done|].
  pose proof (Forall_valid_plain _ Hvalid) as [Hplain Hns].
  pose proof Hvalid as [[(Hseg & _) Hseg']%valid_name_spec _]%Forall_cons.
  unfold normalize.
  rewrite decide_False by (by apply join_with_nonempty; apply Forall_cons in Hvalid as [? _]).
  rewrite (starts_with_slash_rendered false false seg segs Hseg Hseg').
  rewrite (ends_with_slash_join _ Hvalid). cbn [negb].
  rewrite split_on_join by done.
  pose proof (normalize_segments_fixed true 0 (seg :: segs) false false
                Hplain ltac:(done)) as Hfixed.
  cbn [app dotdots replicate] in Hfixed. rewrite app_nil_r in Hfixed.
  rewrite Hfixed.
  rewrite decide_False by (by apply join_with_nonempty; apply Forall_cons in Hvalid as [? _]).
  done.
Qed.

(** The [relPath] of an entry: the names down to it, joined by slashes. *)
Lemma relPath_join pre name :
  Forall (λ seg, valid_name seg = true) pre → valid_name name = true →
  (if decide (join_with "/" pre = "") then name
   else join (join_with "/" pre) name)
  = join_with "/" (pre ++ [name]).
Proof.
  intros Hpre Hname. destruct pre as [|seg pre].
  - by rewrite decide_True.
  - pose proof Hpre as [Hseg _]%Forall_cons.
    pose proof (join_with_nonempty seg pre Hseg) as Hne.
    rewrite decide_False by done.
    pose proof Hname as [(Hn & _) _]%valid_name_spec.
    assert (join (join_with "/" (seg :: pre)) name
            = normalize (join_with "/" (seg :: pre) ++ "/" ++ name)) as ->.
    { destruct (join_with "/" (seg :: pre)); [done|]. by destruct name. }
    rewrite <- join_with_snoc by done.
    apply normalize_valid; [done|].
    apply Forall_app. split; [done|]. by constructor.
Qed.

(** *** The scan enumerates [image_paths] *)

Lemma wellformed_Dir readable entries :
  wellformed (Dir readable entries) = true →
  Forall (λ e, valid_name e.1 = true ∧ wellformed e.2 = true) entries
  ∧ NoDup (entries.*1).
Proof.
  cbn [wellformed]. intros [Hall Hnd]%andb_prop. split.
  - apply Forall_forall. intros e He%list_elem_of_In.
    rewrite forallb_forall in Hall. by apply Hall, andb_prop in He.
  - by apply bool_decide_eq_true in Hnd.
Qed.

Lemma all_readable_Dir readable entries :
  all_readable (Dir readable entries) = true →
  readable = true ∧ Forall (λ e, all_readable e.2 = true) entries.
Proof.
  cbn [all_readable]. intros [Hr Hall]%andb_prop. split; [done|].
  apply Forall_forall. intros e He%list_elem_of_In.
  rewrite forallb_forall in Hall. by apply Hall.
Qed.

Lemma image_paths_Dir readable entries :
  image_paths (Dir readable entries) = flat_map entry_paths entries.
Proof. done. Qed.

Lemma render_cons pre name segs :
  render pre (name :: segs) = render (pre ++ [name]) segs.
Proof. unfold render. by rewrite <- app_assoc. Qed.

Lemma scan_entries_paths entries pre :
  Forall (λ e, scan_correct e.2) entries →
  Forall (λ e, valid_name e.1 = true ∧ wellformed e.2 = true) entries →
  Forall (λ e, all_readable e.2 = true) entries →
  Forall (λ seg, valid_name seg = true) pre →
  ∀ images,
    scan_entries scanDir (join_with "/" pre) entries images
    = Return (images ++ map (render pre) (flat_map entry_paths entries))%list.
Proof.
  intros Hrec Hwf Hread Hpre.
  induction entries as [|[name entry] entries IH]; intros images.
  - cbn. by rewrite app_nil_r.
  - apply Forall_cons in Hrec as [Hentry Hrec].
    apply Forall_cons in Hwf as [[Hname Hwf1] Hwf].
    apply Forall_cons in Hread as [Hread1 Hread].
    specialize (IH Hrec Hwf Hread).
    cbn [scan_entries flat_map]. rewrite relPath_join by done.
    rewrite map_app, app_assoc.
    destruct entry as [mtime content|readable entries'| |mtime].
    + unfold entry_paths. cbn [fst snd].
      destruct (is_image name); rewrite IH; [|by rewrite app_nil_r].
      cbn [map]. unfold render at 2. done.
    + cbn [fst snd] in *.
      rewrite (Hentry (pre ++ [name])%list images); [| |done..].
      * rewrite IH. unfold entry_paths. cbn [fst snd].
        by rewrite map_map, (map_ext _ _ (render_cons pre name)).
      * apply Forall_app. split; [done|]. by constructor.
    + rewrite IH. unfold entry_paths. cbn [fst snd map]. by rewrite app_nil_r.
    + unfold entry_paths. cbn [fst snd].
      destruct (is_image name); rewrite IH; [|by rewrite app_nil_r].
      cbn [map]. unfold render at 2. done.
Qed.

Lemma scanDir_paths n : scan_correct n.
Proof.
  induction n as [mtime content| |mtime|readable entries IH] using node_tree_ind;
    intros pre images Hpre Hwf Hread; [done..|].
  apply wellformed_Dir in Hwf as [Hwf _].
  apply all_readable_Dir in Hread as [-> Hread].
  cbn [scanDir]. rewrite image_paths_Dir. by apply scan_entries_paths.
Qed.

(** *** [image_paths] and [image_at] *)

Lemma elem_of_flat_map {A B} (f : A → list B) (l : list A) (y : B) :
  y ∈ flat_map f l ↔ ∃ x, x ∈ l ∧ y ∈ f x.
Proof.
  rewrite list_elem_of_In, in_flat_map. split.
  - intros (x & Hx & Hy). exists x. by rewrite !list_elem_of_In.
  - intros (x & Hx & Hy). exists x. by rewrite <- !list_elem_of_In.
Qed.

Lemma elem_of_map {A B} (f : A → B) (l : list A) (y : B) :
  y ∈ map f l ↔ ∃ x, y = f x ∧ x ∈ l.
Proof.
  rewrite list_elem_of_In, in_map_iff. split.
  - intros (x & Hx & Hy). exists x. by rewrite list_elem_of_In.
  - intros (x & Hx & Hy). exists x. by rewrite <- list_elem_of_In.
Qed.

Lemma elem_of_entry_paths name entry segs :
  segs ∈ entry_paths (name, entry) ↔
  (is_regular entry = true ∧ is_image name = true ∧ segs = [name])
  ∨ (∃ readable entries segs', entry = Dir readable entries
       ∧ segs' ∈ image_paths entry ∧ segs = name :: segs').
Proof.
  assert (∀ paths, paths = (if is_image name then [[name]] else []) →
            segs ∈ paths ↔ is_image name = true ∧ segs = [name]) as Hleaf.
  { intros paths ->. destruct (is_image name).
    - rewrite list_elem_of_singleton. tauto.
    - split; [by intros ?%elem_of_nil|by intros [? _]]. }
  unfold entry_paths. cbn [fst snd].
  destruct entry as [mtime content|readable entries| |mtime].
  - rewrite (Hleaf _ eq_refl). split; [by left|].
    intros [(_ & ? & ?)|(? & ? & ? & [=] & _)]. done.
  - rewrite elem_of_map. split.
    + intros (segs' & -> & Hin). right. by exists readable, entries, segs'.
    + intros [([=] & _)|(? & ? & segs' & _ & Hin & ->)]. by exists segs'.
  - split; [by intros ?%elem_of_nil|].
    intros [([=] & _)|(? & ? & ? & [=] & _)].
  - rewrite (Hleaf _ eq_refl). split; [by left|].
    intros [(_ & ? & ?)|(? & ? & ? & [=] & _)]. done.
Qed.

Lemma image_paths_image_at n segs : segs ∈ image_paths n ↔ image_at n segs.
Proof.
  split.
  - revert segs.
    induction n as [mtime content| |mtime|readable entries IH] using node_tree_ind;
      intros segs; [by intros ?%elem_of_nil..|].
    rewrite image_paths_Dir, elem_of_flat_map.
    intros ([name entry] & Hin & Hsegs).
    apply elem_of_entry_paths in Hsegs
      as [(Hreg & Himg & ->)
         |(readable' & entries' & segs' & -> & Hsegs' & ->)].
    + apply (image_here _ _ _ entry); [done..|]. by apply is_image_spec.
    + eapply image_below; [done|].
      rewrite Forall_forall in IH. by apply (IH _ Hin).
  - induction 1 as [readable entries name entry Hin Hreg Hext
                   |readable entries name readable' entries' segs' Hin _ IH].
    + rewrite image_paths_Dir, elem_of_flat_map. eexists. split; [done|].
      apply elem_of_entry_paths. left. by rewrite is_image_spec.
    + rewrite image_paths_Dir, elem_of_flat_map. eexists. split; [done|].
      apply elem_of_entry_paths. right. by exists readable', entries', segs'.
Qed.

(** *** No path is listed twice *)

Lemma image_paths_valid n segs :
  wellformed n = true → segs ∈ image_paths n →
  segs ≠ [] ∧ Forall (λ seg, valid_name seg = true) segs.
Proof.
  revert segs.
  induction n as [mtime content| |mtime|readable entries IH] using node_tree_ind;
    intros segs Hwf; [by intros ?%elem_of_nil..|].
  apply wellformed_Dir in Hwf as [Hwf _].
  rewrite image_paths_Dir, elem_of_flat_map.
  intros ([name entry] & Hin & Hsegs).
  rewrite Forall_forall in IH, Hwf.
  destruct (Hwf _ Hin) as [Hname Hentry]. cbn [fst snd] in *.
  apply elem_of_entry_paths in Hsegs
    as [(Hreg & Himg & ->)
       |(readable' & entries' & segs' & -> & Hsegs' & ->)].
  - split; [done|]. by repeat constructor.
  - destruct (IH _ Hin segs' Hentry Hsegs') as [_ Hvalid].
    split; [done|]. by constructor.
Qed.

Lemma entry_paths_head e segs :
  segs ∈ entry_paths e → ∃ segs', segs = e.1 :: segs'.
Proof.
  destruct e as [name entry].
  intros [(_ & _ & ->)|(? & ? & segs' & _ & _ & ->)]%elem_of_entry_paths;
    eauto.
Qed.

Lemma NoDup_map_cons name (paths : list (list string)) :
  NoDup paths → NoDup (map (cons name) paths).
Proof.
  induction 1 as [|segs paths Hnotin _ IH]; [constructor|].
  cbn [map]. constructor; [|done].
  intros (segs' & [= ->] & Hin)%elem_of_map. done.
Qed.

Lemma NoDup_flat_map_entries entries :
  NoDup (entries.*1) →
  Forall (λ e, NoDup (entry_paths e)) entries →
  NoDup (flat_map entry_paths entries).
Proof.
  induction entries as [|e entries IH]; [constructor|].
  cbn [fmap list_fmap]. intros [Hfresh Hnd]%NoDup_cons [He Hall]%Forall_cons.
  cbn [flat_map]. apply NoDup_app. split; [done|]. split; [|by apply IH].
  intros segs [segs' ->]%entry_paths_head (e' & Hin & [segs'' Heq]%entry_paths_head)%elem_of_flat_map.
  apply Hfresh. injection Heq as -> _.
  apply list_elem_of_fmap. by exists e'.
Qed.

Lemma image_paths_NoDup n : wellformed n = true → NoDup (image_paths n).
Proof.
  induction n as [mtime content| |mtime|readable entries IH] using node_tree_ind;
    intros Hwf; [constructor..|].
  apply wellformed_Dir in Hwf as [Hwf Hnames].
  rewrite image_paths_Dir. apply NoDup_flat_map_entries; [done|].
  rewrite Forall_forall in IH, Hwf |- *. intros [name entry] Hin.
  destruct (Hwf _ Hin) as [_ Hentry]. specialize (IH _ Hin Hentry).
  unfold entry_paths. cbn [fst snd] in *.
  destruct entry;
    [destruct (is_image name); repeat constructor| |constructor
    |destruct (is_image name); repeat constructor].
  - by intros ?%elem_of_nil.
  - by apply NoDup_map_cons.
  - by intros ?%elem_of_nil.
Qed.

Lemma render_nil_inj segs1 segs2 :
  segs1 ≠ [] → Forall (λ seg, valid_name seg = true) segs1 →
  segs2 ≠ [] → Forall (λ seg, valid_name seg = true) segs2 →
  render [] segs1 = render [] segs2 → segs1 = segs2.
Proof.
  unfold render. cbn [app]. intros Hne1 [_ H1]%Forall_valid_plain
    Hne2 [_ H2]%Forall_valid_plain Heq.
  by rewrite <- (split_on_join segs1), <- (split_on_join segs2), Heq.
Qed.

Lemma NoDup_map_inj_on {A B} (f : A → B) (l : list A) :
  (∀ x y, x ∈ l → y ∈ l → f x = f y → x = y) → NoDup l → NoDup (map f l).
Proof.
  intros Hinj. induction 1 as [|x l Hnotin Hnd IH]; [constructor|].
  cbn [map]. constructor.
  - intros (y & Heq & Hin)%elem_of_map. apply Hnotin.
    rewrite (Hinj x y); [done|by left|by right|done].
  - apply IH. intros y z Hy Hz. apply Hinj; by right.
Qed.

(** *** The order of [sort] *)

Lemma units_lt_irrefl x : JSString.units_lt x x = false.
Proof.
  induction x as [|a x IH]; [done|]. cbn [JSString.units_lt].
  by rewrite Z.ltb_irrefl.
Qed.

Lemma units_lt_asym x y :
  JSString.units_lt x y = true → JSString.units_lt y x = false.
Proof.
  revert y. induction x as [|a x IH]; intros [|b y]; try done.
  cbn [JSString.units_lt].
  destruct (Z.ltb_spec a b), (Z.ltb_spec b a); try done; try lia. apply IH.
Qed.

Lemma units_lt_cotrans x y z :
  JSString.units_lt x z = true →
  JSString.units_lt x y = true ∨ JSString.units_lt y z = true.
Proof.
  revert y z. induction x as [|a x IH]; intros [|b y] [|c z]; try done;
    try (by left); try (by right).
  cbn [JSString.units_lt].
  destruct (Z.ltb_spec a c), (Z.ltb_spec c a), (Z.ltb_spec a b),
    (Z.ltb_spec b a), (Z.ltb_spec b c), (Z.ltb_spec c b);
    try done; try lia; try (by left); try (by right).
  apply IH.
Qed.

#[local] Instance js_le_total : Total JSString.le.
Proof.
  intros x y. unfold JSString.le, JSString.lt.
  destruct (JSString.units_lt (JSString.code_units y) (JSString.code_units x))
    eqn:Hlt; [|by left].
  right. by apply units_lt_asym.
Qed.

#[local] Instance js_le_trans : Transitive JSString.le.
Proof.
  intros x y z. unfold JSString.le, JSString.lt. intros Hxy Hyz.
  destruct (JSString.units_lt (JSString.code_units z) (JSString.code_units x))
    eqn:Hlt; [|done].
  destruct (units_lt_cotrans _ (JSString.code_units y) _ Hlt); congruence.
Qed.

Lemma insert_sorted_Permutation x l : insert_sorted x l ≡ₚ x :: l.
Proof.
  induction l as [|y l IH]; [done|]. cbn [insert_sorted].
  destruct (JSString.lt y x); [|done].
  rewrite IH. apply Permutation_swap.
Qed.

Lemma sort_Permutation l : sort l ≡ₚ l.
Proof.
  induction l as [|x l IH]; [done|].
  unfold sort. cbn [foldr]. fold (sort l).
  by rewrite insert_sorted_Permutation, IH.
Qed.

Lemma insert_sorted_StronglySorted x l :
  StronglySorted JSString.le l → StronglySorted JSString.le (insert_sorted x l).
Proof.
  induction 1 as [|y l Hl IH Hall]; [by repeat constructor|].
  cbn [insert_sorted]. destruct (JSString.lt y x) eqn:Hlt.
  - constructor; [done|]. rewrite insert_sorted_Permutation.
    constructor; [|done]. by apply units_lt_asym.
  - constructor; [by constructor|]. constructor; [done|].
    eapply Forall_impl; [exact Hall|]. intros z Hz. by trans y.
Qed.

Lemma sort_StronglySorted l : StronglySorted JSString.le (sort l).
Proof.
  induction l as [|x l IH]; [constructor|].
  unfold sort. cbn [foldr]. by apply insert_sorted_StronglySorted.
Qed.

Lemma elem_of_sort x l : x ∈ sort l ↔ x ∈ l.
Proof. by rewrite sort_Permutation. Qed.

(** Code units, not bytes or code points, decide: an emoji outside the
    basic plane is a surrogate pair and sorts before [U+FF5E]. *)
Lemma sort_orders_by_code_units :
  sort ["～.jpg"; "😀.jpg"; "b.jpg"; "a.jpg"; "Z.jpg"]
  = ["Z.jpg"; "a.jpg"; "b.jpg"; "😀.jpg"; "～.jpg"].
Proof. by vm_compute. Qed.

(** The listing of a readable, well-formed directory. *)
Lemma getAllImages_listing w dirPath readable entries :
  locate (files w) dirPath = Some (Dir readable entries) →
  wellformed (Dir readable entries) = true →
  all_readable (Dir readable entries) = true →
  getAllImages dirPath w
  = (Return (sort (map (render []) (image_paths (Dir readable entries)))), w).
Proof.
  intros Hloc Hwf Hread.
  unfold getAllImages, mbind, IO_bind, bind, get_files, of_outcome. rewrite Hloc.
  pose proof (scanDir_paths (Dir readable entries) [] [] (Forall_nil_2 _) Hwf Hread)
    as Hscan.
  cbn [join_with concat app] in Hscan. by rewrite Hscan.
Qed.
End listing_facts.

(** C9, as stated, fails for a tree with a folder that cannot be read:
    the scan of [/album] throws and gives no listing, although the regular
    file [a.jpg] with an allowed extension lies in it. *)
Lemma unreadable_folder_has_no_listing :
  locate example_fs "/album"
  = Some (Dir true [("a.jpg", File 1700000000004 "jpeg bytes");
                    ("locked", Dir false [("hidden.jpg", File 1700000000005 "jpeg bytes")])])
  ∧ image_at (Dir true [("a.jpg", File 1700000000004 "jpeg bytes");
                        ("locked", Dir false [("hidden.jpg", File 1700000000005 "jpeg bytes")])])
      ["a.jpg"]
  ∧ getAllImages "/album" example_world = (Throw EACCES, example_world).
Proof.
  split; [by vm_compute|]. split; [|by vm_compute].
  eapply image_here; [by left|done|].
  exists "a", "jpg". split; [|done]. by left.
Qed.

(** C9, amended.  For a directory tree all of whose directories can be
    read, the listing consists of exactly the regular files whose name ends
    in a dot and an allowed extension (letter case ignored), each once, as
    slash-joined paths relative to the scanned directory, in the order of
    the strings' UTF-16 code units; on the directory of the specification's
    example it is [a.JPG], [b.png], [sub/c.webp].  When some directory of
    the tree cannot be read the scan throws and there is no listing. *)
Theorem readable_tree_is_listed_in_order
    w dirPath readable entries :
  locate (files w) dirPath = Some (Dir readable entries) →
  wellformed (Dir readable entries) = true →
  (all_readable (Dir readable entries) = true →
   ∃ images,
     getAllImages dirPath w = (Return images, w)
     ∧ StronglySorted JSString.le images
     ∧ NoDup images
     ∧ ∀ p, p ∈ images ↔
            ∃ segments, image_at (Dir readable entries) segments
                        ∧ p = join_with "/" segments)
  ∧ (all_readable (Dir readable entries) = false →
     ∃ e, getAllImages dirPath w = (Throw e, w))
  ∧ getAllImages "/photos" example_world
    = (Return ["a.JPG"; "b.png"; "sub/c.webp"], example_world).
Proof.
  intros Hloc Hwf. split; [|split; [by apply getAllImages_unreadable|by vm_compute]].
  intros Hread.
  eexists. split; [by apply getAllImages_listing|].
  split; [apply sort_StronglySorted|]. split.
  - rewrite sort_Permutation.
    apply NoDup_map_inj_on; [|by apply image_paths_NoDup].
    intros segs1 segs2 [? ?]%image_paths_valid [? ?]%image_paths_valid; try done.
    by apply render_nil_inj.
  - intros p. rewrite elem_of_sort, elem_of_map.
    split; intros (segs & H1 & H2); exists segs.
    + by apply image_paths_image_at in H2.
    + by apply image_paths_image_at in H1.
Qed.

Lemma readable_tree_is_listed_in_order_witness :
  ∃ images,
    getAllImages "/photos" example_world = (Return images, example_world)
    ∧ StronglySorted JSString.le images
    ∧ NoDup images.
Proof.
  destruct (readable_tree_is_listed_in_order example_world "/photos" true
              [("b.png", File 1700000000000 "png bytes");
               ("a.JPG", File 1700000000001 "jpeg bytes");
               ("sub", Dir true [("c.webp", File 1700000000002 "webp bytes")]);
               ("notes.txt", File 1700000000003 "text")])
    as (Hlisting & _).
  - vm_compute. reflexivity.
  - vm_compute. reflexivity.
  - destruct Hlisting as (images & Hget & Hsorted & Hnodup & _).
    + vm_compute. reflexivity.
    + exists images. split; [exact Hget|]. split; [exact Hsorted|exact Hnodup].
Defined.

(* ================================================================== *)
(** ** More about [resolvePhotoPath] *)
(* ================================================================== *)

Import NodeMore.

Section resolve_more.
Local Open Scope string_scope.
Implicit Types (w : world) (s urlPath : string) (dirs : list string).

Lemma world_eta w : {| files := files w; calls := calls w |} = w.
Proof. by destruct w. Qed.

Lemma fs_access_result p w :
  fs_access p w
  = (match locate (files w) p with Some _ => Return tt | None => Throw ENOENT end,
     {| files := files w; calls := calls w ++ [CallAccess p] |}).
Proof.
  unfold fs_access, mbind, IO_bind, bind, record_call, get_files, ret, throw.
  cbn [files calls]. by destruct (locate (files w) p).
Qed.

(** The library the compatibility search settles on: the first one under
    which the path exists. *)
Lemma probe_result dirs cleanUrl w :
  ∃ probes,
    probe dirs cleanUrl w
    = (Return ((λ dir, Entry (join dir cleanUrl) dir cleanUrl)
               <$> List.find (λ dir, bool_decide (is_Some (locate (files w) (join dir cleanUrl)))) dirs),
       {| files := files w; calls := calls w ++ map CallAccess probes |})
    ∧ ∀ p, p ∈ probes → ∃ dir, dir ∈ dirs ∧ p = join dir cleanUrl.
Proof.
  revert w. induction dirs as [|dir dirs IH]; intros w.
  - exists []. cbn. rewrite app_nil_r, world_eta. split; [done|].
    by intros p ?%elem_of_nil.
  - cbn [probe List.find]. unfold try_catch, mbind, IO_bind, bind.
    rewrite fs_access_result.
    destruct (locate (files w) (join dir cleanUrl)) as [n|] eqn:Hloc.
    + exists [join dir cleanUrl]. rewrite bool_decide_eq_true_2 by eauto.
      split; [done|]. intros p ->%list_elem_of_singleton. exists dir. split; [by left|done].
    + rewrite bool_decide_eq_false_2 by (by intros [? ?]).
      destruct (IH {| files := files w;
                      calls := calls w ++ [CallAccess (join dir cleanUrl)] |})
        as (probes & -> & Hprobes).
      exists (join dir cleanUrl :: probes). cbn [files calls map].
      rewrite <- app_assoc. split; [done|].
      intros p [->|Hp]%elem_of_cons.
      * exists dir. split; [by left|done].
      * destruct (Hprobes p Hp) as (d & ? & ?). exists d. split; [by right|done].
Qed.

Lemma drop_trailing_no_slash s : ends_with_slash (drop_trailing slash s) = false.
Proof.
  induction s as [|x s IH]; [done|]. cbn [drop_trailing].
  destruct (drop_trailing slash s) as [|y t] eqn:Ht.
  - destruct (Ascii.eqb x slash) eqn:Hx; [done|]. cbn. by rewrite Hx.
  - done.
Qed.

Lemma drop_leading_fixed s : starts_with_slash s = false → drop_leading slash s = s.
Proof. destruct s as [|x s]; [done|]. cbn. by intros ->. Qed.

Lemma drop_trailing_fixed s : ends_with_slash s = false → drop_trailing slash s = s.
Proof.
  induction s as [|x s IH]; [done|]. cbn [ends_with_slash drop_trailing].
  destruct s as [|y s].
  - intros ->. done.
  - intros Hs. by rewrite IH.
Qed.

Lemma strip_slashes_idempotent s : strip_slashes (strip_slashes s) = strip_slashes s.
Proof.
  unfold strip_slashes at 1.
  rewrite drop_leading_fixed by apply strip_slashes_relative.
  apply drop_trailing_fixed, drop_trailing_no_slash.
Qed.

Lemma drop_trailing_snoc s : drop_trailing slash (s ++ "/") = drop_trailing slash s.
Proof.
  induction s as [|x s IH]; [done|].
  rewrite append_cons. cbn [drop_trailing]. by rewrite IH.
Qed.

Lemma drop_leading_snoc s :
  drop_leading slash s ≠ "" → drop_leading slash (s ++ "/") = drop_leading slash s ++ "/".
Proof.
  induction s as [|x s IH]; [done|]. rewrite append_cons. cbn [drop_leading].
  destruct (Ascii.eqb x slash); [done|]. intros _. by rewrite append_cons.
Qed.

Lemma drop_leading_all_slashes s :
  drop_leading slash s = "" → drop_leading slash (s ++ "/") = "".
Proof.
  induction s as [|x s IH]; [done|]. rewrite append_cons. cbn [drop_leading].
  by destruct (Ascii.eqb x slash).
Qed.

Lemma strip_slashes_snoc s : strip_slashes (s ++ "/") = strip_slashes s.
Proof.
  unfold strip_slashes.
  destruct (decide (drop_leading slash s = "")) as [He|Hne].
  - by rewrite He, drop_leading_all_slashes.
  - by rewrite drop_leading_snoc, drop_trailing_snoc.
Qed.

Lemma resolvePhotoPath_depends_on_clean PHOTO_DIRS urlPath urlPath' :
  strip_slashes urlPath = strip_slashes urlPath' →
  resolvePhotoPath PHOTO_DIRS urlPath = resolvePhotoPath PHOTO_DIRS urlPath'.
Proof. intros H. unfold resolvePhotoPath. by rewrite H. Qed.
End resolve_more.

Lemma resolvePhotoPath_probes PHOTO_DIRS urlPath w :
  ∃ result probes,
    resolvePhotoPath PHOTO_DIRS urlPath w
    = (Return result,
       {| files := files w; calls := calls w ++ map CallAccess probes |})
    ∧ ∀ p, p ∈ probes →
        ∃ dir, dir ∈ configured_dirs PHOTO_DIRS
               ∧ p = join dir (strip_slashes urlPath).
Proof.
  assert (∀ r : option ResolveResult, ∃ result probes,
    (Return r, w) = (Return result,
       {| files := files w; calls := calls w ++ map CallAccess probes |})
    ∧ ∀ p, p ∈ probes →
        ∃ dir, dir ∈ configured_dirs PHOTO_DIRS
               ∧ p = join dir (strip_slashes urlPath)) as Hquiet.
  { intros r. exists r, []. cbn. rewrite app_nil_r, world_eta.
    split; [done|]. by intros p ?%elem_of_nil. }
  unfold resolvePhotoPath.
  destruct (configured_dirs PHOTO_DIRS) as [|firstDir dirs] eqn:Hdirs;
    [apply Hquiet|].
  case_decide; [apply Hquiet|].
  destruct (truthy _); [apply Hquiet|].
  unfold mbind, IO_bind, bind.
  destruct (probe_result (firstDir :: dirs) (strip_slashes urlPath) w)
    as (probes & -> & Hprobes).
  destruct (List.find _ _); cbn [fmap option_fmap option_map]; by eexists _, probes.
Qed.

(** X1.  [resolvePhotoPath] never throws and never changes the filesystem;
    the only filesystem calls it makes are [fs.access] probes of the whole
    cleaned path under configured libraries. *)
Theorem resolvePhotoPath_only_probes PHOTO_DIRS urlPath w :
  ∃ result probes,
    resolvePhotoPath PHOTO_DIRS urlPath w
    = (Return result,
       {| files := files w; calls := calls w ++ map CallAccess probes |})
    ∧ ∀ p, p ∈ probes →
        ∃ dir, dir ∈ configured_dirs PHOTO_DIRS
               ∧ p = join dir (strip_slashes urlPath).
Proof. apply resolvePhotoPath_probes. Qed.

(** X2.  Slashes at either end of the logical path make no difference to
    the resolution. *)
Theorem resolvePhotoPath_ignores_outer_slashes PHOTO_DIRS urlPath :
  resolvePhotoPath PHOTO_DIRS ("/" ++ urlPath) = resolvePhotoPath PHOTO_DIRS urlPath
  ∧ resolvePhotoPath PHOTO_DIRS (urlPath ++ "/") = resolvePhotoPath PHOTO_DIRS urlPath
  ∧ resolvePhotoPath PHOTO_DIRS (strip_slashes urlPath)
    = resolvePhotoPath PHOTO_DIRS urlPath.
Proof.
  split; [|split].
  - by apply (resolvePhotoPath_depends_on_clean _ ("/" ++ urlPath) urlPath).
  - apply (resolvePhotoPath_depends_on_clean _ (urlPath ++ "/") urlPath).
    apply strip_slashes_snoc.
  - apply (resolvePhotoPath_depends_on_clean _ (strip_slashes urlPath) urlPath).
    apply strip_slashes_idempotent.
Qed.

(** X3.  With a library configured, the root listing is the answer exactly
    for the paths that are empty once the outer slashes are gone; it names
    all configured directories and is given without any filesystem call. *)
Theorem resolvePhotoPath_root PHOTO_DIRS urlPath w :
  configured_dirs PHOTO_DIRS ≠ [] →
  (strip_slashes urlPath = "" →
   resolvePhotoPath PHOTO_DIRS urlPath w
   = (Return (Some (Root (configured_dirs PHOTO_DIRS))), w))
  ∧ (∀ dirs, (resolvePhotoPath PHOTO_DIRS urlPath w).1 = Return (Some (Root dirs)) →
       strip_slashes urlPath = "" ∧ dirs = configured_dirs PHOTO_DIRS).
Proof.
  intros Hne. unfold resolvePhotoPath.
  destruct (configured_dirs PHOTO_DIRS) as [|firstDir dirs'] eqn:Hdirs; [done|].
  split.
  - intros ->. by rewrite decide_True.
  - intros dirs. case_decide as Hclean; [by intros [= <-]|].
    destruct (truthy _); [done|].
    unfold mbind, IO_bind, bind.
    destruct (probe_result (firstDir :: dirs') (strip_slashes urlPath) w)
      as (probes & -> & _).
    by destruct (List.find _ _).
Qed.

Lemma resolvePhotoPath_root_witness :
  resolvePhotoPath (Some "/photos,/album") "///" example_world
  = (Return (Some (Root ["/photos"; "/album"])), example_world).
Proof.
  apply (resolvePhotoPath_root (Some "/photos,/album") "///" example_world).
  - vm_compute. discriminate.
  - vm_compute. reflexivity.
Defined.

(** X4.  When no configured library has the first segment as its alias, the
    whole cleaned path is looked up under each library in configuration
    order: the first library under which it exists is selected, and the
    first configured library when it exists under none. *)
Theorem resolvePhotoPath_compatibility_search PHOTO_DIRS urlPath w firstDir rest :
  configured_dirs PHOTO_DIRS = firstDir :: rest →
  strip_slashes urlPath ≠ "" →
  (∀ dir, dir ∈ configured_dirs PHOTO_DIRS →
     alias dir ≠ first_segment (strip_slashes urlPath)) →
  let selected :=
    default firstDir
      (List.find (λ dir, bool_decide
                    (is_Some (locate (files w) (join dir (strip_slashes urlPath)))))
         (firstDir :: rest)) in
  (resolvePhotoPath PHOTO_DIRS urlPath w).1
  = Return (Some (Entry (join selected (strip_slashes urlPath)) selected
                        (strip_slashes urlPath))).
Proof.
  intros Hdirs Hclean Hnoalias selected. unfold resolvePhotoPath.
  rewrite Hdirs, decide_False by done.
  destruct (List.find (λ dir, String.eqb (basename dir) _) _) as [d|] eqn:Hfind.
  { apply find_alias_some in Hfind as [Hin Heq]. rewrite <- Hdirs in Hin.
    exfalso. apply (Hnoalias d Hin). exact Heq. }
  cbn [truthy]. unfold mbind, IO_bind, bind.
  destruct (probe_result (firstDir :: rest) (strip_slashes urlPath) w)
    as (probes & -> & _).
  subst selected. clear Hfind. destruct (List.find _ _); reflexivity.
Qed.

Lemma resolvePhotoPath_compatibility_search_witness :
  (resolvePhotoPath (Some "/album,/photos") "sub/c.webp" example_world).1
  = Return (Some (Entry "/photos/sub/c.webp" "/photos" "sub/c.webp")).
Proof.
  apply (resolvePhotoPath_compatibility_search
           (Some "/album,/photos") "sub/c.webp" example_world "/album" ["/photos"]).
  - vm_compute. reflexivity.
  - vm_compute. discriminate.
  - intros dir Hin. vm_compute in Hin.
    apply elem_of_cons in Hin as [->|Hin]; [vm_compute; discriminate|].
    apply elem_of_cons in Hin as [->|Hin]; [vm_compute; discriminate|].
    by apply elem_of_nil in Hin.
Defined.

(* ================================================================== *)
(** ** More about the file and thumbnail loaders *)
(* ================================================================== *)

Section api_more.
Local Open Scope string_scope.
Implicit Types (w : world) (p : string).

Lemma fs_stat_result p w :
  fs_stat p w
  = (match locate (files w) p with
     | Some n => Return (stats_of n)
     | None => Throw ENOENT
     end,
     {| files := files w; calls := calls w ++ [CallStat p] |}).
Proof.
  unfold fs_stat, mbind, IO_bind, bind, record_call, get_files, ret, throw.
  cbn [files calls]. by destruct (locate (files w) p).
Qed.

Lemma fs_readFile_result p w :
  fs_readFile p w
  = (match locate (files w) p with
     | Some (File _ content) => Return content
     | Some (LockedFile _) => Throw EACCES
     | Some (Dir _ _) => Throw EISDIR
     | Some Other => Throw EINVAL
     | None => Throw ENOENT
     end,
     {| files := files w; calls := calls w ++ [CallReadFile p] |}).
Proof.
  unfold fs_readFile, mbind, IO_bind, bind, record_call, get_files, ret, throw.
  cbn [files calls]. by destruct (locate (files w) p) as [[]|].
Qed.

Lemma resolvePhotoPath_files PHOTO_DIRS urlPath w :
  ∃ result w', resolvePhotoPath PHOTO_DIRS urlPath w = (Return result, w')
               ∧ files w' = files w.
Proof.
  destruct (resolvePhotoPath_probes PHOTO_DIRS urlPath w)
    as (result & probes & -> & _). by eexists _, _.
Qed.

Lemma photos_loader_open (P : Platform) rr_request PHOTO_DIRS args :
  match rr_request with
  | Some req => isAuthenticated P req = true
  | None => True
  end →
  photos_loader P rr_request PHOTO_DIRS args = OpenApi.loader PHOTO_DIRS args.
Proof.
  unfold photos_loader, OpenApi.loader.
  destruct rr_request as [req|]; [|done]. by intros ->.
Qed.

(** What the file loader answers: the file's bytes when the resolved path
    names a regular file that can be read, 404 in every other case. *)
Lemma open_loader_answer PHOTO_DIRS args w :
  ∃ response w',
    OpenApi.loader PHOTO_DIRS args w = (Return response, w')
    ∧ files w' = files w
    ∧ ((∃ fullPath baseDir relativePath mtime content,
          (resolvePhotoPath PHOTO_DIRS (splat args) w).1
            = Return (Some (Entry fullPath baseDir relativePath))
          ∧ locate (files w) fullPath = Some (File mtime content)
          ∧ response
            = file_response content (getMimeType (toLowerCase (extname fullPath))))
       ∨ (response = text_response "File not found" 404
          ∧ ∀ fullPath baseDir relativePath,
              (resolvePhotoPath PHOTO_DIRS (splat args) w).1
                = Return (Some (Entry fullPath baseDir relativePath)) →
              ∀ mtime content,
                locate (files w) fullPath ≠ Some (File mtime content))).
Proof.
  unfold OpenApi.loader, mbind, IO_bind, bind.
  destruct (resolvePhotoPath_files PHOTO_DIRS (splat args) w)
    as (result & w1 & Hres & Hfiles).
  rewrite Hres. cbn [fst].
  destruct result as [[dirs|fullPath baseDir relativePath]|].
  - eexists _, _. split; [done|]. split; [done|]. right. split; [done|]. done.
  - unfold try_catch, mbind, IO_bind, bind.
    rewrite fs_stat_result, Hfiles.
    destruct (locate (files w) fullPath)
      as [[mtime content|readable entries| |mtime]|] eqn:Hloc;
      cbn [stats_of isFile].
    + rewrite fs_readFile_result. cbn [files]. rewrite Hloc.
      eexists _, _. split; [done|]. split; [done|]. left.
      by exists fullPath, baseDir, relativePath, mtime, content.
    + eexists _, _. split; [done|]. split; [done|]. right. split; [done|].
      intros ??? [= <- <- <-] ??. by rewrite Hloc.
    + eexists _, _. split; [done|]. split; [done|]. right. split; [done|].
      intros ??? [= <- <- <-] ??. by rewrite Hloc.
    + rewrite fs_readFile_result. cbn [files]. rewrite Hloc.
      eexists _, _. split; [done|]. split; [done|]. right. split; [done|].
      intros ??? [= <- <- <-] ??. by rewrite Hloc.
    + eexists _, _. split; [done|]. split; [done|]. right. split; [done|].
      intros ??? [= <- <- <-] ??. by rewrite Hloc.
  - eexists _, _. split; [done|]. split; [done|]. right. split; [done|]. done.
Qed.
End api_more.

(** X5.  The file loader never throws and never changes the filesystem:
    it answers 200 with the file's bytes exactly when the resolved path
    names a regular file that can be read ([File]), and 404
    "File not found" otherwise, also for a regular file that cannot be
    read; the guarded loader answers the same when no request is reachable
    or the request is authenticated. *)
Theorem file_loader_serves_regular_files_only
    (P : Platform) rr_request PHOTO_DIRS args w :
  match rr_request with
  | Some req => isAuthenticated P req = true
  | None => True
  end →
  ∃ response w',
    OpenApi.loader PHOTO_DIRS args w = (Return response, w')
    ∧ photos_loader P rr_request PHOTO_DIRS args w = (Return response, w')
    ∧ files w' = files w
    ∧ ((∃ fullPath baseDir relativePath mtime content,
          (resolvePhotoPath PHOTO_DIRS (splat args) w).1
            = Return (Some (Entry fullPath baseDir relativePath))
          ∧ locate (files w) fullPath = Some (File mtime content)
          ∧ response
            = file_response content (getMimeType (toLowerCase (extname fullPath))))
       ∨ (response = text_response "File not found" 404
          ∧ ∀ fullPath baseDir relativePath,
              (resolvePhotoPath PHOTO_DIRS (splat args) w).1
                = Return (Some (Entry fullPath baseDir relativePath)) →
              ∀ mtime content,
                locate (files w) fullPath ≠ Some (File mtime content))).
Proof.
  intros Hauth. rewrite (photos_loader_open P rr_request PHOTO_DIRS args Hauth).
  destruct (open_loader_answer PHOTO_DIRS args w) as (response & w' & H1 & H2 & H3).
  by exists response, w'.
Qed.

Lemma file_loader_serves_regular_files_only_witness :
  ∃ response w',
    OpenApi.loader (Some "/photos") (request_for "photos/b.png") example_world
    = (Return response, w')
    ∧ photos_loader example_platform (Some {| cookie_header := Some "1" |})
        (Some "/photos") (request_for "photos/b.png") example_world
      = (Return response, w').
Proof.
  destruct (file_loader_serves_regular_files_only example_platform
              (Some {| cookie_header := Some "1" |}) (Some "/photos")
              (request_for "photos/b.png") example_world)
    as (response & w' & H1 & H2 & _).
  - vm_compute. reflexivity.
  - by exists response, w'.
Defined.

Import MoreExamples.

Section thumbnail_facts.
Local Open Scope string_scope.
Context (P : Platform).
Implicit Types (w : world) (p : string).

(** The cache file of a source file: [CACHE_DIR] joined with the digest of
    path and modification time. *)
Lemma thumbnails_loader_cache_hit PHOTO_DIRS args w w1
    fullPath baseDir relativePath mtime content cacheMtime cached :
  resolvePhotoPath PHOTO_DIRS (splat args) w
    = (Return (Some (Entry fullPath baseDir relativePath)), w1) →
  locate (files w) fullPath = Some (File mtime content) →
  locate (files w)
    (join (CACHE_DIR (files w))
       (md5_hex P (fullPath ++ number_to_string P mtime) ++ ".webp"))
    = Some (File cacheMtime cached) →
  thumbnails_loader P None PHOTO_DIRS args w
  = (Return (file_response cached "image/webp"),
     {| files := files w;
        calls := calls w1 ++
          [CallStat fullPath;
           CallReadFile (join (CACHE_DIR (files w))
             (md5_hex P (fullPath ++ number_to_string P mtime) ++ ".webp"))] |}).
Proof.
  intros Hres Hloc Hcache.
  destruct (resolvePhotoPath_files PHOTO_DIRS (splat args) w)
    as (result & w1' & Hres' & Hfiles).
  rewrite Hres in Hres'. injection Hres' as <- <-.
  unfold thumbnails_loader, mbind, IO_bind, bind. rewrite Hres.
  unfold try_catch, mbind, IO_bind, bind.
  rewrite fs_stat_result, Hfiles, Hloc. cbn [stats_of isFile stat_mtimeMs negb].
  unfold get_files. cbn [files].
  rewrite fs_readFile_result. cbn [files calls]. rewrite Hcache.
  unfold ret. by rewrite <- app_assoc.
Qed.

Lemma thumbnails_loader_generates PHOTO_DIRS args w w1
    fullPath baseDir relativePath mtime content :
  resolvePhotoPath PHOTO_DIRS (splat args) w
    = (Return (Some (Entry fullPath baseDir relativePath)), w1) →
  locate (files w) fullPath = Some (File mtime content) →
  let cachePath :=
    join (CACHE_DIR (files w))
      (md5_hex P (fullPath ++ number_to_string P mtime) ++ ".webp") in
  locate (files w) cachePath = None →
  thumbnails_loader P None PHOTO_DIRS args w
  = match sharp_toFile P (files w) fullPath cachePath with
    | Throw _ =>
        (Return (text_response "Error generating thumbnail" 500),
         {| files := files w;
            calls := calls w1 ++ [CallStat fullPath; CallReadFile cachePath;
                                  CallSharp fullPath cachePath] |})
    | Return fs' =>
        (match locate fs' cachePath with
         | Some (File _ thumbnail) => Return (file_response thumbnail "image/webp")
         | _ => Return (text_response "Error generating thumbnail" 500)
         end,
         {| files := fs';
            calls := calls w1 ++ [CallStat fullPath; CallReadFile cachePath;
                                  CallSharp fullPath cachePath;
                                  CallReadFile cachePath] |})
    end.
Proof.
  intros Hres Hloc cachePath Hcache.
  destruct (resolvePhotoPath_files PHOTO_DIRS (splat args) w)
    as (result & w1' & Hres' & Hfiles).
  rewrite Hres in Hres'. injection Hres' as <- <-.
  unfold thumbnails_loader, mbind, IO_bind, bind. rewrite Hres.
  unfold try_catch, mbind, IO_bind, bind.
  rewrite fs_stat_result, Hfiles, Hloc. cbn [stats_of isFile stat_mtimeMs negb].
  unfold get_files. cbn [files].
  rewrite fs_readFile_result. cbn [files calls]. fold cachePath. rewrite Hcache.
  unfold ret, record_call, of_outcome, put_files. cbn [files calls].
  destruct (sharp_toFile P (files w) fullPath cachePath) as [fs'|e].
  - rewrite fs_readFile_result. cbn [files calls].
    rewrite <- !app_assoc. cbn [app].
    by destruct (locate fs' cachePath) as [[]|].
  - by rewrite <- !app_assoc.
Qed.
End thumbnail_facts.

Section thumbnail_answers.
Local Open Scope string_scope.
Context (P : Platform).

Local Ltac answered :=
  eexists _, _; split; [reflexivity|];
  apply list_elem_of_In; cbn; tauto.

Lemma thumbnails_loader_answers rr_request PHOTO_DIRS args w :
  ∃ response w',
    thumbnails_loader P rr_request PHOTO_DIRS args w = (Return response, w')
    ∧ status response ∈ [200; 401; 404; 500]%Z.
Proof.
  assert (∃ response w',
    thumbnails_loader P None PHOTO_DIRS args w = (Return response, w')
    ∧ status response ∈ [200; 401; 404; 500]%Z) as Hserve.
  { unfold thumbnails_loader, mbind, IO_bind, bind.
    destruct (resolvePhotoPath_files PHOTO_DIRS (splat args) w)
      as (result & w1 & -> & _).
    destruct result as [[dirs|fullPath baseDir relativePath]|]; [answered| |answered].
    unfold try_catch, mbind, IO_bind, bind. rewrite fs_stat_result.
    destruct (locate (files w1) fullPath) as [source|]; [|answered].
    destruct (isFile (stats_of source)); cbn [negb]; [|answered].
    unfold get_files. cbn [files]. rewrite fs_readFile_result. cbn [files calls].
    destruct (locate (files w1) _)
      as [[cacheMtime cached|readable entries| |cacheMtime]|];
      [answered|..];
      unfold ret, record_call, of_outcome, put_files; cbn [files calls];
      (destruct (sharp_toFile P _ _ _) as [fs'|e]; [|answered]);
      rewrite fs_readFile_result; cbn [files calls];
      destruct (locate fs' _) as [[]|]; answered. }
  destruct rr_request as [req|]; [|exact Hserve].
  unfold thumbnails_loader in *. destruct (isAuthenticated P req); [exact Hserve|].
  answered.
Qed.
End thumbnail_answers.

(** X6.  The thumbnail loader never throws: whatever the request, the
    configuration, the filesystem and the outcome of the image pipeline, it
    returns a response, whose status is 200, 401, 404 or 500. *)
Theorem thumbnails_loader_always_answers
    (P : Platform) rr_request PHOTO_DIRS args w :
  ∃ response w',
    thumbnails_loader P rr_request PHOTO_DIRS args w = (Return response, w')
    ∧ status response ∈ [200; 401; 404; 500]%Z.
Proof. apply thumbnails_loader_answers. Qed.

(** X7.  Cache hit: when the source is a regular file and the cache file
    named after its path and modification time exists, the loader returns
    that file's bytes as [image/webp] after one [stat] and one [readFile],
    without running the image pipeline and without changing the
    filesystem. *)
Theorem thumbnail_cache_hit_is_served_verbatim
    (P : Platform) PHOTO_DIRS args w w1
    fullPath baseDir relativePath mtime content cacheMtime cached :
  resolvePhotoPath PHOTO_DIRS (splat args) w
    = (Return (Some (Entry fullPath baseDir relativePath)), w1) →
  locate (files w) fullPath = Some (File mtime content) →
  locate (files w)
    (join (CACHE_DIR (files w))
       (md5_hex P (fullPath ++ number_to_string P mtime) ++ ".webp"))
    = Some (File cacheMtime cached) →
  thumbnails_loader P None PHOTO_DIRS args w
  = (Return (file_response cached "image/webp"),
     {| files := files w;
        calls := calls w1 ++
          [CallStat fullPath;
           CallReadFile (join (CACHE_DIR (files w))
             (md5_hex P (fullPath ++ number_to_string P mtime) ++ ".webp"))] |}).
Proof. apply thumbnails_loader_cache_hit. Qed.

Lemma thumbnail_cache_hit_is_served_verbatim_witness :
  thumbnails_loader example_platform None (Some "/photos")
    (request_for "photos/a.JPG") cached_world
  = (Return (file_response "thumbnail bytes" "image/webp"),
     {| files := cached_fs;
        calls := [CallStat "/photos/a.JPG";
                  CallReadFile "/srv/app/.cache/thumbnails/d41d8cd98f00b204e9800998ecf8427e.webp"] |}).
Proof.
  apply (thumbnail_cache_hit_is_served_verbatim example_platform (Some "/photos")
           (request_for "photos/a.JPG") cached_world cached_world
           "/photos/a.JPG" "/photos" "a.JPG" 1700000000001 "jpeg bytes"
           1700000000009 "thumbnail bytes").
  - vm_compute. reflexivity.
  - vm_compute. reflexivity.
  - vm_compute. reflexivity.
Defined.

(** X8.  Cache miss: when the cache file does not exist the image pipeline
    is run once on the source and the cache path.  If it throws, the answer
    is 500 and the filesystem is unchanged; otherwise the answer is the
    content of the cache file in the filesystem the pipeline leaves behind,
    and 500 if that file is not there. *)
Theorem thumbnail_cache_miss_runs_the_pipeline
    (P : Platform) PHOTO_DIRS args w w1
    fullPath baseDir relativePath mtime content :
  resolvePhotoPath PHOTO_DIRS (splat args) w
    = (Return (Some (Entry fullPath baseDir relativePath)), w1) →
  locate (files w) fullPath = Some (File mtime content) →
  locate (files w)
    (join (CACHE_DIR (files w))
       (md5_hex P (fullPath ++ number_to_string P mtime) ++ ".webp")) = None →
  thumbnails_loader P None PHOTO_DIRS args w
  = match sharp_toFile P (files w) fullPath
            (join (CACHE_DIR (files w))
               (md5_hex P (fullPath ++ number_to_string P mtime) ++ ".webp")) with
    | Throw _ =>
        (Return (text_response "Error generating thumbnail" 500),
         {| files := files w;
            calls := calls w1 ++
              [CallStat fullPath;
               CallReadFile (join (CACHE_DIR (files w))
                 (md5_hex P (fullPath ++ number_to_string P mtime) ++ ".webp"));
               CallSharp fullPath (join (CACHE_DIR (files w))
                 (md5_hex P (fullPath ++ number_to_string P mtime) ++ ".webp"))] |})
    | Return fs' =>
        (match locate fs' (join (CACHE_DIR (files w))
                 (md5_hex P (fullPath ++ number_to_string P mtime) ++ ".webp")) with
         | Some (File _ thumbnail) => Return (file_response thumbnail "image/webp")
         | _ => Return (text_response "Error generating thumbnail" 500)
         end,
         {| files := fs';
            calls := calls w1 ++
              [CallStat fullPath;
               CallReadFile (join (CACHE_DIR (files w))
                 (md5_hex P (fullPath ++ number_to_string P mtime) ++ ".webp"));
               CallSharp fullPath (join (CACHE_DIR (files w))
                 (md5_hex P (fullPath ++ number_to_string P mtime) ++ ".webp"));
               CallReadFile (join (CACHE_DIR (files w))
                 (md5_hex P (fullPath ++ number_to_string P mtime) ++ ".webp"))] |})
    end.
Proof. apply thumbnails_loader_generates. Qed.

Lemma thumbnail_cache_miss_runs_the_pipeline_witness :
  thumbnails_loader generating_platform None (Some "/photos")
    (request_for "photos/a.JPG") example_world
  = (Return (file_response "thumbnail bytes" "image/webp"),
     {| files := cached_fs;
        calls := [CallStat "/photos/a.JPG";
                  CallReadFile "/srv/app/.cache/thumbnails/d41d8cd98f00b204e9800998ecf8427e.webp";
                  CallSharp "/photos/a.JPG"
                    "/srv/app/.cache/thumbnails/d41d8cd98f00b204e9800998ecf8427e.webp";
                  CallReadFile "/srv/app/.cache/thumbnails/d41d8cd98f00b204e9800998ecf8427e.webp"] |}).
Proof.
  rewrite (thumbnail_cache_miss_runs_the_pipeline generating_platform (Some "/photos")
             (request_for "photos/a.JPG") example_world example_world
             "/photos/a.JPG" "/photos" "a.JPG" 1700000000001 "jpeg bytes").
  - vm_compute. reflexivity.
  - vm_compute. reflexivity.
  - vm_compute. reflexivity.
  - vm_compute. reflexivity.
Defined.

(** X9.  A thumbnail is generated once: when the first request misses the
    cache and the pipeline leaves the cache file behind without touching
    the source file, the working directory or the resolution of the path,
    a second request returns the same bytes from the cache and does not run
    the pipeline again. *)
Theorem thumbnail_is_generated_once
    (P : Platform) PHOTO_DIRS args w w1
    fullPath baseDir relativePath mtime content fs' cacheMtime thumbnail :
  resolvePhotoPath PHOTO_DIRS (splat args) w
    = (Return (Some (Entry fullPath baseDir relativePath)), w1) →
  locate (files w) fullPath = Some (File mtime content) →
  locate (files w)
    (join (CACHE_DIR (files w))
       (md5_hex P (fullPath ++ number_to_string P mtime) ++ ".webp")) = None →
  sharp_toFile P (files w) fullPath
    (join (CACHE_DIR (files w))
       (md5_hex P (fullPath ++ number_to_string P mtime) ++ ".webp")) = Return fs' →
  locate fs'
    (join (CACHE_DIR (files w))
       (md5_hex P (fullPath ++ number_to_string P mtime) ++ ".webp"))
    = Some (File cacheMtime thumbnail) →
  fs_cwd fs' = fs_cwd (files w) →
  locate fs' fullPath = Some (File mtime content) →
  (∀ w2, files w2 = fs' →
     (resolvePhotoPath PHOTO_DIRS (splat args) w2).1
     = Return (Some (Entry fullPath baseDir relativePath))) →
  ∃ wa wb extra,
    thumbnails_loader P None PHOTO_DIRS args w
      = (Return (file_response thumbnail "image/webp"), wa)
    ∧ thumbnails_loader P None PHOTO_DIRS args wa
      = (Return (file_response thumbnail "image/webp"), wb)
    ∧ files wb = files wa
    ∧ calls wb = (calls wa ++ extra)%list
    ∧ ∀ src dst, CallSharp src dst ∉ extra.
Proof.
  intros Hres Hloc Hmiss Hsharp Hcache Hcwd Hsrc Hstable.
  rewrite (thumbnails_loader_generates P PHOTO_DIRS args w w1 _ _ _ _ _ Hres Hloc Hmiss).
  rewrite Hsharp, Hcache.
  set (wa := {| files := fs'; calls := _ |}).
  exists wa.
  destruct (resolvePhotoPath_probes PHOTO_DIRS (splat args) wa)
    as (result & probes & Hres2 & _).
  pose proof (Hstable wa eq_refl) as Hfst. rewrite Hres2 in Hfst. cbn [fst] in Hfst.
  injection Hfst as ->.
  assert (CACHE_DIR fs' = CACHE_DIR (files w)) as Hdir
    by (unfold CACHE_DIR; by rewrite Hcwd).
  eexists _, _. split; [reflexivity|]. split.
  - erewrite thumbnails_loader_cache_hit; [reflexivity|exact Hres2|exact Hsrc|].
    change (files wa) with fs'. rewrite Hdir. exact Hcache.
  - cbn [files calls]. split; [done|]. split.
    + rewrite <- app_assoc. reflexivity.
    + intros src dst. rewrite elem_of_app, elem_of_map.
      intros [(p & [=] & _)|Hin].
      repeat (apply elem_of_cons in Hin as [[=]|Hin]). by apply elem_of_nil in Hin.
Qed.

Lemma thumbnail_is_generated_once_witness :
  ∃ wa wb extra,
    thumbnails_loader generating_platform None (Some "/photos")
      (request_for "photos/a.JPG") example_world
      = (Return (file_response "thumbnail bytes" "image/webp"), wa)
    ∧ thumbnails_loader generating_platform None (Some "/photos")
        (request_for "photos/a.JPG") wa
      = (Return (file_response "thumbnail bytes" "image/webp"), wb)
    ∧ files wb = files wa
    ∧ calls wb = (calls wa ++ extra)%list
    ∧ ∀ src dst, CallSharp src dst ∉ extra.
Proof.
  apply (thumbnail_is_generated_once generating_platform (Some "/photos")
           (request_for "photos/a.JPG") example_world example_world
           "/photos/a.JPG" "/photos" "a.JPG" 1700000000001 "jpeg bytes"
           cached_fs 1700000000009 "thumbnail bytes").
  - vm_compute. reflexivity.
  - vm_compute. reflexivity.
  - vm_compute. reflexivity.
  - vm_compute. reflexivity.
  - vm_compute. reflexivity.
  - vm_compute. reflexivity.
  - vm_compute. reflexivity.
  - intros w2 _. vm_compute. reflexivity.
Defined.

Section mime_facts.
Local Open Scope string_scope.
Implicit Types (s t : string) (c : ascii).

Lemma to_lower_char_dot_inv c : to_lower_char c = "."%char → c = "."%char.
Proof.
  destruct c as [[] [] [] [] [] [] [] []]; vm_compute; intros H;
    first [reflexivity | discriminate H].
Qed.

Lemma toLowerCase_app s t : toLowerCase (s ++ t) = toLowerCase s ++ toLowerCase t.
Proof.
  induction s as [|x s IH]; [done|].
  rewrite append_cons. cbn [toLowerCase]. by rewrite IH, append_cons.
Qed.

Lemma toLowerCase_app_inv s a b :
  toLowerCase s = a ++ b →
  ∃ a' b', s = a' ++ b' ∧ toLowerCase a' = a ∧ toLowerCase b' = b.
Proof.
  revert s. induction a as [|x a IH]; intros s Hs.
  - by exists "", s.
  - rewrite append_cons in Hs. destruct s as [|y s]; [done|].
    cbn [toLowerCase] in Hs. injection Hs as Hy Hs.
    destruct (IH s Hs) as (a' & b' & -> & Ha & Hb).
    exists (String y a'), b'. rewrite append_cons. cbn [toLowerCase].
    by rewrite Hy, Ha.
Qed.

Lemma toLowerCase_empty s : toLowerCase s = "" → s = "".
Proof. by destruct s. Qed.

Lemma from_last_app c s t :
  from_last c t = None → from_last c (s ++ String c t) = Some (String c t).
Proof.
  intros Ht. induction s as [|x s IH].
  - rewrite append_empty_l. cbn [from_last]. by rewrite Ht, Ascii.eqb_refl.
  - rewrite append_cons. cbn [from_last]. by rewrite IH.
Qed.

Lemma from_last_lower s :
  from_last "."%char (toLowerCase s) = None → from_last "."%char s = None.
Proof.
  induction s as [|x s IH]; [done|]. cbn [toLowerCase from_last].
  destruct (from_last "."%char (toLowerCase s)); [done|].
  rewrite IH by done.
  destruct (Ascii.eqb (to_lower_char x) ".") eqn:Hx; [done|]. intros _.
  destruct (Ascii.eqb x ".") eqn:Hx'; [|done].
  apply Ascii.eqb_eq in Hx' as ->. by vm_compute in Hx.
Qed.

Lemma append_same_length_empty s t : s ++ t = t → s = "".
Proof.
  intros H. apply (f_equal String.length) in H. rewrite length_append in H.
  destruct s; [done|]. cbn in H. lia.
Qed.

Lemma image_extensions_plain ext :
  ext ∈ image_extensions →
  from_last "."%char ext = None
  ∧ (3 ≤ String.length ext)%nat
  ∧ getMimeType ("." ++ ext) ∈ ["image/jpeg"; "image/png"; "image/gif"; "image/webp"].
Proof.
  unfold image_extensions. intros H.
  rewrite !elem_of_cons, elem_of_nil in H.
  destruct H as [->|[->|[->|[->|[->|[]]]]]];
    (split; [reflexivity|split; [cbn; lia|]]);
    apply list_elem_of_In; vm_compute; tauto.
Qed.

(** The content type the file loader derives for a name that passes the
    listing's extension test. *)
Lemma image_name_content_type p :
  is_image (basename p) = true →
  ((∃ ext, ext ∈ image_extensions ∧ toLowerCase (basename p) = "." ++ ext)
   ∧ getMimeType (toLowerCase (extname p)) = "application/octet-stream")
  ∨ ((¬ ∃ ext, ext ∈ image_extensions ∧ toLowerCase (basename p) = "." ++ ext)
     ∧ getMimeType (toLowerCase (extname p))
       ∈ ["image/jpeg"; "image/png"; "image/gif"; "image/webp"]).
Proof.
  intros (stem & ext & Hext & Hlower)%is_image_spec.
  destruct (image_extensions_plain ext Hext) as (Hnodot & Hlen & Hmime).
  destruct (toLowerCase_app_inv _ _ _ Hlower) as (stem' & rest & Hbase & Hstem & Hrest).
  change ("." ++ ext) with (String "."%char ext) in Hrest.
  destruct rest as [|dot ext']; [done|]. cbn [toLowerCase] in Hrest.
  injection Hrest as Hdot%to_lower_char_dot_inv Hext'. subst dot.
  assert (from_last "."%char ext' = None) as Hnodot'
    by (apply from_last_lower; by rewrite Hext').
  assert (String.length ext' = String.length ext) as Hlen'.
  { rewrite <- Hext'. clear. induction ext' as [|x s IH]; [done|].
    cbn. by rewrite IH. }
  unfold extname. rewrite Hbase, (from_last_app _ stem' ext' Hnodot').
  destruct stem' as [|x stem'].
  - left. rewrite append_empty_l in *. split.
    + exists ext. split; [done|]. cbn [toLowerCase].
      by rewrite Hext'.
    + by rewrite decide_True by (by left).
  - right. split.
    + intros (ext2 & Hext2 & Heq).
      destruct (image_extensions_plain ext2 Hext2) as (Hnodot2 & _ & _).
      rewrite Hbase in Hlower. rewrite Hlower in Heq.
      change (stem ++ String "."%char ext = String "."%char ext2) in Heq.
      assert (from_last "."%char (stem ++ String "."%char ext)
              = from_last "."%char (String "."%char ext2)) as Hfl
        by (by rewrite Heq).
      rewrite (from_last_app _ stem ext Hnodot) in Hfl.
      pose proof (from_last_app _ "" ext2 Hnodot2) as Hfl2.
      rewrite append_empty_l in Hfl2. rewrite Hfl2 in Hfl.
      injection Hfl as ->.
      apply append_same_length_empty in Heq. by subst stem.
    + rewrite decide_False.
      * change (String "."%char ext') with ("." ++ ext').
        rewrite toLowerCase_app, Hext'. exact Hmime.
      * intros [Heq|Heq].
        -- symmetry in Heq. by apply append_same_length_empty in Heq.
        -- apply (f_equal String.length) in Heq.
           rewrite length_append in Heq. cbn in Heq. lia.
Qed.
End mime_facts.

(** X10.  Every name that passes the listing's extension test is served by
    the file loader with an image content type, except a name that consists
    of the dot and the extension alone ([.jpg]): for such a name
    [path.extname] is empty and the content type is
    [application/octet-stream]. *)
Theorem listed_image_names_get_image_content_types p :
  is_image (basename p) = true →
  ((∃ ext, ext ∈ image_extensions ∧ toLowerCase (basename p) = "." ++ ext)
   ∧ getMimeType (toLowerCase (extname p)) = "application/octet-stream")
  ∨ ((¬ ∃ ext, ext ∈ image_extensions ∧ toLowerCase (basename p) = "." ++ ext)
     ∧ getMimeType (toLowerCase (extname p))
       ∈ ["image/jpeg"; "image/png"; "image/gif"; "image/webp"]).
Proof. apply image_name_content_type. Qed.

Lemma listed_image_names_get_image_content_types_witness :
  getMimeType (toLowerCase (extname "/photos/a.JPG")) = "image/jpeg"
  ∧ getMimeType (toLowerCase (extname "/photos/.png")) = "application/octet-stream".
Proof.
  pose proof (listed_image_names_get_image_content_types "/photos/a.JPG") as H1.
  pose proof (listed_image_names_get_image_content_types "/photos/.png") as H2.
  split.
  - destruct H1 as [[_ H]|[_ H]]; [vm_compute; reflexivity| |]; vm_compute; reflexivity.
  - destruct H2 as [[_ H]|[_ H]]; [vm_compute; reflexivity| |]; vm_compute; reflexivity.
Defined.

(* ================================================================== *)
(** ** The folder view and the single-image view *)
(* ================================================================== *)

Section view_facts.
Local Open Scope string_scope.
Implicit Types (w : world) (p name : string) (entries : list (string * node)).

Lemma fs_readdir_result p w :
  fs_readdir p w
  = (match locate (files w) p with
     | Some (Dir true entries) => Return entries
     | Some (Dir false _) => Throw EACCES
     | Some _ => Throw ENOTDIR
     | None => Throw ENOENT
     end, w).
Proof.
  unfold fs_readdir, mbind, IO_bind, bind, get_files, ret, throw.
  by destruct (locate (files w) p) as [[? ?|[] ?| |?]|].
Qed.

Lemma classify_spec entries dirs files :
  Browse.classify entries dirs files
  = ((dirs ++ map fst (List.filter (λ e, match e.2 with
                                         | Dir _ _ => true
                                         | _ => false
                                         end) entries))%list,
     (files ++ PhotoView.image_names entries)%list).
Proof.
  unfold PhotoView.image_names.
  revert dirs files. induction entries as [|[name entry] entries IH];
    intros dirs files.
  - cbn. by rewrite !app_nil_r.
  - cbn [Browse.classify List.filter snd fst].
    destruct entry as [mtime content|readable entries'| |mtime];
      cbn [is_regular andb].
    + destruct (is_image name); rewrite IH; [|done].
      cbn [map fst]. by rewrite <- app_assoc.
    + rewrite IH. cbn [map fst]. by rewrite <- app_assoc.
    + by rewrite IH.
    + destruct (is_image name); rewrite IH; [|done].
      cbn [map fst]. by rewrite <- app_assoc.
Qed.

Lemma browse_loader_entry PHOTO_DIRS args w w1 fullPath baseDir relativePath :
  resolvePhotoPath PHOTO_DIRS (strip_one_trailing_slash (splat args)) w
    = (Return (Some (Entry fullPath baseDir relativePath)), w1) →
  Browse.loader PHOTO_DIRS args w
  = (Return
       {| Browse.items :=
            match locate (files w) fullPath with
            | Some (Dir true entries) =>
                (map (λ name, {| Browse.item_name := name;
                                 Browse.item_type := Browse.ItemDir |})
                   (map fst (List.filter (λ e, match e.2 with
                                               | Dir _ _ => true
                                               | _ => false
                                               end) entries))
                 ++ map (λ name, {| Browse.item_name := name;
                                    Browse.item_type := Browse.ItemFile |})
                     (PhotoView.image_names entries))%list
            | _ => []
            end;
          Browse.currentPath := strip_one_trailing_slash (splat args);
          Browse.baseDir := baseDir;
          Browse.isRoot := None |}, w1).
Proof.
  intros Hres.
  destruct (resolvePhotoPath_files PHOTO_DIRS (strip_one_trailing_slash (splat args)) w)
    as (result & w1' & Hres' & Hfiles).
  rewrite Hres in Hres'. injection Hres' as <- <-.
  unfold Browse.loader, mbind, IO_bind, bind. rewrite Hres.
  unfold try_catch, mbind, IO_bind, bind. rewrite fs_readdir_result, Hfiles.
  destruct (locate (files w) fullPath) as [[? ?|[] entries| |?]|]; try done.
  by rewrite classify_spec.
Qed.

Lemma browse_loader_root PHOTO_DIRS args w :
  PHOTO_DIRS = None
  ∨ strip_slashes (strip_one_trailing_slash (splat args)) = "" →
  Browse.loader PHOTO_DIRS args w
  = (Return
       {| Browse.items :=
            map (λ dir, {| Browse.item_name := alias dir;
                           Browse.item_type := Browse.ItemDir |})
              (configured_dirs PHOTO_DIRS);
          Browse.currentPath := "";
          Browse.baseDir := "";
          Browse.isRoot := Some true |}, w).
Proof.
  intros [->|Hroot]; [done|].
  unfold Browse.loader, mbind, IO_bind, bind, resolvePhotoPath.
  destruct (configured_dirs PHOTO_DIRS) as [|firstDir dirs] eqn:Hdirs.
  - reflexivity.
  - rewrite decide_True by done. reflexivity.
Qed.

(** *** [indexOf] *)

Lemma indexOf_ge x (array : list string) : (-1 ≤ indexOf x array)%Z.
Proof.
  induction array as [|y array IH]; cbn [indexOf]; [lia|].
  destruct (String.eqb y x); [lia|]. destruct (indexOf x array); lia.
Qed.

Lemma indexOf_spec x (array : list string) :
  (indexOf x array = -1 ∧ x ∉ array)%Z
  ∨ (0 ≤ indexOf x array < Z.of_nat (List.length array)
     ∧ js_index array (indexOf x array) = Some x
     ∧ ∀ k, (k < Z.to_nat (indexOf x array))%nat → array !! k ≠ Some x)%Z.
Proof.
  induction array as [|y array IH]; cbn [indexOf].
  - left. split; [done|]. by intros ?%elem_of_nil.
  - destruct (String.eqb_spec y x) as [->|Hne].
    + right. split; [cbn [List.length]; lia|]. split; [done|]. intros k Hk. lia.
    + destruct IH as [[Hidx Hnotin]|(Hrange & Hget & Hfirst)].
      * left. rewrite Hidx. split; [done|].
        intros [?|?]%elem_of_cons; [by subst|done].
      * right. destruct (indexOf x array) as [|pos|pos] eqn:Hi; [| |lia].
        -- split; [cbn [List.length]; lia|]. split; [exact Hget|].
           intros k Hk. destruct k as [|k]; [cbn; congruence|lia].
        -- split; [cbn [List.length]; lia|]. split.
           ++ unfold js_index in *.
              destruct (Z.pos pos + 1 <? 0)%Z eqn:Hlt; [lia|].
              destruct (Z.pos pos <? 0)%Z eqn:Hlt'; [lia|].
              replace (Z.to_nat (Z.pos pos + 1)) with (S (Z.to_nat (Z.pos pos))) by lia.
              exact Hget.
           ++ intros k Hk. destruct k as [|k]; [cbn; congruence|].
              cbn. apply Hfirst. lia.
Qed.

Lemma elem_of_image_names entries name :
  name ∈ PhotoView.image_names entries ↔
  ∃ entry, (name, entry) ∈ entries ∧ is_regular entry = true
           ∧ is_image name = true.
Proof.
  unfold PhotoView.image_names. rewrite elem_of_map. split.
  - intros ([name' entry] & -> & Hin%list_elem_of_In%filter_In).
    destruct Hin as [Hin%list_elem_of_In [Hreg Himg]%andb_prop].
    cbn [fst snd] in *. by exists entry.
  - intros (entry & Hin & Hreg & Himg). exists (name, entry).
    split; [done|]. apply list_elem_of_In, filter_In.
    split; [by apply list_elem_of_In|]. cbn [fst snd]. by rewrite Hreg, Himg.
Qed.

Lemma view_loader_entry PHOTO_DIRS args w w1 fullPath baseDir relativePath :
  resolvePhotoPath PHOTO_DIRS (splat args) w
    = (Return (Some (Entry fullPath baseDir relativePath)), w1) →
  PhotoView.loader PHOTO_DIRS args w
  = (Return
       match locate (files w) (dirname fullPath) with
       | Some (Dir true entries) =>
           {| PhotoView.images := sort (PhotoView.image_names entries);
              PhotoView.currentIndex :=
                indexOf (basename fullPath) (sort (PhotoView.image_names entries));
              PhotoView.currentPath := splat args;
              PhotoView.baseDir := baseDir |}
       | _ =>
           {| PhotoView.images := []; PhotoView.currentIndex := -1;
              PhotoView.currentPath := splat args;
              PhotoView.baseDir := baseDir |}
       end, w1).
Proof.
  intros Hres.
  destruct (resolvePhotoPath_files PHOTO_DIRS (splat args) w)
    as (result & w1' & Hres' & Hfiles).
  rewrite Hres in Hres'. injection Hres' as <- <-.
  unfold PhotoView.loader, mbind, IO_bind, bind. rewrite Hres.
  unfold try_catch, mbind, IO_bind, bind. rewrite fs_readdir_result, Hfiles.
  by destruct (locate (files w) (dirname fullPath)) as [[? ?|[] entries| |?]|].
Qed.
End view_facts.

(** X11.  The folder view of a resolved entry never throws: for a readable
    directory it lists the names of the sub-directories first and then the
    names of the regular files that pass the extension test, each group in
    directory order; for anything else (missing, unreadable, not a
    directory) the list is empty. *)
Theorem folder_view_lists_directories_then_images
    PHOTO_DIRS args w w1 fullPath baseDir relativePath :
  resolvePhotoPath PHOTO_DIRS (strip_one_trailing_slash (splat args)) w
    = (Return (Some (Entry fullPath baseDir relativePath)), w1) →
  Browse.loader PHOTO_DIRS args w
  = (Return
       {| Browse.items :=
            match locate (files w) fullPath with
            | Some (Dir true entries) =>
                (map (λ name, {| Browse.item_name := name;
                                 Browse.item_type := Browse.ItemDir |})
                   (map fst (List.filter (λ e, match e.2 with
                                               | Dir _ _ => true
                                               | _ => false
                                               end) entries))
                 ++ map (λ name, {| Browse.item_name := name;
                                    Browse.item_type := Browse.ItemFile |})
                     (PhotoView.image_names entries))%list
            | _ => []
            end;
          Browse.currentPath := strip_one_trailing_slash (splat args);
          Browse.baseDir := baseDir;
          Browse.isRoot := None |}, w1).
Proof. apply browse_loader_entry. Qed.

Lemma folder_view_lists_directories_then_images_witness :
  Browse.loader (Some "/photos") (request_for "photos/") example_world
  = (Return
       {| Browse.items :=
            [ {| Browse.item_name := "sub"; Browse.item_type := Browse.ItemDir |};
              {| Browse.item_name := "b.png"; Browse.item_type := Browse.ItemFile |};
              {| Browse.item_name := "a.JPG"; Browse.item_type := Browse.ItemFile |} ];
          Browse.currentPath := "photos";
          Browse.baseDir := "/photos";
          Browse.isRoot := None |}, example_world).
Proof.
  rewrite (folder_view_lists_directories_then_images (Some "/photos")
             (request_for "photos/") example_world example_world
             "/photos" "/photos" "").
  - vm_compute. reflexivity.
  - vm_compute. reflexivity.
Defined.

(** X12.  With [PHOTO_DIRS] unset, or for a path that is empty once its
    slashes are stripped, the folder view shows one folder per configured
    library, named by its alias, marks the answer as the root and makes no
    filesystem call. *)
Theorem folder_view_root_lists_the_libraries PHOTO_DIRS args w :
  PHOTO_DIRS = None
  ∨ strip_slashes (strip_one_trailing_slash (splat args)) = "" →
  Browse.loader PHOTO_DIRS args w
  = (Return
       {| Browse.items :=
            map (λ dir, {| Browse.item_name := alias dir;
                           Browse.item_type := Browse.ItemDir |})
              (configured_dirs PHOTO_DIRS);
          Browse.currentPath := "";
          Browse.baseDir := "";
          Browse.isRoot := Some true |}, w).
Proof. apply browse_loader_root. Qed.

Lemma folder_view_root_lists_the_libraries_witness :
  Browse.loader (Some "/data/photos,/data/album/") (request_for "/") example_world
  = (Return
       {| Browse.items :=
            [ {| Browse.item_name := "photos"; Browse.item_type := Browse.ItemDir |};
              {| Browse.item_name := "album"; Browse.item_type := Browse.ItemDir |} ];
          Browse.currentPath := "";
          Browse.baseDir := "";
          Browse.isRoot := Some true |}, example_world).
Proof.
  rewrite (folder_view_root_lists_the_libraries (Some "/data/photos,/data/album/")
             (request_for "/") example_world).
  - vm_compute. reflexivity.
  - right. vm_compute. reflexivity.
Defined.

(** X13.  The single-image view of a resolved entry never throws.  When
    the directory of the resolved path can be read, [images] holds the
    names of its regular files that pass the extension test, sorted by
    their UTF-16 code units, and [currentIndex] is -1 when the file's name
    is not among them and otherwise the first position at which the list
    holds that name; when the directory cannot be read the list is empty
    and the index -1. *)
Theorem image_view_index_points_at_the_file
    PHOTO_DIRS args w w1 fullPath baseDir relativePath :
  resolvePhotoPath PHOTO_DIRS (splat args) w
    = (Return (Some (Entry fullPath baseDir relativePath)), w1) →
  ∃ data,
    PhotoView.loader PHOTO_DIRS args w = (Return data, w1)
    ∧ PhotoView.currentPath data = splat args
    ∧ PhotoView.baseDir data = baseDir
    ∧ StronglySorted JSString.le (PhotoView.images data)
    ∧ ((PhotoView.currentIndex data = -1
        ∧ basename fullPath ∉ PhotoView.images data)%Z
       ∨ (0 ≤ PhotoView.currentIndex data
            < Z.of_nat (List.length (PhotoView.images data))
          ∧ js_index (PhotoView.images data) (PhotoView.currentIndex data)
            = Some (basename fullPath)
          ∧ ∀ k, (k < Z.to_nat (PhotoView.currentIndex data))%nat →
                 PhotoView.images data !! k ≠ Some (basename fullPath))%Z)
    ∧ match locate (files w) (dirname fullPath) with
      | Some (Dir true entries) =>
          ∀ name, name ∈ PhotoView.images data ↔
                  ∃ entry, (name, entry) ∈ entries
                           ∧ is_regular entry = true ∧ is_image name = true
      | _ => PhotoView.images data = []
      end.
Proof.
  intros Hres. rewrite (view_loader_entry _ _ _ _ _ _ _ Hres).
  eexists. split; [reflexivity|].
  destruct (locate (files w) (dirname fullPath)) as [[? ?|[] entries| |?]|];
    cbn [PhotoView.images PhotoView.currentIndex PhotoView.currentPath
         PhotoView.baseDir];
    try (repeat split; [constructor|left; split; [done|by intros ?%elem_of_nil]]).
  repeat split.
  - apply sort_StronglySorted.
  - apply indexOf_spec.
  - rewrite elem_of_sort. by intros ?%elem_of_image_names.
  - rewrite elem_of_sort. by intros ?%elem_of_image_names.
Qed.

Lemma image_view_index_points_at_the_file_witness :
  ∃ data,
    PhotoView.loader (Some "/photos") (request_for "photos/b.png") example_world
    = (Return data, example_world)
    ∧ PhotoView.currentPath data = "photos/b.png"
    ∧ PhotoView.baseDir data = "/photos".
Proof.
  destruct (image_view_index_points_at_the_file (Some "/photos")
              (request_for "photos/b.png") example_world example_world
              "/photos/b.png" "/photos" "b.png")
    as (data & H1 & H2 & H3 & _).
  - vm_compute. reflexivity.
  - by exists data.
Defined.

(* ================================================================== *)
(** ** Navigation in the viewers, and the login *)
(* ================================================================== *)

Section navigation_facts.
Local Open Scope Z_scope.

Lemma iter_onNext (k : nat) (i n : Z) :
  0 ≤ i < n →
  Nat.iter k (λ j, SlideshowView.onNext j n) i = (i + Z.of_nat k) mod n.
Proof.
  intros Hi. induction k as [|k IH].
  - simpl Nat.iter. rewrite Z.add_0_r, Z.mod_small; lia.
  - simpl Nat.iter. rewrite IH.
    pose proof (Z.mod_pos_bound (i + Z.of_nat k) n ltac:(lia)) as Hm.
    unfold SlideshowView.onNext.
    replace (i + Z.of_nat (S k)) with ((i + Z.of_nat k) + 1) by lia.
    rewrite <- (Zplus_mod_idemp_l (i + Z.of_nat k) 1 n).
    destruct (Z.ltb_spec ((i + Z.of_nat k) mod n) (n - 1)).
    + rewrite (Z.mod_small ((i + Z.of_nat k) mod n + 1)) by lia. lia.
    + replace ((i + Z.of_nat k) mod n + 1) with n by lia.
      by rewrite Z.mod_same by lia.
Qed.

Lemma iter_onPrev (k : nat) (i n : Z) :
  0 ≤ i < n →
  Nat.iter k (λ j, SlideshowView.onPrev j n) i = (i - Z.of_nat k) mod n.
Proof.
  intros Hi. induction k as [|k IH].
  - simpl Nat.iter. rewrite Z.sub_0_r, Z.mod_small; lia.
  - simpl Nat.iter. rewrite IH.
    pose proof (Z.mod_pos_bound (i - Z.of_nat k) n ltac:(lia)) as Hm.
    unfold SlideshowView.onPrev.
    replace (i - Z.of_nat (S k)) with ((i - Z.of_nat k) - 1) by lia.
    rewrite <- (Zminus_mod_idemp_l (i - Z.of_nat k) 1 n).
    destruct (Z.gtb_spec ((i - Z.of_nat k) mod n) 0).
    + rewrite (Z.mod_small ((i - Z.of_nat k) mod n - 1)) by lia. lia.
    + replace ((i - Z.of_nat k) mod n - 1) with (-1) by lia.
      replace (-1) with (n - 1 + (-1) * n) by lia.
      rewrite Z.mod_add, Z.mod_small; lia.
Qed.

Lemma before_last_slash_app dir name :
  no_slash name = true → before_last_slash (dir ++ String slash name) = dir.
Proof.
  intros Hname. induction dir as [|x dir IH].
  - rewrite append_empty_l. cbn [before_last_slash]. by rewrite Hname.
  - rewrite append_cons. cbn [before_last_slash].
    assert (no_slash (dir ++ String slash name) = false) as ->.
    { clear. induction dir as [|y dir IH]; [done|].
      rewrite append_cons. cbn [no_slash]. by rewrite IH, andb_false_r. }
    by rewrite IH.
Qed.

Lemma before_last_slash_none name : no_slash name = true → before_last_slash name = "".
Proof. destruct name as [|x name]; [done|]. cbn. by intros [_ ->]%andb_prop. Qed.
End navigation_facts.

(** X14.  In both viewers the next and previous positions of a position
    inside the list stay inside the list and undo each other; the step
    after the last position is the first and the step before the first is
    the last. *)
Theorem viewer_navigation_wraps_around (i n : Z) :
  (0 ≤ i < n)%Z →
  (0 ≤ PhotoView.nextIndex i n < n
   ∧ 0 ≤ PhotoView.prevIndex i n < n
   ∧ PhotoView.prevIndex (PhotoView.nextIndex i n) n = i
   ∧ PhotoView.nextIndex (PhotoView.prevIndex i n) n = i
   ∧ PhotoView.nextIndex (n - 1) n = 0
   ∧ PhotoView.prevIndex 0 n = n - 1
   ∧ SlideshowView.onPrev (SlideshowView.onNext i n) n = i
   ∧ SlideshowView.onNext (SlideshowView.onPrev i n) n = i
   ∧ SlideshowView.onNext (SlideshowView.onEnd n) n = SlideshowView.onHome
   ∧ SlideshowView.onPrev SlideshowView.onHome n = SlideshowView.onEnd n)%Z.
Proof.
  intros Hi.
  unfold PhotoView.nextIndex, PhotoView.prevIndex, SlideshowView.onNext,
    SlideshowView.onPrev, SlideshowView.onEnd, SlideshowView.onHome.
  repeat split;
    destruct (Z.ltb_spec i (n - 1)), (Z.gtb_spec i 0); try lia;
    repeat match goal with
           | |- context [(?a <? ?b)%Z] => destruct (Z.ltb_spec a b)
           | |- context [(?a >? ?b)%Z] => destruct (Z.gtb_spec a b)
           end; lia.
Qed.

Lemma viewer_navigation_wraps_around_witness :
  (PhotoView.prevIndex (PhotoView.nextIndex 2 3) 3 = 2
   ∧ PhotoView.nextIndex (3 - 1) 3 = 0)%Z.
Proof.
  destruct (viewer_navigation_wraps_around 2 3) as (_ & _ & H1 & _ & H2 & _).
  - lia.
  - split; [exact H1|exact H2].
Defined.

(** X15.  Stepping forward (or backward) as many times as the slideshow
    has images leads back to the image one started from; [k] steps forward
    from position [i] lead to position [(i + k) mod n]. *)
Theorem slideshow_steps_cycle_through_the_list (i : Z) (n k : nat) :
  (0 ≤ i < Z.of_nat n)%Z →
  Nat.iter n (λ j, SlideshowView.onNext j (Z.of_nat n)) i = i
  ∧ Nat.iter n (λ j, SlideshowView.onPrev j (Z.of_nat n)) i = i
  ∧ Nat.iter k (λ j, SlideshowView.onNext j (Z.of_nat n)) i
    = ((i + Z.of_nat k) mod Z.of_nat n)%Z
  ∧ Nat.iter k (λ j, SlideshowView.onPrev j (Z.of_nat n)) i
    = ((i - Z.of_nat k) mod Z.of_nat n)%Z.
Proof.
  intros Hi. rewrite !iter_onNext, !iter_onPrev by done. repeat split.
  - replace (i + Z.of_nat n)%Z with (i + 1 * Z.of_nat n)%Z by lia.
    rewrite Z.mod_add, Z.mod_small; lia.
  - replace (i - Z.of_nat n)%Z with (i + (-1) * Z.of_nat n)%Z by lia.
    rewrite Z.mod_add, Z.mod_small; lia.
Qed.

Lemma slideshow_steps_cycle_through_the_list_witness :
  Nat.iter 4 (λ j, SlideshowView.onNext j 4) 1%Z = 1%Z.
Proof.
  destruct (slideshow_steps_cycle_through_the_list 1 4 0) as [H _].
  - lia.
  - exact H.
Defined.

(** X16.  After the list has changed, the slideshow's index effect leaves
    a position inside a non-empty list alone and moves a position past the
    end to the last item; when the item at a position is removed from a
    list of at least two items, the position then shows the item that
    followed it, or the new last item if the removed one was last. *)
Theorem slideshow_index_after_removal (images : list string) (i : nat) :
  (i < List.length images)%nat →
  (2 ≤ List.length images)%nat →
  let remaining := delete i images in
  let index := SlideshowView.clampIndex (Z.of_nat i) (Z.of_nat (List.length remaining)) in
  (0 ≤ index < Z.of_nat (List.length remaining))%Z
  ∧ js_index remaining index
    = if decide (S i < List.length images)%nat then images !! S i
      else images !! (i - 1)%nat.
Proof.
  intros Hi Hlen remaining index.
  assert (List.length remaining = List.length images - 1)%nat as Hrem.
  { subst remaining. rewrite length_delete; [done|]. by apply lookup_lt_is_Some_2. }
  subst index. unfold SlideshowView.clampIndex, js_index. rewrite Hrem.
  case_decide as Hlast.
  - destruct (Z.geb_spec (Z.of_nat i) (Z.of_nat (List.length images - 1))); [lia|].
    cbn [andb]. split; [lia|].
    destruct (Z.ltb_spec (Z.of_nat i) 0); [lia|].
    rewrite Nat2Z.id. subst remaining. by rewrite list_lookup_delete_ge by lia.
  - destruct (Z.geb_spec (Z.of_nat i) (Z.of_nat (List.length images - 1))); [|lia].
    destruct (Z.gtb_spec (Z.of_nat (List.length images - 1)) 0); [|lia].
    cbn [andb]. split; [lia|].
    destruct (Z.ltb_spec (Z.max 0 (Z.of_nat (List.length images - 1) - 1)) 0); [lia|].
    replace (Z.to_nat (Z.max 0 (Z.of_nat (List.length images - 1) - 1)))
      with (i - 1)%nat by lia.
    subst remaining. by rewrite list_lookup_delete_lt by lia.
Qed.

Lemma slideshow_index_after_removal_witness :
  js_index (delete 2%nat ["a.jpg"; "b.jpg"; "c.jpg"])
    (SlideshowView.clampIndex 2 2) = Some "b.jpg".
Proof.
  destruct (slideshow_index_after_removal ["a.jpg"; "b.jpg"; "c.jpg"] 2) as [_ H].
  - cbn. lia.
  - cbn. lia.
  - exact H.
Defined.

(** X17.  In the single-image view the links to the neighbours and the
    close link stay in the directory of the current path: for a current
    path [dir/name] they are [/photos/view/dir/<image>] and [/photos/dir],
    for a current path without a slash [/photos/view/<image>] and
    [/photos/]; deleting the only image leads to the close link, deleting
    one of several to the next image. *)
Theorem image_view_links_stay_in_the_directory
    (data : PhotoView.ViewData) (dir name : string) :
  no_slash name = true →
  PhotoView.currentPath data = dir ++ "/" ++ name
  ∨ (PhotoView.currentPath data = name ∧ dir = "") →
  (0 ≤ PhotoView.currentIndex data
     < Z.of_nat (List.length (PhotoView.images data)))%Z →
  ∃ previous next,
    js_index (PhotoView.images data)
      (PhotoView.prevIndex (PhotoView.currentIndex data)
         (Z.of_nat (List.length (PhotoView.images data)))) = Some previous
    ∧ js_index (PhotoView.images data)
        (PhotoView.nextIndex (PhotoView.currentIndex data)
           (Z.of_nat (List.length (PhotoView.images data)))) = Some next
    ∧ PhotoView.prevUrl data
      = "/photos/view/" ++ (if decide (dir = "") then previous else dir ++ "/" ++ previous)
    ∧ PhotoView.nextUrl data
      = "/photos/view/" ++ (if decide (dir = "") then next else dir ++ "/" ++ next)
    ∧ PhotoView.closeUrl data = "/photos/" ++ dir
    ∧ PhotoView.deleteNextUrl data
      = if decide (List.length (PhotoView.images data) = 1%nat)
        then "/photos/" ++ dir
        else "/photos/view/" ++ (if decide (dir = "") then next else dir ++ "/" ++ next).
Proof.
  intros Hname Hpath Hindex.
  assert (PhotoView.dirPath (PhotoView.currentPath data) = dir) as Hdir.
  { unfold PhotoView.dirPath. destruct Hpath as [->|[-> ->]].
    - by apply before_last_slash_app.
    - by apply before_last_slash_none. }
  set (n := Z.of_nat (List.length (PhotoView.images data))) in *.
  assert (∀ j, (0 ≤ j < n)%Z → ∃ image, js_index (PhotoView.images data) j = Some image)
    as Hget.
  { intros j Hj. unfold js_index. destruct (Z.ltb_spec j 0); [lia|].
    apply lookup_lt_is_Some_2. lia. }
  assert (0 ≤ PhotoView.prevIndex (PhotoView.currentIndex data) n < n
          ∧ 0 ≤ PhotoView.nextIndex (PhotoView.currentIndex data) n < n)%Z
    as [Hprev Hnext].
  { unfold PhotoView.prevIndex, PhotoView.nextIndex.
    destruct (Z.gtb_spec (PhotoView.currentIndex data) 0),
      (Z.ltb_spec (PhotoView.currentIndex data) (n - 1)); lia. }
  destruct (Hget _ Hprev) as [previous Hp], (Hget _ Hnext) as [next Hn].
  exists previous, next.
  unfold PhotoView.deleteNextUrl, PhotoView.prevUrl, PhotoView.nextUrl,
    PhotoView.closeUrl, PhotoView.viewUrl.
  fold n. rewrite Hp, Hn, Hdir. cbn [spliced default].
  repeat split.
  destruct (Z.gtb_spec n 1),
    (decide (List.length (PhotoView.images data) = 1%nat));
    first [reflexivity | subst n; lia].
Qed.

Lemma image_view_links_stay_in_the_directory_witness :
  PhotoView.nextUrl
    {| PhotoView.images := ["a.JPG"; "b.png"]; PhotoView.currentIndex := 1;
       PhotoView.currentPath := "photos/b.png"; PhotoView.baseDir := "/photos" |}
  = "/photos/view/photos/a.JPG".
Proof.
  destruct (image_view_links_stay_in_the_directory
              {| PhotoView.images := ["a.JPG"; "b.png"]; PhotoView.currentIndex := 1;
                 PhotoView.currentPath := "photos/b.png"; PhotoView.baseDir := "/photos" |}
              "photos" "b.png")
    as (previous & next & _ & Hnext & _ & -> & _).
  - reflexivity.
  - left. reflexivity.
  - cbn. lia.
  - vm_compute in Hnext. injection Hnext as <-. reflexivity.
Defined.

(** X18.  Logging in succeeds, with the cookie for the value ["1"], exactly
    when a non-empty [SITE_PASSWORD] is configured and the submitted
    password is equal to it; with no password configured every attempt,
    also one with an empty or missing password, is refused. *)
Theorem login_needs_the_configured_password
    (serialize : string → string) SITE_PASSWORD password :
  (Login.action serialize SITE_PASSWORD password
     = Login.LoginRedirect (Some (serialize "1"))
   ↔ ∃ expected, SITE_PASSWORD = Some expected ∧ expected ≠ ""
                 ∧ password = Some expected)
  ∧ (SITE_PASSWORD = None ∨ SITE_PASSWORD = Some "" →
     Login.action serialize SITE_PASSWORD password
     = Login.LoginError "No password configured on server").
Proof.
  unfold Login.action. split.
  - split.
    + destruct SITE_PASSWORD as [expected|]; cbn [default];
        repeat case_decide; try done.
      intros _. exists expected. by simplify_eq.
    + intros (expected & -> & Hne & ->). cbn [default].
      by rewrite decide_False, decide_True.
  - by intros [->| ->].
Qed.

Lemma login_needs_the_configured_password_witness :
  Login.action (λ v, "mb_auth=" ++ v) (Some "") (Some "")
  = Login.LoginError "No password configured on server".
Proof.
  destruct (login_needs_the_configured_password (λ v, "mb_auth=" ++ v)
              (Some "") (Some "")) as [_ H].
  apply H. right. reflexivity.
Defined.

(** X19.  The login page sends every request that [isAuthenticated]
    accepts on to the home page; a request it does not accept stays on the
    login page unless it has no cookie header (or an empty one) and the
    parser turns the empty header into ["1"]. *)
Theorem login_page_agrees_with_isAuthenticated (P : Platform) (request : Request) :
  (isAuthenticated P request = true →
   Login.loader P request = Login.LoginRedirect None)
  ∧ (isAuthenticated P request = false →
     Login.loader P request = Login.LoginRedirect None →
     default "" (cookie_header request) = ""
     ∧ cookie_parse P "" = Return (Some "1")).
Proof.
  unfold isAuthenticated, Login.loader.
  destruct (cookie_header request) as [[|c header]|]; cbn [default]; split;
    try done;
    destruct (cookie_parse P _) as [val|e] eqn:Hparse; try done;
    try (case_bool_decide; case_decide; try done);
    try (case_decide; [by simplify_eq|done]).
Qed.

Lemma login_page_agrees_with_isAuthenticated_witness :
  Login.loader example_platform {| cookie_header := Some "1" |}
  = Login.LoginRedirect None.
Proof.
  destruct (login_page_agrees_with_isAuthenticated example_platform
              {| cookie_header := Some "1" |}) as [H _].
  apply H. reflexivity.
Defined.

(* ================================================================== *)
(** ** More about the slideshow loader *)
(* ================================================================== *)

Section shuffle_permutation.
Context {A : Type}.
Implicit Types (l : list A) (i j : nat) (x y : A).

Lemma insert_swap_head l j x y :
  l !! j = Some y → y :: <[j:=x]> l ≡ₚ x :: l.
Proof.
  revert j. induction l as [|a l IH]; intros [|j] Hj; try done.
  - cbn in Hj. injection Hj as ->. cbn. apply Permutation_swap.
  - cbn in Hj. cbn [insert list_insert].
    etrans; [apply Permutation_swap|].
    etrans; [apply perm_skip, (IH j Hj)|]. apply Permutation_swap.
Qed.

Lemma swap_Permutation i j l : swap i j l ≡ₚ l.
Proof.
  unfold swap. destruct (l !! i) as [x|] eqn:Hi; [|done].
  destruct (l !! j) as [y|] eqn:Hj; [|done].
  revert i j Hi Hj. induction l as [|a l IH]; intros [|i] [|j] Hi Hj; try done.
  - cbn in *. by simplify_eq.
  - cbn in Hi, Hj. injection Hi as ->. cbn [insert list_insert].
    by apply insert_swap_head.
  - cbn in Hi, Hj. injection Hj as ->. cbn [insert list_insert].
    by apply insert_swap_head.
  - cbn in Hi, Hj. cbn [insert list_insert]. by rewrite (IH i j).
Qed.

Lemma fisher_yates_from_Permutation (pick : nat → nat → nat) n i l :
  fisher_yates_from pick n i l ≡ₚ l.
Proof.
  revert n l. induction i as [|i IH]; intros n l; [done|].
  cbn [fisher_yates_from]. by rewrite IH, swap_Permutation.
Qed.
End shuffle_permutation.

Section loader_facts.
Local Open Scope string_scope.
Context (P : Platform).

Lemma seeded_shuffle_Permutation seed (images : list string) :
  ∃ shuffled, seeded_shuffle seed images = Some shuffled ∧ shuffled ≡ₚ images.
Proof.
  rewrite seeded_shuffle_fisher_yates. eexists. split; [done|].
  apply fisher_yates_from_Permutation.
Qed.

Lemma getAllImages_files dirPath w outcome w' :
  getAllImages dirPath w = (outcome, w') → w' = w.
Proof.
  unfold getAllImages, mbind, IO_bind, bind, get_files, of_outcome, throw, ret.
  destruct (locate (files w) dirPath) as [dir|]; [|by intros [= _ <-]].
  destruct (scanDir dir "" []); by intros [= _ <-].
Qed.

Lemma getAllImages_nonempty_path dirPath w images w' :
  getAllImages dirPath w = (Return images, w') → dirPath ≠ "".
Proof.
  unfold getAllImages, mbind, IO_bind, bind, get_files, throw.
  destruct (locate (files w) dirPath) as [dir|] eqn:Hloc; [|done].
  intros _. by eapply locate_nonempty.
Qed.

(** The loader once the path is resolved and the scan has succeeded. *)
Lemma slideshow_loader_modes PHOTO_DIRS args randomParam seedParam fresh
    w w1 resolved fullDirPath baseDir images :
  resolvePhotoPath PHOTO_DIRS (strip_one_trailing_slash (splat args)) w
    = (Return (Some resolved), w1) →
  ((∃ relativePath, resolved = Entry fullDirPath baseDir relativePath)
   ∨ (∃ others, resolved = Root (fullDirPath :: others) ∧ baseDir = fullDirPath)) →
  getAllImages fullDirPath w1 = (Return images, w1) →
  loader P PHOTO_DIRS args randomParam seedParam fresh w
  = (Return
       (if decide (randomParam = Some "true") then
          match seedParam with
          | Some (String c seed) =>
              Data (default images
                      (seeded_shuffle
                         (default 0%Z (string_to_number P (String c seed))) images))
                (strip_one_trailing_slash (splat args)) baseDir true
          | _ => Redirect fresh
          end
        else Data images (strip_one_trailing_slash (splat args)) baseDir false),
     w1).
Proof.
  intros Hres Hresolved Hscan.
  pose proof (getAllImages_nonempty_path _ _ _ _ Hscan) as Hne.
  unfold loader, mbind at 1, IO_bind, bind. rewrite Hres.
  assert (match Some resolved with
          | Some (Entry fullPath baseDir _) => (fullPath, baseDir)
          | Some (Root (first :: _)) => (first, first)
          | _ => ("", "")
          end = (fullDirPath, baseDir)) as ->.
  { destruct Hresolved as [[rel ->]|(others & -> & ->)]; done. }
  rewrite decide_False by done.
  unfold try_catch, mbind, IO_bind, bind. rewrite Hscan.
  case_decide as Hrandom.
  - rewrite bool_decide_eq_true_2 by done.
    by destruct seedParam as [[|c seed]|].
  - rewrite bool_decide_eq_false_2 by done. done.
Qed.
End loader_facts.

(** X20.  The seeded shuffle only rearranges: for every seed its result
    is a permutation of the list it is given (no image is lost or shown
    twice). *)
Theorem seeded_shuffle_is_a_permutation (seed : Z) (images : list string) :
  ∃ shuffled, seeded_shuffle seed images = Some shuffled
              ∧ shuffled ≡ₚ images
              ∧ List.length shuffled = List.length images.
Proof.
  destruct (seeded_shuffle_Permutation seed images) as (shuffled & H1 & H2).
  exists shuffled. split; [done|]. split; [done|]. by rewrite H2.
Qed.

(** X21.  Once the path is resolved (to an entry, or to the root, for
    which the first configured library is scanned) and the scan has
    succeeded, the slideshow loader answers by mode: without
    [random=true] the images in scan order (the sorted listing), whatever
    the seed; with [random=true] and no seed a redirect carrying the fresh
    seed; with [random=true] and a seed a permutation of the listing, the
    one of [Number(seed) || 0]. *)
Theorem slideshow_loader_answers_by_mode
    (P : Platform) PHOTO_DIRS args randomParam seedParam fresh
    w w1 resolved fullDirPath baseDir images :
  resolvePhotoPath PHOTO_DIRS (strip_one_trailing_slash (splat args)) w
    = (Return (Some resolved), w1) →
  ((∃ relativePath, resolved = Entry fullDirPath baseDir relativePath)
   ∨ (∃ others, resolved = Root (fullDirPath :: others) ∧ baseDir = fullDirPath)) →
  getAllImages fullDirPath w1 = (Return images, w1) →
  ∃ result,
    loader P PHOTO_DIRS args randomParam seedParam fresh w = (Return result, w1)
    ∧ (randomParam ≠ Some "true" →
       result = Data images (strip_one_trailing_slash (splat args)) baseDir false)
    ∧ (randomParam = Some "true" → (seedParam = None ∨ seedParam = Some "") →
       result = Redirect fresh)
    ∧ (randomParam = Some "true" →
       ∀ seed, seedParam = Some seed → seed ≠ "" →
       ∃ shuffled,
         result = Data shuffled (strip_one_trailing_slash (splat args)) baseDir true
         ∧ seeded_shuffle (default 0%Z (string_to_number P seed)) images
           = Some shuffled
         ∧ shuffled ≡ₚ images).
Proof.
  intros Hres Hresolved Hscan.
  rewrite (slideshow_loader_modes P _ _ randomParam seedParam fresh _ _ _ _ _ _
             Hres Hresolved Hscan).
  eexists. split; [reflexivity|]. split; [|split].
  - intros Hrandom. by rewrite decide_False.
  - intros Hrandom [->| ->]; by rewrite decide_True.
  - intros Hrandom seed -> Hseed. rewrite decide_True by done.
    destruct seed as [|c seed]; [done|].
    destruct (seeded_shuffle_Permutation
                (default 0%Z (string_to_number P (String c seed))) images)
      as (shuffled & Hshuffle & Hperm).
    exists shuffled. by rewrite Hshuffle.
Qed.

Lemma slideshow_loader_answers_by_mode_witness :
  ∃ result,
    loader example_platform (Some "/photos") (request_for "/") None (Some "7") 3
      example_world = (Return result, example_world)
    ∧ result = Data ["a.JPG"; "b.png"; "sub/c.webp"] "" "/photos" false.
Proof.
  destruct (slideshow_loader_answers_by_mode example_platform (Some "/photos")
              (request_for "/") None (Some "7") 3 example_world example_world
              (Root ["/photos"]) "/photos" "/photos"
              ["a.JPG"; "b.png"; "sub/c.webp"])
    as (result & Hload & Hsequential & _).
  - vm_compute. reflexivity.
  - right. exists []. split; reflexivity.
  - vm_compute. reflexivity.
  - exists result. split; [exact Hload|]. apply Hsequential. discriminate.
Defined.

(* ================================================================== *)
(** ** Deleting a file *)
(* ================================================================== *)

Section unlink_facts.
Local Open Scope string_scope.
Implicit Types (entries : list (string * node)) (n child : node)
  (segs : list string) (name : string).

Lemma lookup_entry_elem_of name entries child :
  lookup_entry name entries = Some child → (name, child) ∈ entries.
Proof.
  induction entries as [|[n c] entries IH]; [done|]. cbn [lookup_entry].
  destruct (String.eqb_spec n name) as [->|Hne].
  - intros [= ->]. by left.
  - intros H. right. by apply IH.
Qed.

Lemma lookup_entry_None name entries :
  name ∉ entries.*1 → lookup_entry name entries = None.
Proof.
  induction entries as [|[n c] entries IH]; [done|]. cbn [lookup_entry fmap list_fmap fst].
  intros [Hne Hnotin]%not_elem_of_cons.
  destruct (String.eqb_spec n name) as [->|_]; [done|]. by apply IH.
Qed.

Lemma lookup_entry_NoDup name entries child :
  NoDup (entries.*1) → (name, child) ∈ entries →
  lookup_entry name entries = Some child.
Proof.
  induction entries as [|[n c] entries IH]; [by intros _ ?%elem_of_nil|].
  cbn [fmap list_fmap fst lookup_entry]. intros [Hnotin Hnd]%NoDup_cons Hin.
  apply elem_of_cons in Hin as [[= <- <-]|Hin].
  - by rewrite String.eqb_refl.
  - destruct (String.eqb_spec n name) as [->|_]; [|by apply IH].
    exfalso. apply Hnotin. apply list_elem_of_fmap. by exists (name, child).
Qed.

Lemma remove_entry_result name entries :
  match lookup_entry name entries with
  | Some child =>
      if is_directory child then remove_entry name entries = Throw EISDIR
      else ∃ entries', remove_entry name entries = Return entries'
  | None => remove_entry name entries = Throw ENOENT
  end.
Proof.
  induction entries as [|[n c] entries IH]; [done|]. cbn [lookup_entry remove_entry].
  destruct (String.eqb_spec n name) as [->|_].
  - destruct c; cbn [is_directory]; by eauto.
  - destruct (lookup_entry name entries) as [child|].
    + destruct (is_directory child); [by rewrite IH|].
      destruct IH as [entries' ->]. by eauto.
    + by rewrite IH.
Qed.

Lemma remove_entry_names name entries entries' :
  remove_entry name entries = Return entries' →
  entries' ⊆ entries
  ∧ (NoDup (entries.*1) → NoDup (entries'.*1) ∧ name ∉ entries'.*1)
  ∧ ∀ name', name' ≠ name →
      lookup_entry name' entries' = lookup_entry name' entries.
Proof.
  revert entries'.
  induction entries as [|[n c] entries IH]; intros entries'; [done|].
  cbn [remove_entry lookup_entry].
  destruct (String.eqb_spec n name) as [->|Hne].
  - intros Hc. assert (entries' = entries) as -> by (destruct c; by simplify_eq).
    split; [by apply list_subseteq_cons|]. split.
    + cbn [fmap list_fmap fst]. by intros [? ?]%NoDup_cons.
    + intros name' Hne. by destruct (String.eqb_spec name name').
  - destruct (remove_entry name entries) as [rest'|] eqn:Hrest; [|done].
    intros [= <-]. destruct (IH _ eq_refl) as (Hsub & Hnd & Hlook).
    split; [|split].
    + intros x [->|Hx]%elem_of_cons; [by left|]. right. by apply Hsub.
    + cbn [fmap list_fmap fst]. intros [Hnotin [Hnd' Hname]%Hnd]%NoDup_cons.
      split.
      * apply NoDup_cons. split; [|done]. intros Hin. apply Hnotin.
        apply list_elem_of_fmap in Hin as (e & -> & He).
        apply list_elem_of_fmap. exists e. split; [done|]. by apply Hsub.
      * apply not_elem_of_cons. by split.
    + intros name' Hne'. cbn [lookup_entry]. by rewrite Hlook.
Qed.

Lemma replace_entry_lookup name child' entries name' :
  lookup_entry name' (replace_entry name child' entries)
  = if decide (name' = name)
    then (λ _, child') <$> lookup_entry name entries
    else lookup_entry name' entries.
Proof.
  induction entries as [|[n c] entries IH].
  - by case_decide.
  - cbn [replace_entry lookup_entry].
    destruct (String.eqb_spec n name) as [->|Hne]; cbn [lookup_entry].
    + case_decide as Hname; [subst name'; by rewrite String.eqb_refl|].
      by destruct (String.eqb_spec name name').
    + rewrite IH. case_decide as Hname; [|done]. subst name'.
      by destruct (String.eqb_spec n name).
Qed.

Lemma replace_entry_names name child' entries :
  (replace_entry name child' entries).*1 = entries.*1.
Proof.
  induction entries as [|[n c] entries IH]; [done|]. cbn [replace_entry].
  destruct (String.eqb n name); cbn [fmap list_fmap fst]; [done|].
  f_equal. apply IH.
Qed.

Lemma walk_app n segs1 segs2 :
  walk n (segs1 ++ segs2) = walk n segs1 ≫= λ m, walk m segs2.
Proof.
  revert n. induction segs1 as [|seg segs1 IH]; intros n; [done|].
  cbn [app walk]. destruct n as [mtime content|readable entries| |mtime]; [done| |done..].
  destruct (lookup_entry seg entries) as [child|]; [|done]. apply IH.
Qed.

Lemma walk_file_below n segs :
  is_directory n = false → segs ≠ [] → walk n segs = None.
Proof. by destruct n, segs. Qed.

Lemma wellformed_lookup readable entries name child :
  wellformed (Dir readable entries) = true →
  lookup_entry name entries = Some child →
  wellformed child = true ∧ valid_name name = true.
Proof.
  intros [Hall _]%wellformed_Dir Hlook%lookup_entry_elem_of.
  rewrite Forall_forall in Hall. by destruct (Hall _ Hlook).
Qed.

Lemma wellformed_walk n segs m :
  wellformed n = true → walk n segs = Some m → wellformed m = true.
Proof.
  revert n. induction segs as [|seg segs IH]; intros n Hwf.
  - by intros [= <-].
  - cbn [walk]. destruct n as [mtime content|readable entries| |mtime]; [done| |done..].
    destruct (lookup_entry seg entries) as [child|] eqn:Hlook; [|done].
    apply IH. by eapply wellformed_lookup.
Qed.

(** [unlink] succeeds exactly on a path that names something other than a
    directory. *)
Lemma unlink_at_succeeds segs n :
  segs ≠ [] →
  (∃ n', unlink_at segs n = Return n')
  ↔ (∃ m, walk n segs = Some m ∧ is_directory m = false).
Proof.
  revert n. induction segs as [|name rest IH]; intros n Hne; [done|].
  destruct n as [mtime content|readable entries| |mtime];
    [by destruct rest; split; intros [? ?]; destruct_and?| |
     by destruct rest; split; intros [? ?]; destruct_and?..].
  - destruct rest as [|next rest].
    + cbn [unlink_at walk].
      pose proof (remove_entry_result name entries) as Hrem.
      destruct (lookup_entry name entries) as [child|].
      * destruct (is_directory child) eqn:Hdir.
        -- rewrite Hrem. split; [by intros [? ?]|].
           intros (m & [= <-] & Hm). congruence.
        -- destruct Hrem as [entries' ->]. split; by eauto.
      * rewrite Hrem. split; [by intros [? ?]|]. by intros (m & ? & _).
    + change (unlink_at (name :: next :: rest) (Dir readable entries))
        with (match lookup_entry name entries with
              | Some child =>
                  match unlink_at (next :: rest) child with
                  | Return child' =>
                      Return (Dir readable (replace_entry name child' entries))
                  | Throw e => Throw e
                  end
              | None => Throw ENOENT
              end).
      cbn [walk]. fold (walk).
      destruct (lookup_entry name entries) as [child|].
      * specialize (IH child ltac:(done)).
        destruct (unlink_at (next :: rest) child) as [child'|e].
        -- split; [|by eauto]. intros _. apply IH. by eauto.
        -- split; [by intros [? ?]|]. intros H. apply IH in H as [? ?]. done.
      * split; [by intros [? ?]|]. by intros (m & ? & _).
Qed.

Lemma is_prefix_nil_r segs : is_prefix segs [] = false → segs ≠ [].
Proof. by destruct segs. Qed.

(** What [unlink] leaves: the path names nothing any more, and every path
    that does not lead to the removed file names what it did. *)
Lemma unlink_at_walk segs n n' :
  wellformed n = true → unlink_at segs n = Return n' →
  walk n' segs = None
  ∧ ∀ segs', is_prefix segs' segs = false → walk n' segs' = walk n segs'.
Proof.
  revert n n'. induction segs as [|name rest IH]; intros n n' Hwf.
  { by destruct n. }
  destruct n as [mtime content|readable entries| |mtime];
    [by destruct rest| |by destruct rest..].
  destruct rest as [|next rest].
  - cbn [unlink_at].
    pose proof (remove_entry_result name entries) as Hrem.
    destruct (remove_entry name entries) as [entries'|] eqn:Hremove; [|done].
    intros [= <-].
    apply wellformed_Dir in Hwf as [_ Hnd].
    destruct (remove_entry_names _ _ _ Hremove) as (_ & Hnames & Hother).
    destruct (Hnames Hnd) as [_ Hgone].
    split.
    + cbn [walk]. by rewrite (lookup_entry_None _ _ Hgone).
    + intros [|name' rest']; [done|]. cbn [is_prefix walk].
      destruct (String.eqb_spec name' name) as [->|Hname]; cbn [andb].
      * intros Hrest%is_prefix_nil_r.
        rewrite (lookup_entry_None _ _ Hgone).
        destruct (lookup_entry name entries) as [child|]; [|done].
        destruct (is_directory child) eqn:Hdir; [congruence|].
        by rewrite walk_file_below.
      * intros _. by rewrite Hother.
  - change (unlink_at (name :: next :: rest) (Dir readable entries))
      with (match lookup_entry name entries with
            | Some child =>
                match unlink_at (next :: rest) child with
                | Return child' =>
                    Return (Dir readable (replace_entry name child' entries))
                | Throw e => Throw e
                end
            | None => Throw ENOENT
            end).
    destruct (lookup_entry name entries) as [child|] eqn:Hlook; [|done].
    destruct (unlink_at (next :: rest) child) as [child'|] eqn:Hchild; [|done].
    intros [= <-].
    destruct (wellformed_lookup _ _ _ _ Hwf Hlook) as [Hwfc _].
    destruct (IH _ _ Hwfc Hchild) as [Hgone Hother].
    split.
    + cbn [walk]. fold walk.
      rewrite replace_entry_lookup, decide_True, Hlook by done. apply Hgone.
    + intros [|name' rest']; [done|]. cbn [is_prefix walk]. fold walk.
      rewrite replace_entry_lookup.
      destruct (String.eqb_spec name' name) as [->|Hname]; cbn [andb].
      * intros Hrest. rewrite decide_True, Hlook by done. cbn [fmap option_fmap option_map].
        by apply Hother.
      * intros _. by rewrite decide_False.
Qed.

Lemma locate_segments fs p :
  p ≠ "" → locate fs p = walk (fs_root fs) (segments_of fs p).
Proof. intros Hp. unfold locate. by rewrite decide_False. Qed.

(** [fs.unlink] either throws and leaves the world as it was, or replaces
    the tree by the one without the file. *)
Lemma fs_unlink_result p w :
  (∃ e, fs_unlink p w = (Throw e, w)
        ∧ ∀ m, locate (files w) p = Some m →
               is_directory m = false → segments_of (files w) p = [])
  ∨ (∃ root' m,
       fs_unlink p w
       = (Return tt,
          {| files := {| fs_root := root'; fs_cwd := fs_cwd (files w) |};
             calls := calls w |})
       ∧ p ≠ ""
       ∧ unlink_at (segments_of (files w) p) (fs_root (files w)) = Return root'
       ∧ locate (files w) p = Some m ∧ is_directory m = false).
Proof.
  unfold fs_unlink, mbind, IO_bind, bind, get_files, throw, put_files.
  case_decide as Hp.
  { left. eexists. split; [done|]. subst p. by intros m. }
  fold (segments_of (files w) p). rewrite (locate_segments _ _ Hp).
  destruct (decide (segments_of (files w) p = [])) as [Hnil|Hsegs].
  { left. rewrite Hnil. destruct (fs_root (files w)); by eexists. }
  pose proof (unlink_at_succeeds _ (fs_root (files w)) Hsegs) as Hiff.
  destruct (unlink_at (segments_of (files w) p) (fs_root (files w)))
    as [root'|e] eqn:Hunlink.
  - right. destruct (proj1 Hiff) as (m & Hm & Hdir); [by eauto|].
    by exists root', m.
  - left. exists e. split; [done|]. intros m Hm Hdir.
    destruct (proj2 Hiff) as [? ?]; [by eauto|done].
Qed.
End unlink_facts.

Section action_facts.
Local Open Scope string_scope.

Lemma view_action_delete PHOTO_DIRS args nextUrl w :
  ∃ resolved w1,
    resolvePhotoPath PHOTO_DIRS (splat args) w = (Return resolved, w1)
    ∧ files w1 = files w
    ∧ PhotoView.action PHOTO_DIRS args (Some "delete") nextUrl w
      = match resolved with
        | Some (Entry fullPath _ _) =>
            match fs_unlink fullPath w1 with
            | (Return _, w') => (Return (match nextUrl with
                               | Some (String c url) =>
                                   PhotoView.ActionRedirect (String c url)
                               | _ => PhotoView.ActionOk
                               end), w')
            | (Throw _, w') => (Return (PhotoView.ActionError "Delete failed"), w')
            end
        | _ => (Return PhotoView.ActionNull, w1)
        end.
Proof.
  destruct (resolvePhotoPath_files PHOTO_DIRS (splat args) w)
    as (resolved & w1 & Hres & Hfiles).
  exists resolved, w1. split; [done|]. split; [done|].
  unfold PhotoView.action. rewrite decide_True by done.
  unfold mbind at 1, IO_bind, bind. rewrite Hres.
  destruct resolved as [[dirs|fullPath baseDir rel]|]; [done| |done].
  unfold try_catch, mbind, IO_bind, bind.
  destruct (fs_unlink fullPath w1) as [[[]|e] w']; [|done].
  by destruct nextUrl as [[|c url]|].
Qed.

Lemma slideshow_action_delete PHOTO_DIRS c rest w :
  ∃ resolved w1,
    resolvePhotoPath PHOTO_DIRS (String c rest) w = (Return resolved, w1)
    ∧ files w1 = files w
    ∧ SlideshowView.action PHOTO_DIRS (Some "delete") (Some (String c rest)) w
      = match resolved with
        | Some (Entry fullPath _ _) =>
            match fs_unlink fullPath w1 with
            | (Return _, w') => (Return PhotoView.ActionOk, w')
            | (Throw _, w') => (Return (PhotoView.ActionError "Delete failed"), w')
            end
        | _ => (Return PhotoView.ActionNull, w1)
        end.
Proof.
  destruct (resolvePhotoPath_files PHOTO_DIRS (String c rest) w)
    as (resolved & w1 & Hres & Hfiles).
  exists resolved, w1. split; [done|]. split; [done|].
  unfold SlideshowView.action. rewrite decide_True by done.
  unfold mbind at 1, IO_bind, bind. rewrite Hres.
  destruct resolved as [[dirs|fullPath baseDir rel]|]; [done| |done].
  unfold try_catch, mbind, IO_bind, bind.
  by destruct (fs_unlink fullPath w1) as [[[]|e] w'].
Qed.

Lemma view_action_safe PHOTO_DIRS args intent nextUrl w :
  ∃ result w',
    PhotoView.action PHOTO_DIRS args intent nextUrl w = (Return result, w')
    ∧ (intent ≠ Some "delete" → result = PhotoView.ActionNull ∧ w' = w)
    ∧ (result = PhotoView.ActionNull
       ∨ result = PhotoView.ActionError "Delete failed" → files w' = files w).
Proof.
  destruct (decide (intent = Some "delete")) as [->|Hintent].
  - destruct (view_action_delete PHOTO_DIRS args nextUrl w)
      as (resolved & w1 & _ & Hfiles & ->).
    destruct resolved as [[dirs|fullPath baseDir rel]|];
      [by eexists _, _| |by eexists _, _].
    destruct (fs_unlink_result fullPath w1)
      as [(e & -> & _)|(root' & m & -> & _)].
    + by eexists _, _.
    + eexists _, _. split; [done|]. split; [done|].
      destruct nextUrl as [[|c url]|]; by intros [|].
  - unfold PhotoView.action. rewrite decide_False by done. by eexists _, _.
Qed.

Lemma slideshow_action_safe PHOTO_DIRS intent filePath w :
  ∃ result w',
    SlideshowView.action PHOTO_DIRS intent filePath w = (Return result, w')
    ∧ (intent ≠ Some "delete" ∨ filePath = None ∨ filePath = Some "" →
       result = PhotoView.ActionNull ∧ w' = w)
    ∧ (result = PhotoView.ActionNull
       ∨ result = PhotoView.ActionError "Delete failed" → files w' = files w).
Proof.
  destruct filePath as [[|c rest]|]; [by eexists _, _| |by eexists _, _].
  destruct (decide (intent = Some "delete")) as [->|Hintent].
  - destruct (slideshow_action_delete PHOTO_DIRS c rest w)
      as (resolved & w1 & _ & Hfiles & ->).
    destruct resolved as [[dirs|fullPath baseDir rel]|].
    + eexists _, _. split; [done|]. split; [|done]. by intros [|[|]].
    + destruct (fs_unlink_result fullPath w1)
        as [(e & -> & _)|(root' & m & -> & _)].
      * eexists _, _. split; [done|]. split; [|done]. by intros [|[|]].
      * eexists _, _. split; [done|]. split; [by intros [|[|]]|by intros [|]].
    + eexists _, _. split; [done|]. split; [|done]. by intros [|[|]].
  - unfold SlideshowView.action. rewrite decide_False by done. by eexists _, _.
Qed.

(** The effect of [fs.unlink] on what paths name. *)
Lemma fs_unlink_effect p w :
  wellformed (fs_root (files w)) = true →
  is_directory (fs_root (files w)) = true →
  ∃ outcome w',
    fs_unlink p w = (outcome, w')
    ∧ calls w' = calls w ∧ fs_cwd (files w') = fs_cwd (files w)
    ∧ ((∃ m, locate (files w) p = Some m ∧ is_directory m = false) →
       outcome = Return tt
       ∧ locate (files w') p = None
       ∧ ∀ q, is_prefix (segments_of (files w) q) (segments_of (files w) p) = false →
              locate (files w') q = locate (files w) q)
    ∧ ((locate (files w) p = None
        ∨ ∃ m, locate (files w) p = Some m ∧ is_directory m = true) →
       (∃ e, outcome = Throw e) ∧ w' = w).
Proof.
  intros Hwf Hroot.
  destruct (fs_unlink_result p w)
    as [(e & -> & Hfail)|(root' & m & -> & Hp & Hunlink & Hm & Hdir)].
  - eexists _, _. split; [done|]. split; [done|]. split; [done|]. split.
    + intros (m & Hm & Hdir). exfalso.
      pose proof (Hfail m Hm Hdir) as Hnil.
      assert (p ≠ "") as Hp by (intros ->; done).
      rewrite (locate_segments _ _ Hp), Hnil in Hm. cbn in Hm. congruence.
    + intros _. by eauto.
  - eexists _, _. split; [done|]. split; [done|]. split; [done|].
    destruct (unlink_at_walk _ _ _ Hwf Hunlink) as [Hgone Hother].
    split.
    + intros _. split; [done|]. split.
      * by rewrite (locate_segments _ _ Hp).
      * intros q Hq. destruct (decide (q = "")) as [->|Hne]; [done|].
        rewrite !(locate_segments _ _ Hne). by apply Hother.
    + intros [Hnone|(m' & Hm' & Hdir')]; congruence.
Qed.
End action_facts.




(* ================================================================== *)
(** ** The listing after a delete *)
(* ================================================================== *)

Section filter_facts.
Context {A : Type}.
Implicit Types (l : list A).

Lemma filter_all (P : A → Prop) `{!∀ x, Decision (P x)} l :
  Forall P l → filter P l = l.
Proof.
  induction 1 as [|x l Hx _ IH]; [done|].
  rewrite filter_cons_True by done. by rewrite IH.
Qed.

Lemma filter_map_inj_at {B} `{!EqDecision A, !EqDecision B} (f : A → B) a l :
  (∀ x, x ∈ l → f x = f a → x = a) →
  map f (filter (λ x, x ≠ a) l) = filter (λ y, y ≠ f a) (map f l).
Proof.
  induction l as [|x l IH]; intros Hinj; [done|]. cbn [map].
  destruct (decide (x = a)) as [->|Hne].
  - rewrite !filter_cons_False by (intros H; by apply H).
    apply IH. intros y Hy. apply Hinj. by right.
  - rewrite !filter_cons_True; [| |done].
    + cbn [map]. f_equal. apply IH. intros y Hy. apply Hinj. by right.
    + intros Heq. apply Hne, Hinj; [by left|done].
Qed.

End filter_facts.

Section rescan_facts.
Local Open Scope string_scope.
Implicit Types (entries : list (string * node)) (n child : node)
  (segs : list string) (name : string).

Lemma insert_sorted_first x l :
  Forall (λ z, JSString.le x z) l → insert_sorted x l = x :: l.
Proof.
  intros [|y l' Hy _]; [done|]. cbn [insert_sorted].
  unfold JSString.le in Hy. by rewrite Hy.
Qed.

Lemma insert_sorted_filter (P : string → Prop) `{!∀ x, Decision (P x)} x l :
  StronglySorted JSString.le l →
  filter P (insert_sorted x l)
  = if decide (P x) then insert_sorted x (filter P l) else filter P l.
Proof.
  induction 1 as [|y l Hl IH Hall].
  - cbn [insert_sorted]. case_decide.
    + by rewrite filter_cons_True.
    + by rewrite filter_cons_False.
  - cbn [insert_sorted]. destruct (JSString.lt y x) eqn:Hlt.
    + destruct (decide (P y)).
      * rewrite !(filter_cons_True P y) by done. rewrite IH.
        case_decide; [|done]. cbn [insert_sorted]. by rewrite Hlt.
      * rewrite !(filter_cons_False P y) by done. apply IH.
    + case_decide as Hx.
      * rewrite filter_cons_True by done. symmetry. apply insert_sorted_first.
        apply Forall_forall. intros z [_ Hz]%list_elem_of_filter.
        apply elem_of_cons in Hz as [->|Hz]; [done|].
        rewrite Forall_forall in Hall. by apply (js_le_trans x y z), Hall.
      * by rewrite filter_cons_False.
Qed.

(** Sorting and then dropping an item, or dropping it first: the same. *)
Lemma sort_filter (P : string → Prop) `{!∀ x, Decision (P x)} (l : list string) :
  sort (filter P l) = filter P (sort l).
Proof.
  induction l as [|x l IH]; [done|].
  change (sort (x :: l)) with (insert_sorted x (sort l)).
  rewrite insert_sorted_filter by apply sort_StronglySorted.
  destruct (decide (P x)).
  - rewrite filter_cons_True by done.
    change (sort (x :: filter P l)) with (insert_sorted x (sort (filter P l))).
    by rewrite IH.
  - by rewrite filter_cons_False.
Qed.

Lemma unlink_at_cons name next rest readable entries :
  unlink_at (name :: next :: rest) (Dir readable entries)
  = match lookup_entry name entries with
    | Some child =>
        match unlink_at (next :: rest) child with
        | Return child' => Return (Dir readable (replace_entry name child' entries))
        | Throw e => Throw e
        end
    | None => Throw ENOENT
    end.
Proof. done. Qed.

Lemma unlink_at_Dir segs n n' :
  unlink_at segs n = Return n' →
  ∃ readable entries entries',
    n = Dir readable entries ∧ n' = Dir readable entries'.
Proof.
  destruct segs as [|name [|next rest]], n as [mtime content|readable entries| |mtime];
    try done.
  - cbn [unlink_at]. destruct (remove_entry name entries); [|done].
    intros [= <-]. by eauto.
  - rewrite unlink_at_cons. destruct (lookup_entry name entries); [|done].
    destruct (unlink_at (next :: rest) n); [|done]. intros [= <-]. by eauto.
Qed.

Lemma wellformed_Dir_intro readable entries :
  Forall (λ e, valid_name e.1 = true ∧ wellformed e.2 = true) entries →
  NoDup (entries.*1) →
  wellformed (Dir readable entries) = true.
Proof.
  intros Hall Hnd. cbn [wellformed]. apply andb_true_intro. split.
  - apply forallb_forall. intros e He%list_elem_of_In.
    rewrite Forall_forall in Hall. destruct (Hall _ He) as [-> ->]. done.
  - by apply bool_decide_eq_true.
Qed.

Lemma all_readable_Dir_intro entries :
  Forall (λ e, all_readable e.2 = true) entries →
  all_readable (Dir true entries) = true.
Proof.
  intros Hall. cbn [all_readable andb]. apply forallb_forall.
  intros e He%list_elem_of_In. rewrite Forall_forall in Hall. by apply Hall.
Qed.

(** Paths below other names pass the filter. *)
Lemma filter_other_names entries name rest :
  name ∉ entries.*1 →
  filter (λ p, p ≠ name :: rest) (flat_map entry_paths entries)
  = flat_map entry_paths entries.
Proof.
  intros Hnotin. apply filter_all, Forall_forall.
  intros p (e & He & [segs' ->]%entry_paths_head)%elem_of_flat_map [= Heq _].
  apply Hnotin. apply list_elem_of_fmap. by exists e.
Qed.

Lemma filter_entry_other name' child name rest :
  name' ≠ name →
  filter (λ p, p ≠ name :: rest) (entry_paths (name', child))
  = entry_paths (name', child).
Proof.
  intros Hne. apply filter_all, Forall_forall.
  intros p [segs' ->]%entry_paths_head [= Heq _]. done.
Qed.

Lemma remove_entry_paths name entries entries' :
  NoDup (entries.*1) →
  remove_entry name entries = Return entries' →
  flat_map entry_paths entries'
  = filter (λ p, p ≠ [name]) (flat_map entry_paths entries).
Proof.
  revert entries'.
  induction entries as [|[n c] entries IH]; intros entries'; [done|].
  cbn [fmap list_fmap fst]. intros [Hnotin Hnd]%NoDup_cons.
  cbn [remove_entry flat_map]. rewrite filter_app.
  destruct (String.eqb_spec n name) as [->|Hne].
  - intros Hc. rewrite filter_other_names by done.
    assert (entries' = entries
            ∧ filter (λ p, p ≠ [name]) (entry_paths (name, c)) = []) as [-> ->].
    { unfold entry_paths. cbn [fst snd].
      destruct c as [mtime content|readable es| |mtime];
        [|done|by simplify_eq|]; injection Hc as ->; (split; [done|]);
        (destruct (is_image name); [|done]);
        by rewrite filter_cons_False by (intros H; by apply H). }
    done.
  - destruct (remove_entry name entries) as [rest'|]; [|done].
    intros [= <-]. cbn [flat_map].
    by rewrite filter_entry_other, (IH _ Hnd eq_refl).
Qed.

Lemma filter_map_cons name rest (paths : list (list string)) :
  map (cons name) (filter (λ p, p ≠ rest) paths)
  = filter (λ p, p ≠ name :: rest) (map (cons name) paths).
Proof.
  induction paths as [|p paths IH]; [done|]. cbn [map].
  destruct (decide (p = rest)) as [->|Hne].
  - by rewrite !filter_cons_False by (intros H; by apply H).
  - rewrite !filter_cons_True; [|by intros [= ?]|done]. cbn [map]. by rewrite IH.
Qed.

Lemma replace_entry_paths name rest entries child child' :
  NoDup (entries.*1) →
  lookup_entry name entries = Some child →
  is_directory child = true → is_directory child' = true →
  image_paths child' = filter (λ p, p ≠ rest) (image_paths child) →
  flat_map entry_paths (replace_entry name child' entries)
  = filter (λ p, p ≠ name :: rest) (flat_map entry_paths entries).
Proof.
  intros Hnd Hlook Hdir Hdir' Hpaths. revert Hnd Hlook.
  induction entries as [|[n c] entries IH]; [done|].
  cbn [fmap list_fmap fst]. intros [Hnotin Hnd]%NoDup_cons.
  cbn [lookup_entry replace_entry].
  destruct (String.eqb_spec n name) as [->|Hne].
  - intros [= ->]. cbn [flat_map]. rewrite filter_app, filter_other_names by done.
    f_equal. unfold entry_paths. cbn [fst snd].
    destruct child as [|r es| |], child' as [|r' es'| |]; try done.
    rewrite Hpaths. apply filter_map_cons.
  - intros Hlook. cbn [flat_map].
    by rewrite filter_app, filter_entry_other, (IH Hnd Hlook).
Qed.

Lemma replace_entry_Forall (Q : string * node → Prop) name child' entries :
  Forall Q entries → Q (name, child') →
  Forall Q (replace_entry name child' entries).
Proof.
  intros Hall Hnew. induction Hall as [|[n c] entries Hc Hrest IH]; [constructor|].
  cbn [replace_entry]. destruct (String.eqb_spec n name) as [->|_].
  - by constructor.
  - by constructor.
Qed.

(** [unlink] keeps the tree well-formed and readable, and takes exactly
    the removed path from the paths of the images. *)
Lemma unlink_at_image_paths segs n n' :
  wellformed n = true → unlink_at segs n = Return n' →
  wellformed n' = true
  ∧ (all_readable n = true → all_readable n' = true)
  ∧ image_paths n' = filter (λ p, p ≠ segs) (image_paths n).
Proof.
  revert n n'. induction segs as [|name rest IH]; intros n n' Hwf Hunlink.
  { by destruct n. }
  destruct (unlink_at_Dir _ _ _ Hunlink) as (readable & entries & entries' & -> & ->).
  pose proof Hwf as [Hall Hnd]%wellformed_Dir.
  destruct rest as [|next rest].
  - cbn [unlink_at] in Hunlink.
    destruct (remove_entry name entries) as [removed|] eqn:Hrem; [|done].
    injection Hunlink as <-.
    destruct (remove_entry_names _ _ _ Hrem) as (Hsub & Hnames & _).
    destruct (Hnames Hnd) as [Hnd' _].
    split; [|split].
    + apply wellformed_Dir_intro; [|done].
      rewrite Forall_forall in Hall |- *. intros e He. by apply Hall, Hsub.
    + intros [-> Hread]%all_readable_Dir. apply all_readable_Dir_intro.
      rewrite Forall_forall in Hread |- *. intros e He. by apply Hread, Hsub.
    + rewrite !image_paths_Dir. by apply remove_entry_paths.
  - rewrite unlink_at_cons in Hunlink.
    destruct (lookup_entry name entries) as [child|] eqn:Hlook; [|done].
    destruct (unlink_at (next :: rest) child) as [child'|] eqn:Hchild; [|done].
    injection Hunlink as <-.
    destruct (wellformed_lookup _ _ _ _ Hwf Hlook) as [Hwfc Hname].
    destruct (IH _ _ Hwfc Hchild) as (Hwfc' & Hreadc & Hpaths).
    destruct (unlink_at_Dir _ _ _ Hchild) as (r & es & es' & -> & ->).
    split; [|split].
    + apply wellformed_Dir_intro; [|by rewrite replace_entry_names].
      by apply replace_entry_Forall.
    + intros [-> Hread]%all_readable_Dir. apply all_readable_Dir_intro.
      apply replace_entry_Forall; [done|]. apply Hreadc.
      rewrite Forall_forall in Hread.
      by apply (Hread _ (lookup_entry_elem_of _ _ _ Hlook)).
    + rewrite !image_paths_Dir. by eapply replace_entry_paths.
Qed.

(** Removing a file below a directory, seen from that directory. *)
Lemma unlink_at_below dsegs segs n dir n' :
  walk n dsegs = Some dir → segs ≠ [] →
  unlink_at (dsegs ++ segs) n = Return n' →
  ∃ dir', unlink_at segs dir = Return dir' ∧ walk n' dsegs = Some dir'.
Proof.
  intros Hwalk Hsegs. revert n n' Hwalk.
  induction dsegs as [|d dsegs IH]; intros n n'.
  - intros [= ->] Hunlink. by exists n'.
  - cbn [walk app]. intros Hwalk Hunlink.
    destruct (unlink_at_Dir _ _ _ Hunlink) as (r & es & es' & -> & _).
    destruct (dsegs ++ segs)%list as [|next rest] eqn:Happ.
    { by apply app_eq_nil in Happ as [_ ?]. }
    rewrite unlink_at_cons in Hunlink.
    destruct (lookup_entry d es) as [child|] eqn:Hlook; [|done].
    destruct (unlink_at (next :: rest) child) as [child'|] eqn:Hchild; [|done].
    injection Hunlink as <-.
    destruct (IH _ _ Hwalk Hchild) as (dir' & Hdir' & Hwalk').
    exists dir'. split; [done|]. cbn [walk]. fold walk.
    by rewrite replace_entry_lookup, decide_True, Hlook.
Qed.

Lemma image_paths_walk n segs :
  wellformed n = true → segs ∈ image_paths n →
  ∃ m, walk n segs = Some m ∧ is_regular m = true.
Proof.
  intros Hwf Hin%image_paths_image_at. revert Hwf.
  induction Hin as [readable entries name entry Hin Hreg Hext
                   |readable entries name readable' entries' segs' Hin _ IH];
    intros Hwf; pose proof Hwf as [Hall Hnd]%wellformed_Dir; cbn [walk]; fold walk.
  - rewrite (lookup_entry_NoDup _ _ _ Hnd Hin). by eauto.
  - rewrite (lookup_entry_NoDup _ _ _ Hnd Hin). apply IH.
    rewrite Forall_forall in Hall. by destruct (Hall _ Hin).
Qed.

Lemma normalize_nonempty p : normalize p ≠ "".
Proof.
  unfold normalize. case_decide; [done|]. cbn zeta.
  case_decide as Hres.
  - by repeat case_match.
  - repeat case_match; try done; by apply append_nonempty.
Qed.

Lemma join_nonempty a b : join a b ≠ "".
Proof. destruct a, b; cbn [join]; try done; apply normalize_nonempty. Qed.

(** Removing a listed image and scanning again. *)
Lemma rescan_after_unlink w dirPath readable entries image fullPath :
  wellformed (fs_root (files w)) = true →
  locate (files w) dirPath = Some (Dir readable entries) →
  all_readable (Dir readable entries) = true →
  image ∈ sort (map (render []) (image_paths (Dir readable entries))) →
  fullPath ≠ "" →
  segments_of (files w) fullPath
    = (segments_of (files w) dirPath ++ split_on slash image)%list →
  ∃ w', fs_unlink fullPath w = (Return tt, w')
        ∧ calls w' = calls w
        ∧ getAllImages dirPath w'
          = (Return (filter (λ x, x ≠ image)
                       (sort (map (render []) (image_paths (Dir readable entries))))),
             w').
Proof.
  intros Hwf Hloc Hread Himage Hfull Hsegs.
  pose proof (locate_nonempty _ _ _ Hloc) as Hdir.
  rewrite (locate_segments _ _ Hdir) in Hloc.
  pose proof (wellformed_walk _ _ _ Hwf Hloc) as Hwfd.
  rewrite sort_Permutation in Himage.
  apply elem_of_map in Himage as (segs & -> & Hin).
  destruct (image_paths_valid _ _ Hwfd Hin) as [Hne Hvalid].
  pose proof (Forall_valid_plain _ Hvalid) as [_ Hnoslash].
  unfold render in Hsegs at 1. cbn [app] in Hsegs.
  rewrite (split_on_join _ Hne Hnoslash) in Hsegs.
  destruct (image_paths_walk _ _ Hwfd Hin) as (file & Hfile & Hreg).
  destruct (fs_unlink_result fullPath w)
    as [(e & _ & Hfail)|(root' & m & Hunlink & _ & Hat & _)].
  { exfalso. specialize (Hfail file).
    rewrite (locate_segments _ _ Hfull), Hsegs, walk_app, Hloc in Hfail.
    assert (is_directory file = false) as Hnodir by (by destruct file).
    specialize (Hfail Hfile Hnodir).
    by apply app_eq_nil in Hfail as [_ ?]. }
  rewrite Hsegs in Hat.
  destruct (unlink_at_below _ _ _ _ _ Hloc Hne Hat) as (dir' & Hdir' & Hwalk').
  destruct (unlink_at_image_paths _ _ _ Hwfd Hdir') as (Hwfd' & Hread' & Hpaths).
  destruct (unlink_at_Dir _ _ _ Hdir') as (r & es & es' & [= <- <-] & ->).
  eexists. split; [exact Hunlink|]. split; [done|].
  rewrite (getAllImages_listing _ dirPath readable es');
    [|by rewrite (locate_segments _ _ Hdir)|done|by apply Hread'].
  rewrite Hpaths, <- sort_filter. do 3 f_equal.
  apply filter_map_inj_at. intros segs' [Hne' Hvalid']%(image_paths_valid _ _ Hwfd).
  by apply render_nil_inj.
Qed.

Lemma render_nonempty segs :
  segs ≠ [] → Forall (λ seg, valid_name seg = true) segs → render [] segs ≠ "".
Proof.
  intros Hne Hvalid Heq.
  pose proof (Forall_valid_plain _ Hvalid) as [_ Hnoslash].
  pose proof (split_on_join _ Hne Hnoslash) as Hsplit.
  unfold render in Heq. cbn [app] in Heq. rewrite Heq in Hsplit.
  cbn in Hsplit. subst segs.
  apply Forall_cons in Hvalid as [Hvalid _]. done.
Qed.
End rescan_facts.


